(** * ParallelGroupBuilder (src/common/group_data.h)

    A shallow embedding of xgboost's multi-threaded group builder, which
    turns an unordered stream of (key, value) records into a CSR-style pair
    of arrays: the row pointer [rptr_] and the value array [data_].

    Conventions of the embedding:
    - [std::size_t] and [SizeType] (= [bst_ulong]) are 64-bit unsigned
      integers: they are [Z] values in [0, 2^64) and every arithmetic
      operation of the source is followed by an explicit [wrap].
    - [std::vector] is a [list]; [v.resize(n, x)] is stdpp's [resize];
      [v[i]] out of range is undefined behaviour in C++ and is [None] here,
      so every method returns an [option].  Allocation failure of a huge
      [resize] is not modelled.
    - the template parameter [is_row_major] is the first argument of every
      method; [ValueType] is a type [V] whose value-initialised element
      ([ValueType()], used by [data_.resize(n)]) is [dflt].
    - loops over the elements of a vector are left-to-right traversals
      threading the loop-carried variables. *)

From stdpp Require Import base numbers option list.

Local Open Scope Z_scope.

(** ** Machine arithmetic *)

Definition size_max : Z := 2 ^ 64.
Definition wrap (z : Z) : Z := z `mod` size_max.
Definition wadd (a b : Z) : Z := wrap (a + b).
Definition wsub (a b : Z) : Z := wrap (a - b).
Definition wmul (a b : Z) : Z := wrap (a * b).

(** ** Vectors *)

Definition vsize {A} (l : list A) : Z := Z.of_nat (length l).
Definition vresize {A} (n : Z) (x : A) (l : list A) : list A :=
  resize (Z.to_nat n) x l.
Definition vat {A} (l : list A) (i : Z) : option A :=
  if bool_decide (0 ≤ i) then l !! Z.to_nat i else None.
Definition vset {A} (i : Z) (x : A) (l : list A) : list A :=
  <[Z.to_nat i := x]> l.
Definition vback {A} (l : list A) : option A := last l.

(** Left-to-right traversals with a loop-carried state. *)
Fixpoint mapAccumL {S A B} (f : S → A → S * B) (s : S) (l : list A)
  : S * list B :=
  match l with
  | [] => (s, [])
  | a :: l =>
      let '(s1, b) := f s a in
      let '(s2, bs) := mapAccumL f s1 l in
      (s2, b :: bs)
  end.

Fixpoint mapAccumM {S A B} (f : S → A → option (S * B)) (s : S) (l : list A)
  : option (S * list B) :=
  match l with
  | [] => Some (s, [])
  | a :: l =>
      '(s1, b) ← f s a;
      '(s2, bs) ← mapAccumM f s1 l;
      Some (s2, b :: bs)
  end.

Fixpoint foldlM {S A} (f : S → A → option S) (s : S) (l : list A)
  : option S :=
  match l with
  | [] => Some s
  | a :: l => s1 ← f s a; foldlM f s1 l
  end.

(** ** The builder *)

Section Builder.
Context {V : Type}.
Variable dflt : V.

Record Builder : Type := mkBuilder {
  rptr_ : list Z;
  data_ : list V;
  thread_rptr_ : list (list Z);
  base_row_offset_ : Z;
  thread_displacement_ : Z;
}.

(** The constructor binds the caller's arrays; [thread_rptr_] starts empty
    and [thread_displacement_] is left uninitialised by the source (it is
    written by [InitBudget] before any read), here 0. *)
Definition ParallelGroupBuilder (p_rptr : list Z) (p_data : list V)
    (base_row_offset : Z) : Builder :=
  mkBuilder p_rptr p_data [] base_row_offset 0.

Definition set_threads (b : Builder) (trs : list (list Z)) : Builder :=
  mkBuilder (rptr_ b) (data_ b) trs (base_row_offset_ b)
            (thread_displacement_ b).

Variable is_row_major : bool.

(** step 1 *)
Definition InitBudget (max_key nthread : Z) (b : Builder) : option Builder :=
  if bool_decide (nthread < 1) then None else
  let trs := vresize nthread [] (thread_rptr_ b) in
  let full_size :=
    if is_row_major then max_key
    else wsub max_key (Z.min (base_row_offset_ b) max_key) in
  let displacement := if is_row_major then full_size `div` nthread else 0 in
  let trs :=
    foldl (λ trs i,
             let thread_size :=
               if is_row_major then displacement else full_size in
             alter (vresize thread_size 0) (Z.to_nat i) trs)
          trs (seqZ 0 (vsize trs - 1)) in
  let last_thread_size :=
    if is_row_major then wsub full_size (wmul (nthread - 1) displacement)
    else full_size in
  Some (mkBuilder (rptr_ b) (data_ b)
          (alter (vresize last_thread_size 0) (Z.to_nat (nthread - 1)) trs)
          (base_row_offset_ b) displacement).

(** The key translation shared by [AddBudget] and [Push]. *)
Definition offset_key (b : Builder) (key threadid : Z) : Z :=
  if is_row_major
  then wsub (wsub key (base_row_offset_ b))
            (wmul (wrap threadid) (thread_displacement_ b))
  else wsub key (base_row_offset_ b).

(** step 2 *)
Definition AddBudget (key threadid nelem : Z) (b : Builder)
  : option Builder :=
  trptr ← vat (thread_rptr_ b) threadid;
  let ok := offset_key b key threadid in
  let trptr :=
    if bool_decide (vsize trptr < wadd ok 1)
    then vresize (wadd ok 1) 0 trptr else trptr in
  c ← vat trptr ok;
  Some (set_threads b
          (vset threadid (vset ok (wadd c nelem) trptr) (thread_rptr_ b))).

(** step 3, row-major branch: one cell of one thread's buffer. *)
Record scan : Type := mkScan {
  s_count : Z;
  s_offset_idx : Z;
  s_rptr : list Z;
}.

Definition rm_cell (rptr_fill_value : Z) (st : scan) (cell : Z) : scan * Z :=
  let thread_count := cell in
  let cell' := wadd (s_count st) rptr_fill_value in
  let count := wadd (s_count st) thread_count in
  if bool_decide (s_offset_idx st < vsize (s_rptr st))
  then (mkScan count (wadd (s_offset_idx st) 1)
          (alter (λ x, wadd x count) (Z.to_nat (s_offset_idx st)) (s_rptr st)),
        cell')
  else (mkScan count (s_offset_idx st) (s_rptr st), cell').

Definition rm_thread (rptr_fill_value : Z) (st : scan) (trptr : list Z)
  : scan * list Z :=
  mapAccumL (rm_cell rptr_fill_value) st trptr.

(** step 3, general branch: thread [trptr] at row [i]. *)
Definition gen_cell (base i back : Z) (count : Z) (trptr : list Z)
  : option (Z * list Z) :=
  if bool_decide (i < wadd (vsize trptr) base) then
    thread_count ← vat trptr (wsub i base);
    Some (wadd count thread_count,
          vset (wsub i base) (wadd count back) trptr)
  else Some (count, trptr).

Definition gen_row (base : Z) (st : Z * list (list Z) * list Z) (i : Z)
  : option (Z * list (list Z) * list Z) :=
  let '(count, trs, rptr) := st in
  back ← vback rptr;
  '(count, trs) ← mapAccumM (gen_cell base i back) count trs;
  Some (count, trs,
        alter (λ x, wadd x count) (Z.to_nat (wadd i 1)) rptr).

Definition rptr_fill (rptr : list Z) : Z := default 0 (vback rptr).

Definition InitStorage (b : Builder) : option Builder :=
  let base := base_row_offset_ b in
  if is_row_major then
    let expected_rows :=
      foldl (λ acc trptr, wadd acc (vsize trptr)) 0 (thread_rptr_ b) in
    let rptr_fill_value := rptr_fill (rptr_ b) in
    let rptr :=
      vresize (wadd (wadd expected_rows base) 1) rptr_fill_value (rptr_ b) in
    let '(st, trs) :=
      mapAccumL (rm_thread rptr_fill_value)
                (mkScan 0 (wadd base 1) rptr) (thread_rptr_ b) in
    back ← vback (s_rptr st);
    Some (mkBuilder (s_rptr st) (vresize back dflt (data_ b)) trs
            base (thread_displacement_ b))
  else
    let rptr_fill_value := rptr_fill (rptr_ b) in
    let rptr :=
      foldl (λ rptr trptr,
               if bool_decide (vsize rptr ≤ wadd (vsize trptr) base)
               then vresize (wadd (wadd (vsize trptr) base) 1)
                            rptr_fill_value rptr
               else rptr)
            (rptr_ b) (thread_rptr_ b) in
    '(count, trs, rptr) ←
      foldlM (gen_row base) (0, thread_rptr_ b, rptr)
             (seqZ base (vsize rptr - 1 - base));
    back ← vback rptr;
    Some (mkBuilder rptr (vresize back dflt (data_ b)) trs
            base (thread_displacement_ b)).

(** step 4 *)
Definition Push (key : Z) (value : V) (threadid : Z) (b : Builder)
  : option Builder :=
  trptr ← vat (thread_rptr_ b) threadid;
  let ok := offset_key b key threadid in
  rp ← vat trptr ok;
  if bool_decide (rp < vsize (data_ b)) then
    Some (mkBuilder (rptr_ b) (vset rp value (data_ b))
            (vset threadid (vset ok (wadd rp 1) trptr) (thread_rptr_ b))
            (base_row_offset_ b) (thread_displacement_ b))
  else None.

(** ** The four-phase protocol *)

(** A budget call is (key, threadid, nelem); a push is
    (key, value, threadid).  The calls of all threads are given in one
    interleaving. *)
Definition budget_call : Type := Z * Z * Z.
Definition push_call : Type := Z * V * Z.

Definition AddBudgets (calls : list budget_call) (b : Builder)
  : option Builder :=
  foldlM (λ b '(key, threadid, nelem), AddBudget key threadid nelem b)
         b calls.

Definition Pushes (calls : list push_call) (b : Builder) : option Builder :=
  foldlM (λ b '(key, value, threadid), Push key value threadid b) b calls.

Definition build (p_rptr : list Z) (p_data : list V) (base max_key nthread : Z)
    (budgets : list budget_call) (pushes : list push_call)
  : option Builder :=
  b ← InitBudget max_key nthread (ParallelGroupBuilder p_rptr p_data base);
  b ← AddBudgets budgets b;
  b ← InitStorage b;
  Pushes pushes b.

End Builder.

Arguments Builder : clear implicits.
Arguments scan : clear implicits.

(** ** Machine arithmetic facts *)

Lemma size_max_eq : size_max = 18446744073709551616.
Proof. reflexivity. Qed.

Lemma size_max_pos : 0 < size_max.
Proof. reflexivity. Qed.

Lemma wrap_range z : 0 ≤ wrap z < size_max.
Proof. apply Z.mod_pos_bound, size_max_pos. Qed.

Lemma wrap_small z : 0 ≤ z < size_max → wrap z = z.
Proof. apply Z.mod_small. Qed.

Lemma wrap_wrap z : wrap (wrap z) = wrap z.
Proof. apply Z.mod_mod. pose proof size_max_pos; lia. Qed.

Lemma wrap_add_l a b : wrap (wrap a + b) = wrap (a + b).
Proof. apply Zplus_mod_idemp_l. Qed.

Lemma wrap_add_r a b : wrap (a + wrap b) = wrap (a + b).
Proof. apply Zplus_mod_idemp_r. Qed.

Global Opaque size_max.

(** ** Vector facts *)

Lemma vsize_nonneg {A} (l : list A) : 0 ≤ vsize l.
Proof. unfold vsize; lia. Qed.

Lemma vsize_vresize {A} n (x : A) l : 0 ≤ n → vsize (vresize n x l) = n.
Proof. intros. unfold vsize, vresize. rewrite length_resize. lia. Qed.

Lemma vat_nonneg {A} (l : list A) i : 0 ≤ i → vat l i = l !! Z.to_nat i.
Proof. intros. unfold vat. by rewrite bool_decide_true. Qed.

Lemma vat_nat {A} (l : list A) (i : nat) : vat l (Z.of_nat i) = l !! i.
Proof.
  unfold vat. rewrite bool_decide_true by lia. by rewrite Nat2Z.id.
Qed.

(** The loop [for (i = 0; i < m; ++i) v[i] = f(v[i])]. *)
Lemma foldl_alter_prefix {A} (f : A → A) (l : list A) (m : nat) :
  (m ≤ length l)%nat →
  foldl (λ l i, alter f (Z.to_nat i) l) l (seqZ 0 (Z.of_nat m))
  = (f <$> take m l) ++ drop m l.
Proof.
  induction m as [|m IH]; intros Hm.
  - by rewrite take_0, drop_0.
  - rewrite seqZ_S, foldl_app, IH by lia. simpl.
    rewrite Z.add_0_l, Nat2Z.id.
    destruct (lookup_lt_is_Some_2 l m) as [x Hx]; [lia|].
    rewrite (take_S_r _ _ _ Hx), (drop_S _ _ _ Hx), fmap_app. simpl.
    rewrite alter_app_r_alt by (rewrite length_fmap, length_take; lia).
    rewrite length_fmap, length_take.
    replace (m - m `min` length l)%nat with 0%nat by lia.
    by rewrite <- (assoc_L (++)).
Qed.

(** ** Step 1: the buffers allocated by [InitBudget] *)

Section InitBudget_facts.
Context {V : Type}.
Implicit Types b : Builder V.

Definition full_size_of (rm : bool) (base max_key : Z) : Z :=
  if rm then max_key else wsub max_key (Z.min base max_key).

Definition displacement_of (rm : bool) (base max_key nthread : Z) : Z :=
  if rm then full_size_of rm base max_key `div` nthread else 0.

Definition thread_size_of (rm : bool) (base max_key nthread : Z) : Z :=
  if rm then displacement_of rm base max_key nthread
  else full_size_of rm base max_key.

Definition last_thread_size_of (rm : bool) (base max_key nthread : Z) : Z :=
  if rm then wsub (full_size_of rm base max_key)
               (wmul (nthread - 1) (displacement_of rm base max_key nthread))
  else full_size_of rm base max_key.

Lemma InitBudget_eq rm max_key n b :
  1 ≤ n →
  let base := base_row_offset_ b in
  let trs := vresize n [] (thread_rptr_ b) in
  InitBudget rm max_key n b =
    Some (mkBuilder (rptr_ b) (data_ b)
            ((vresize (thread_size_of rm base max_key n) 0
                <$> take (Z.to_nat (n - 1)) trs)
             ++ (vresize (last_thread_size_of rm base max_key n) 0
                   <$> drop (Z.to_nat (n - 1)) trs))
            base (displacement_of rm base max_key n)).
Proof.
  intros Hn base trs. unfold InitBudget.
  rewrite bool_decide_false by lia.
  fold trs. fold base.
  assert (Hlen : length trs = Z.to_nat n)
    by (unfold trs, vresize; apply length_resize).
  replace (vsize trs - 1) with (Z.of_nat (Z.to_nat (n - 1)))
    by (unfold vsize; lia).
  rewrite foldl_alter_prefix by lia.
  rewrite alter_app_r_alt by (rewrite length_fmap, length_take; lia).
  rewrite length_fmap, length_take.
  replace (Z.to_nat (n - 1) - Z.to_nat (n - 1) `min` length trs)%nat
    with 0%nat by lia.
  destruct (lookup_lt_is_Some_2 trs (Z.to_nat (n - 1))) as [x Hx]; [lia|].
  rewrite (drop_S _ _ _ Hx).
  rewrite drop_ge by lia. simpl.
  unfold thread_size_of, last_thread_size_of, displacement_of, full_size_of.
  by destruct rm.
Qed.

(** On a freshly constructed builder all buffers are zero-filled. *)
Lemma InitBudget_fresh rm max_key n (r : list Z) (d : list V) base :
  1 ≤ n →
  InitBudget rm max_key n (ParallelGroupBuilder r d base) =
    Some (mkBuilder r d
            (replicate (Z.to_nat (n - 1))
               (replicate (Z.to_nat (thread_size_of rm base max_key n)) 0)
             ++ [replicate
                   (Z.to_nat (last_thread_size_of rm base max_key n)) 0])
            base (displacement_of rm base max_key n)).
Proof.
  intros Hn. rewrite InitBudget_eq by done. simpl.
  unfold vresize at 2 4. rewrite resize_nil.
  rewrite take_replicate, drop_replicate, !fmap_replicate.
  unfold vresize. rewrite !resize_nil.
  replace (Z.to_nat (n - 1) `min` Z.to_nat n)%nat
    with (Z.to_nat (n - 1)) by lia.
  replace (Z.to_nat n - Z.to_nat (n - 1))%nat with 1%nat by lia.
  done.
Qed.
End InitBudget_facts.

(** ** Cells of the thread-local buffers *)

Definition cell (trs : list (list Z)) (t j : nat) : option Z :=
  trs !! t ≫= (.!! j).

(** A missing cell counts for nothing. *)
Definition cnt (trs : list (list Z)) (t j : nat) : Z :=
  default 0 (cell trs t j).

Definition shape (trs : list (list Z)) : list nat := length <$> trs.

(** [trs[t][j] += e] *)
Definition bump (trs : list (list Z)) (t j : nat) (e : Z) : list (list Z) :=
  alter (alter (λ c, wadd c e) j) t trs.

Lemma alter_as_insert {A} (f : A → A) (l : list A) i x :
  l !! i = Some x → <[i := f x]> l = alter f i l.
Proof.
  intros Hx. apply list_eq; intros k.
  destruct (decide (i = k)) as [->|Hne].
  - rewrite list_lookup_alter_eq, Hx.
    apply list_lookup_insert_eq. by eapply lookup_lt_Some.
  - by rewrite list_lookup_alter_ne, list_lookup_insert_ne.
Qed.

Lemma vset_bump trs (t j : nat) tr c e :
  trs !! t = Some tr → tr !! j = Some c →
  <[t := <[j := wadd c e]> tr]> trs = bump trs t j e.
Proof.
  intros Ht Hj. unfold bump.
  rewrite <- (alter_as_insert _ _ _ _ Ht). f_equal.
  by apply (alter_as_insert (λ c, wadd c e)).
Qed.

Lemma shape_bump trs t j e : shape (bump trs t j e) = shape trs.
Proof.
  unfold shape, bump. apply list_eq; intros k.
  rewrite !list_lookup_fmap.
  destruct (decide (t = k)) as [->|Hne].
  - rewrite list_lookup_alter_eq. destruct (trs !! k); simpl; [|done].
    by rewrite length_alter.
  - by rewrite list_lookup_alter_ne.
Qed.

Lemma cell_bump trs t j e t' j' :
  cell (bump trs t j e) t' j' =
    if decide (t' = t ∧ j' = j) then (λ c, wadd c e) <$> cell trs t j
    else cell trs t' j'.
Proof.
  unfold cell, bump. case_decide as Hd.
  - destruct Hd as [-> ->]. rewrite list_lookup_alter_eq.
    destruct (trs !! t); simpl; [|done]. by rewrite list_lookup_alter_eq.
  - destruct (decide (t = t')) as [->|Hne].
    + rewrite list_lookup_alter_eq. destruct (trs !! t'); simpl; [|done].
      rewrite list_lookup_alter_ne; [done|]. intros ->. by apply Hd.
    + by rewrite list_lookup_alter_ne.
Qed.

Lemma cell_Some_shape trs t j :
  is_Some (cell trs t j) ↔ ∃ n, shape trs !! t = Some n ∧ (j < n)%nat.
Proof.
  unfold cell, shape. rewrite list_lookup_fmap.
  destruct (trs !! t) as [tr|]; simpl.
  - rewrite lookup_lt_is_Some. split.
    + intros Hj. by exists (length tr).
    + by intros (n & [= <-] & Hj).
  - split; [by intros [? ?]|by intros (n & ? & _)].
Qed.

Lemma cell_shape_eq trs trs' t j :
  shape trs = shape trs' → is_Some (cell trs t j) → is_Some (cell trs' t j).
Proof. intros Hs. rewrite !cell_Some_shape. by rewrite Hs. Qed.

(** Operations addressed to cells: the payloads sent to cell (t, j), in
    call order. *)
Definition at_cell {X} (ops : list (nat * nat * X)) (t j : nat) : list X :=
  omap (λ '(t', j', x), if decide (t' = t ∧ j' = j) then Some x else None) ops.

Definition sumZ (l : list Z) : Z := foldr Z.add 0 l.

Lemma sumZ_app l1 l2 : sumZ (l1 ++ l2) = sumZ l1 + sumZ l2.
Proof. induction l1; simpl; lia. Qed.

Lemma at_cell_cons {X} t' j' (x : X) ops t j :
  at_cell ((t', j', x) :: ops) t j =
    if decide (t' = t ∧ j' = j) then x :: at_cell ops t j else at_cell ops t j.
Proof. unfold at_cell. simpl. by case_decide. Qed.

Lemma at_cell_app {X} (o1 o2 : list (nat * nat * X)) t j :
  at_cell (o1 ++ o2) t j = at_cell o1 t j ++ at_cell o2 t j.
Proof. apply omap_app. Qed.

(** A sequence of in-range bumps adds, cell by cell, the sum of the
    increments sent to that cell. *)
Definition bumps (ops : list (nat * nat * Z)) (trs : list (list Z))
  : list (list Z) :=
  foldl (λ trs '(t, j, e), bump trs t j e) trs ops.

Lemma shape_bumps ops trs : shape (bumps ops trs) = shape trs.
Proof.
  revert trs. induction ops as [|[[t j] e] ops IH]; intros trs; [done|].
  unfold bumps in *. simpl. rewrite IH. apply shape_bump.
Qed.

Lemma cell_bumps ops trs t j :
  (∀ c, cell trs t j = Some c → wrap c = c) →
  cell (bumps ops trs) t j =
    (λ c, wrap (c + sumZ (at_cell ops t j))) <$> cell trs t j.
Proof.
  revert trs. induction ops as [|[[t' j'] e] ops IH]; intros trs Hc.
  - simpl. destruct (cell trs t j) as [c|] eqn:Ec; simpl; [|done].
    f_equal. rewrite Z.add_0_r. symmetry; auto.
  - change (bumps ((t', j', e) :: ops) trs)
      with (bumps ops (bump trs t' j' e)).
    rewrite IH.
    + rewrite cell_bump, at_cell_cons.
      destruct (decide (t = t' ∧ j = j')) as [[-> ->]|Hd].
      * rewrite decide_True by done.
        destruct (cell trs t' j') as [c|]; simpl; [|done].
        f_equal. unfold wadd. rewrite wrap_add_l. f_equal. lia.
      * rewrite decide_False; [done|]. intros [-> ->]. by apply Hd.
    + intros c. rewrite cell_bump. case_decide as Hd; [|by auto].
      destruct (cell trs t' j') as [c0|]; simpl; [|done].
      intros [= <-]. apply wrap_wrap.
Qed.

(** ** Steps 2 and 4 as bumps of cells *)

Definition okey (rm : bool) (base disp key tid : Z) : Z :=
  if rm then wsub (wsub key base) (wmul (wrap tid) disp) else wsub key base.

Lemma okey_range rm base disp key tid :
  0 ≤ okey rm base disp key tid < size_max.
Proof. unfold okey, wsub. destruct rm; apply wrap_range. Qed.

Lemma wrap_le z : 0 ≤ z → wrap z ≤ z.
Proof. intros. apply Z.mod_le; [done|apply size_max_pos]. Qed.

Section Calls.
Context {V : Type}.
Variable dflt : V.
Variable rm : bool.
Implicit Types b : Builder V.

(** The cell addressed by a call. *)
Definition call_cell b (key tid : Z) : nat * nat :=
  (Z.to_nat tid,
   Z.to_nat (okey rm (base_row_offset_ b) (thread_displacement_ b) key tid)).

Definition budget_op b (c : budget_call) : nat * nat * Z :=
  let '(key, tid, nelem) := c in (call_cell b key tid, nelem).

Definition push_op b (c : @push_call V) : nat * nat * V :=
  let '(key, value, tid) := c in (call_cell b key tid, value).

(** A call is in range when its thread exists and its cell lies inside
    the thread's buffer as it stands (no growth). *)
Definition call_ok (trs : list (list Z)) b (key tid : Z) : Prop :=
  0 ≤ tid ∧
  is_Some (cell trs (call_cell b key tid).1 (call_cell b key tid).2).

Lemma AddBudget_bump b key tid nelem :
  call_ok (thread_rptr_ b) b key tid →
  AddBudget rm key tid nelem b =
    Some (set_threads b
            (bump (thread_rptr_ b) (call_cell b key tid).1
                  (call_cell b key tid).2 nelem)).
Proof.
  intros [Ht [c Hc]]. unfold AddBudget, call_cell in *. simpl in *.
  change (offset_key rm b key tid)
    with (okey rm (base_row_offset_ b) (thread_displacement_ b) key tid).
  set (ok := okey rm _ _ key tid) in *.
  pose proof (okey_range rm (base_row_offset_ b) (thread_displacement_ b)
                key tid) as Hok. fold ok in Hok.
  unfold cell in Hc. rewrite (vat_nonneg (thread_rptr_ b)) by done.
  destruct (thread_rptr_ b !! Z.to_nat tid) as [tr|] eqn:Etr; [|done].
  simpl in *.
  assert (Z.to_nat ok < length tr)%nat by (by eapply lookup_lt_Some).
  rewrite bool_decide_false.
  2:{ unfold wadd, vsize. pose proof (wrap_le (ok + 1)). lia. }
  rewrite vat_nonneg by lia. rewrite Hc. simpl.
  unfold vset. by erewrite vset_bump.
Qed.

Lemma AddBudgets_bumps bs b :
  Forall (λ '(key, tid, _), call_ok (thread_rptr_ b) b key tid) bs →
  AddBudgets rm bs b =
    Some (set_threads b (bumps (budget_op b <$> bs) (thread_rptr_ b))).
Proof.
  revert b. induction bs as [|[[key tid] e] bs IH]; intros b Hok.
  - by destruct b.
  - apply Forall_cons in Hok as [Hc Hok].
    unfold AddBudgets in *. simpl.
    rewrite AddBudget_bump by done. simpl.
    rewrite IH.
    + by destruct b.
    + eapply Forall_impl; [exact Hok|].
      intros [[k t] ?] [? Hs]. split; [done|].
      eapply cell_shape_eq; [|exact Hs]. simpl.
      symmetry. apply shape_bump.
Qed.

Lemma Push_bump b key value tid rp :
  0 ≤ tid →
  cell (thread_rptr_ b) (call_cell b key tid).1 (call_cell b key tid).2
    = Some rp →
  0 ≤ rp < vsize (data_ b) →
  Push rm key value tid b =
    Some (mkBuilder (rptr_ b) (<[Z.to_nat rp := value]> (data_ b))
            (bump (thread_rptr_ b) (call_cell b key tid).1
                  (call_cell b key tid).2 1)
            (base_row_offset_ b) (thread_displacement_ b)).
Proof.
  intros Ht Hc Hrp. unfold Push, call_cell in *. simpl in *.
  change (offset_key rm b key tid)
    with (okey rm (base_row_offset_ b) (thread_displacement_ b) key tid).
  set (ok := okey rm _ _ key tid) in *.
  pose proof (okey_range rm (base_row_offset_ b) (thread_displacement_ b)
                key tid) as Hok. fold ok in Hok.
  unfold cell in Hc. rewrite (vat_nonneg (thread_rptr_ b)) by done.
  destruct (thread_rptr_ b !! Z.to_nat tid) as [tr|] eqn:Etr; [|done].
  simpl in *. rewrite vat_nonneg by lia. rewrite Hc. simpl.
  rewrite bool_decide_true by lia.
  unfold vset. by erewrite vset_bump.
Qed.
End Calls.

(** ** Sums indexed by a bound *)

Fixpoint bsum (f : nat → Z) (n : nat) : Z :=
  match n with
  | O => 0
  | S n => bsum f n + f n
  end.

Lemma bsum_ext f g n :
  (∀ i, (i < n)%nat → f i = g i) → bsum f n = bsum g n.
Proof.
  induction n as [|n IH]; intros H; simpl; [done|].
  rewrite IH, H by (intros; auto with lia). done.
Qed.

Lemma bsum_shift f n : bsum f (S n) = f 0%nat + bsum (λ i, f (S i)) n.
Proof.
  induction n as [|n IH]; [simpl; lia|].
  change (bsum f (S (S n))) with (bsum f (S n) + f (S n)).
  rewrite IH. simpl. lia.
Qed.

Lemma bsum_nonneg f n : (∀ i, (i < n)%nat → 0 ≤ f i) → 0 ≤ bsum f n.
Proof.
  induction n as [|n IH]; intros H; simpl; [done|].
  specialize (H n ltac:(lia)) as Hn.
  assert (0 ≤ bsum f n) by (apply IH; intros; apply H; lia). lia.
Qed.

Lemma bsum_mono f n m :
  (∀ i, (i < m)%nat → 0 ≤ f i) → (n ≤ m)%nat → bsum f n ≤ bsum f m.
Proof.
  intros Hf Hnm. induction Hnm as [|m Hnm IH]; [done|].
  simpl. specialize (Hf m ltac:(lia)) as Hm.
  assert (bsum f n ≤ bsum f m) by (apply IH; intros; apply Hf; lia). lia.
Qed.

Lemma bsum_add f n m :
  bsum f (n + m) = bsum f n + bsum (λ i, f (n + i)%nat) m.
Proof.
  induction m as [|m IH]; simpl.
  - rewrite Nat.add_0_r. lia.
  - rewrite Nat.add_succ_r. simpl. rewrite IH. lia.
Qed.

Lemma bsum_zero f n : (∀ i, (i < n)%nat → f i = 0) → bsum f n = 0.
Proof.
  induction n as [|n IH]; intros H; simpl; [done|].
  rewrite IH, H by (intros; auto with lia). done.
Qed.

(** ** Cell-wise maps over the buffers *)

Definition cmap (F : nat → nat → Z → Z) (trs : list (list Z))
  : list (list Z) :=
  imap (λ t tr, imap (F t) tr) trs.

Lemma cell_cmap F trs t j : cell (cmap F trs) t j = F t j <$> cell trs t j.
Proof.
  unfold cell, cmap. rewrite list_lookup_imap.
  destruct (trs !! t) as [tr|]; simpl; [|done].
  apply list_lookup_imap.
Qed.

Lemma shape_cmap F trs : shape (cmap F trs) = shape trs.
Proof.
  unfold shape, cmap. apply list_eq; intros t.
  rewrite !list_lookup_fmap, list_lookup_imap.
  destruct (trs !! t); simpl; [|done]. by rewrite length_imap.
Qed.

Lemma cells_ext (a b : list (list Z)) :
  shape a = shape b → (∀ t j, cell a t j = cell b t j) → a = b.
Proof.
  intros Hs Hc. apply list_eq; intros t.
  pose proof (f_equal (.!! t) Hs) as Ht. unfold shape in Ht.
  rewrite !list_lookup_fmap in Ht.
  specialize (Hc t). unfold cell in Hc.
  destruct (a !! t) as [ra|], (b !! t) as [rb|]; simpl in *; try done.
  f_equal. apply list_eq. exact Hc.
Qed.

Lemma cnt_cmap_id F trs t j :
  (∀ c, F t j c = c) → cnt (cmap F trs) t j = cnt trs t j.
Proof.
  intros H. unfold cnt. rewrite cell_cmap.
  destruct (cell trs t j); simpl; by rewrite ?H.
Qed.

Lemma cmap_ext F G trs :
  (∀ t j c, cell trs t j = Some c → F t j c = G t j c) →
  cmap F trs = cmap G trs.
Proof.
  intros H. apply cells_ext; [by rewrite !shape_cmap|].
  intros t j. rewrite !cell_cmap.
  destruct (cell trs t j) as [c|] eqn:E; simpl; [|done]. f_equal. auto.
Qed.

Lemma cmap_cmap F G trs :
  cmap F (cmap G trs) = cmap (λ t j c, F t j (G t j c)) trs.
Proof.
  apply cells_ext; [by rewrite !shape_cmap|].
  intros t j. rewrite !cell_cmap. by destruct (cell trs t j).
Qed.

Lemma imap_insert_cmap (v : nat → Z) j trs :
  imap (λ t tr, <[j := v t]> tr) trs =
    cmap (λ t j' c, if decide (j' = j) then v t else c) trs.
Proof.
  unfold cmap. apply imap_ext. intros t tr _. simpl.
  apply list_eq; intros k. rewrite list_lookup_imap.
  destruct (decide (k = j)) as [->|Hne].
  - destruct (decide (j < length tr)%nat).
    + rewrite list_lookup_insert_eq by done.
      destruct (lookup_lt_is_Some_2 tr j) as [x ->]; [done|]. simpl.
      repeat case_decide; done.
    + rewrite list_insert_ge by lia.
      by rewrite (lookup_ge_None_2 tr j) by lia.
  - rewrite list_lookup_insert_ne by done.
    destruct (tr !! k); simpl; [|done]. repeat case_decide; done.
Qed.

Lemma length_shape trs : length (shape trs) = length trs.
Proof. apply length_fmap. Qed.

Lemma shape_length_eq a b : shape a = shape b → length a = length b.
Proof. intros H. by rewrite <- !length_shape, H. Qed.

Lemma shape_lookup_length a b t ra rb :
  shape a = shape b → a !! t = Some ra → b !! t = Some rb →
  length ra = length rb.
Proof.
  intros Hs Ha Hb. pose proof (f_equal (.!! t) Hs) as Ht. unfold shape in Ht.
  rewrite !list_lookup_fmap, Ha, Hb in Ht. by injection Ht.
Qed.

(** ** Traversal facts *)

Lemma foldlM_app {S A} (f : S → A → option S) s l1 l2 :
  foldlM f s (l1 ++ l2) = foldlM f s l1 ≫= λ s1, foldlM f s1 l2.
Proof.
  revert s. induction l1 as [|a l1 IH]; intros s; simpl; [done|].
  destruct (f s a); simpl; [apply IH|done].
Qed.

Lemma mapAccumL_app {S A B} (f : S → A → S * B) s l1 l2 :
  mapAccumL f s (l1 ++ l2) =
    let '(s1, b1) := mapAccumL f s l1 in
    let '(s2, b2) := mapAccumL f s1 l2 in
    (s2, b1 ++ b2).
Proof.
  revert s. induction l1 as [|a l1 IH]; intros s; simpl.
  - by destruct (mapAccumL f s l2).
  - destruct (f s a) as [s1 b]. rewrite IH.
    destruct (mapAccumL f s1 l1) as [s2 bs].
    by destruct (mapAccumL f s2 l2).
Qed.

Lemma mapAccumL_length {S A B} (f : S → A → S * B) s l :
  length (mapAccumL f s l).2 = length l.
Proof.
  revert s. induction l as [|a l IH]; intros s; simpl; [done|].
  destruct (f s a) as [s1 b]. specialize (IH s1).
  destruct (mapAccumL f s1 l). simpl in *. by rewrite IH.
Qed.

(** ** Step 3, general branch: closed form *)

(** Contributions to row [j] of the threads before [t]; of all threads;
    and the total of the rows before [j]. *)
Definition col_before (trs : list (list Z)) (t j : nat) : Z :=
  bsum (λ t', cnt trs t' j) t.

Definition row_total (trs : list (list Z)) (j : nat) : Z :=
  col_before trs (length trs) j.

Definition rows_before (trs : list (list Z)) (j : nat) : Z :=
  bsum (row_total trs) j.

Lemma col_before_cons a l t j :
  col_before (a :: l) (S t) j = default 0 (a !! j) + col_before l t j.
Proof. unfold col_before. by rewrite bsum_shift. Qed.

Lemma row_total_cons a l j :
  row_total (a :: l) j = default 0 (a !! j) + row_total l j.
Proof. apply col_before_cons. Qed.

Lemma gen_cell_eq base i bk C tr :
  0 ≤ base ≤ i → i < size_max → vsize tr + base < size_max →
  gen_cell base i bk (wrap C) tr =
    Some (wrap (C + default 0 (tr !! Z.to_nat (i - base))),
          <[Z.to_nat (i - base) := wrap (C + bk)]> tr).
Proof.
  intros Hb Hi Hs. unfold gen_cell, wadd, wsub.
  pose proof (vsize_nonneg tr).
  rewrite (wrap_small (vsize tr + base)) by lia.
  rewrite (wrap_small (i - base)) by lia.
  case_bool_decide as Hlt.
  - destruct (lookup_lt_is_Some_2 tr (Z.to_nat (i - base))) as [c Hc];
      [unfold vsize in *; lia|].
    rewrite vat_nonneg by lia. rewrite Hc. simpl.
    by rewrite !wrap_add_l.
  - rewrite lookup_ge_None_2 by (unfold vsize in *; lia). simpl.
    rewrite list_insert_ge by (unfold vsize in *; lia).
    by rewrite Z.add_0_r.
Qed.

Lemma gen_inner base i bk trs C :
  0 ≤ base ≤ i → i < size_max →
  Forall (λ tr, vsize tr + base < size_max) trs →
  let j := Z.to_nat (i - base) in
  mapAccumM (gen_cell base i bk) (wrap C) trs =
    Some (wrap (C + row_total trs j),
          imap (λ t tr, <[j := wrap (C + col_before trs t j + bk)]> tr) trs).
Proof.
  intros Hb Hi Hs j. revert C.
  induction Hs as [|a l Ha Hl IH]; intros C.
  - simpl. unfold row_total, col_before. simpl. by rewrite Z.add_0_r.
  - simpl. rewrite gen_cell_eq by done. simpl.
    rewrite IH. simpl. fold j. rewrite row_total_cons.
    f_equal. f_equal; [f_equal; lia|]. f_equal.
    + unfold col_before. simpl. by rewrite Z.add_0_r.
    + apply imap_ext. intros t tr _. simpl.
      rewrite col_before_cons. do 2 f_equal. lia.
Qed.

Section GenOuter.
Variables (base : nat) (bk : Z) (trs : list (list Z)) (rptr : list Z).

Definition gen_cursor (m : nat) (t j : nat) (c : Z) : Z :=
  if decide (j < m)%nat
  then wrap (rows_before trs j + col_before trs t j + bk) else c.

Definition gen_offset (m : nat) (k : nat) (x : Z) : Z :=
  if decide (base < k ≤ base + m)%nat
  then wrap (x + rows_before trs (k - base)) else x.

Hypothesis Hrows : Forall (λ tr, vsize tr + Z.of_nat base < size_max) trs.
Hypothesis Hsize : vsize rptr < size_max.

Lemma gen_outer (m : nat) :
  (m = 0%nat ∨ (base + m + 1 ≤ length rptr)%nat ∧ last rptr = Some bk) →
  foldlM (gen_row (Z.of_nat base)) (0, trs, rptr)
         (seqZ (Z.of_nat base) (Z.of_nat m)) =
    Some (wrap (rows_before trs m), cmap (gen_cursor m) trs,
          imap (gen_offset m) rptr).
Proof.
  induction m as [|m IH]; intros Hm.
  - simpl. f_equal. f_equal; [f_equal|].
    + apply cells_ext; [by rewrite shape_cmap|].
      intros t j. rewrite cell_cmap. unfold gen_cursor.
      destruct (cell trs t j); simpl; [|done].
      repeat case_decide; try lia; done.
    + apply list_eq; intros k. rewrite list_lookup_imap.
      unfold gen_offset. destruct (rptr !! k); simpl; [|done].
      repeat case_decide; try lia; done.
  - destruct Hm as [?|[Hlen Hbk]]; [lia|].
    rewrite seqZ_S, foldlM_app, IH by (right; split; [lia|done]).
    simpl.
    assert (Hback : vback (imap (gen_offset m) rptr) = Some bk).
    { unfold vback. rewrite last_lookup, list_lookup_imap, length_imap.
      rewrite <- last_lookup, Hbk. simpl. unfold gen_offset.
      by rewrite decide_False by lia. }
    rewrite Hback. simpl.
    rewrite gen_inner.
    2:{ lia. }
    2:{ unfold vsize in Hsize. lia. }
    2:{ apply Forall_forall. intros tr Htr.
        apply list_elem_of_lookup in Htr as [t Ht].
        unfold cmap in Ht. rewrite list_lookup_imap in Ht.
        destruct (trs !! t) as [tr0|] eqn:E; [|done]. simpl in Ht.
        injection Ht as <-. unfold vsize. rewrite length_imap.
        eapply (Forall_lookup_1 _ _ _ _ Hrows E). }
    simpl.
    replace (Z.to_nat (Z.of_nat base + Z.of_nat m - Z.of_nat base))
      with m by lia.
    assert (Hrt : row_total (cmap (gen_cursor m) trs) m = row_total trs m).
    { unfold row_total, col_before.
      rewrite (shape_length_eq _ _ (shape_cmap _ _)).
      apply bsum_ext. intros t _. apply cnt_cmap_id. intros c.
      unfold gen_cursor. by rewrite decide_False by lia. }
    rewrite Hrt. f_equal. f_equal; [f_equal|].
    + rewrite imap_insert_cmap, cmap_cmap. apply cmap_ext.
      intros t j c _.
      assert (col_before (cmap (gen_cursor m) trs) t m = col_before trs t m)
        as ->.
      { unfold col_before. apply bsum_ext. intros t' _.
        apply cnt_cmap_id. intros c'.
        unfold gen_cursor. by rewrite decide_False by lia. }
      unfold gen_cursor. repeat case_decide; try lia; subst; done.
    + unfold wadd.
      rewrite (wrap_small (Z.of_nat base + Z.of_nat m + 1))
        by (unfold vsize in Hsize; lia).
      replace (Z.to_nat (Z.of_nat base + Z.of_nat m + 1))
        with (base + m + 1)%nat by lia.
      apply list_eq; intros k. rewrite list_lookup_imap.
      destruct (decide (k = base + m + 1)%nat) as [->|Hne].
      * rewrite list_lookup_alter_eq, list_lookup_imap.
        destruct (rptr !! (base + m + 1)%nat) as [x|]; [|done]. simpl.
        f_equal. unfold gen_offset.
        rewrite decide_False by lia. rewrite decide_True by lia.
        rewrite wrap_add_r.
        replace (base + m + 1 - base)%nat with (S m) by lia.
        simpl; try done; f_equal; lia.
      * rewrite list_lookup_alter_ne by done. rewrite list_lookup_imap.
        destruct (rptr !! k) as [x|]; [|done]. simpl.
        f_equal. unfold gen_offset.
        destruct (decide (base < k ≤ base + m)%nat).
        -- by rewrite decide_True by lia.
        -- by rewrite decide_False by lia.
Qed.
End GenOuter.

(** The loop that brings [rptr_] to its final size. *)
Definition grow_rptr (base fill : Z) (rptr : list Z) (trs : list (list Z))
  : list Z :=
  foldl (λ rptr trptr,
           if bool_decide (vsize rptr ≤ wadd (vsize trptr) base)
           then vresize (wadd (wadd (vsize trptr) base) 1) fill rptr
           else rptr)
        rptr trs.

Definition rows_needed (base : nat) (trs : list (list Z)) : nat :=
  max_list ((λ tr, length tr + base + 1)%nat <$> trs).

Lemma resize_resize_ge {A} (l : list A) n m x :
  (length l ≤ m ≤ n)%nat → resize n x (resize m x l) = resize n x l.
Proof.
  intros H. rewrite (resize_ge l m), (resize_ge l n) by lia.
  rewrite resize_ge by (rewrite length_app, length_replicate; lia).
  rewrite length_app, length_replicate, <- (assoc_L (++)).
  rewrite <- replicate_add. do 2 f_equal. lia.
Qed.

Lemma rows_needed_cons base tr trs :
  rows_needed base (tr :: trs) =
    ((length tr + base + 1) `max` rows_needed base trs)%nat.
Proof. done. Qed.

Lemma grow_rptr_cons base fill rptr tr trs :
  grow_rptr base fill rptr (tr :: trs) =
    grow_rptr base fill
      (if bool_decide (vsize rptr ≤ wadd (vsize tr) base)
       then vresize (wadd (wadd (vsize tr) base) 1) fill rptr else rptr) trs.
Proof. done. Qed.

Lemma grow_rptr_eq (base : nat) fill rptr trs :
  Z.of_nat (rows_needed base trs) < size_max →
  grow_rptr (Z.of_nat base) fill rptr trs =
    resize (length rptr `max` rows_needed base trs) fill rptr.
Proof.
  revert rptr. induction trs as [|tr trs IH]; intros rptr Hb.
  - simpl. unfold rows_needed. simpl.
    by rewrite Nat.max_0_r, resize_all.
  - rewrite rows_needed_cons in *. rewrite grow_rptr_cons.
    unfold wadd, vsize.
    rewrite (wrap_small (Z.of_nat (length tr) + Z.of_nat base)) by lia.
    rewrite (wrap_small (Z.of_nat (length tr) + Z.of_nat base + 1)) by lia.
    case_bool_decide as Hle.
    + rewrite IH by lia. unfold vresize.
      rewrite length_resize.
      replace (Z.to_nat (Z.of_nat (length tr) + Z.of_nat base + 1))
        with (length tr + base + 1)%nat by lia.
      rewrite resize_resize_ge by lia. f_equal. lia.
    + rewrite IH by lia. f_equal. lia.
Qed.

Lemma last_resize_fill (rptr : list Z) n :
  (length rptr ≤ n)%nat → (0 < n)%nat →
  last (resize n (rptr_fill rptr) rptr) = Some (rptr_fill rptr).
Proof.
  intros Hn Hpos. rewrite resize_ge by done.
  destruct (decide (n = length rptr)) as [->|Hne].
  - rewrite Nat.sub_diag. simpl. rewrite app_nil_r.
    unfold rptr_fill, vback.
    destruct (last rptr) eqn:E; [done|].
    apply last_None in E. subst. simpl in *. lia.
  - replace (n - length rptr)%nat with (S (n - length rptr - 1)) by lia.
    rewrite replicate_S_end, (assoc_L (++)). apply last_snoc.
Qed.

Lemma seqZ_to_nat m n : seqZ m n = seqZ m (Z.of_nat (Z.to_nat n)).
Proof. unfold seqZ. by rewrite Nat2Z.id. Qed.

Section InitStorage_general.
Context {V : Type}.
Variable dflt : V.
Variable b : Builder V.

Let base := Z.to_nat (base_row_offset_ b).
Let trs := thread_rptr_ b.
Let fill := rptr_fill (rptr_ b).
Let N := (length (rptr_ b) `max` rows_needed base trs)%nat.
Let m := (N - 1 - base)%nat.

Definition general_rptr : list Z :=
  imap (gen_offset base trs m) (resize N fill (rptr_ b)).

Definition general_cursors : list (list Z) :=
  cmap (gen_cursor fill trs m) trs.

Lemma InitStorage_general :
  0 ≤ base_row_offset_ b → (0 < N)%nat → Z.of_nat N < size_max →
  InitStorage dflt false b =
    Some (mkBuilder general_rptr
            (vresize (default 0 (last general_rptr)) dflt (data_ b))
            general_cursors
            (base_row_offset_ b) (thread_displacement_ b)).
Proof.
  intros Hbase HN Hmax. unfold InitStorage.
  change (foldl _ (rptr_ b) (thread_rptr_ b))
    with (grow_rptr (base_row_offset_ b) fill (rptr_ b) trs).
  replace (base_row_offset_ b) with (Z.of_nat base) by (unfold base; lia).
  rewrite grow_rptr_eq by (unfold N in Hmax; lia).
  fold N. rewrite seqZ_to_nat.
  replace (Z.to_nat (vsize (resize N fill (rptr_ b)) - 1 - Z.of_nat base))
    with m by (unfold vsize; rewrite length_resize; unfold m; lia).
  rewrite (gen_outer base fill).
  - simpl. unfold general_rptr, general_cursors, vback, trs.
    destruct (last (imap _ _)) eqn:E; [done|].
    apply last_None in E. apply (f_equal length) in E.
    rewrite length_imap, length_resize in E.
    simpl in E. lia.
  - apply Forall_forall. intros tr Htr.
    assert (length tr + base + 1 ≤ rows_needed base trs)%nat.
    { apply max_list_elem_of_le. apply list_elem_of_fmap.
      by exists tr. }
    unfold vsize. unfold N in Hmax. lia.
  - unfold vsize. by rewrite length_resize.
  - destruct (decide (m = 0%nat)) as [?|Hm]; [by left|right].
    rewrite length_resize. split; [unfold m in *; lia|].
    apply last_resize_fill; unfold N; lia.
Qed.
End InitStorage_general.

Lemma InitStorage_general_length {V} (dflt : V) (b : Builder V) :
  0 ≤ base_row_offset_ b →
  (0 < length (rptr_ b)
       `max` rows_needed (Z.to_nat (base_row_offset_ b)) (thread_rptr_ b))%nat →
  Z.of_nat (length (rptr_ b)
            `max` rows_needed (Z.to_nat (base_row_offset_ b)) (thread_rptr_ b))
    < size_max →
  ∃ b3, InitStorage dflt false b = Some b3 ∧
        length (rptr_ b3)
        = (length (rptr_ b)
           `max` rows_needed (Z.to_nat (base_row_offset_ b)) (thread_rptr_ b))%nat.
Proof.
  intros H1 H2 H3. rewrite InitStorage_general by done.
  eexists. split; [done|]. cbn [rptr_].
  unfold general_rptr. by rewrite length_imap, length_resize.
Qed.

(** ** Step 3, row-major branch: closed form *)

(** Running sums of a list of counts: before each element, and after it. *)
Fixpoint esums (C : Z) (l : list Z) : list Z :=
  match l with
  | [] => []
  | a :: l => C :: esums (C + a) l
  end.

Fixpoint psums (C : Z) (l : list Z) : list Z :=
  match l with
  | [] => []
  | a :: l => (C + a) :: psums (C + a) l
  end.

Lemma length_esums C l : length (esums C l) = length l.
Proof. revert C. induction l; intros; simpl; auto. Qed.

Lemma length_psums C l : length (psums C l) = length l.
Proof. revert C. induction l; intros; simpl; auto. Qed.

Lemma lookup_esums C l i :
  (i < length l)%nat → esums C l !! i = Some (C + sumZ (take i l)).
Proof.
  revert C i. induction l as [|a l IH]; intros C i Hi; simpl in *; [lia|].
  destruct i as [|i]; simpl.
  - f_equal. lia.
  - rewrite IH by lia. f_equal. lia.
Qed.

Lemma lookup_psums C l i :
  (i < length l)%nat → psums C l !! i = Some (C + sumZ (take (S i) l)).
Proof.
  revert C i. induction l as [|a l IH]; intros C i Hi; simpl in *; [lia|].
  destruct i as [|i]; simpl.
  - rewrite ?take_0. simpl. f_equal. lia.
  - rewrite IH by lia. simpl. f_equal. lia.
Qed.

Lemma rm_scan fill flat : ∀ C pre mid post,
  length mid = length flat →
  Z.of_nat (length pre + length flat) < size_max →
  mapAccumL (rm_cell fill)
            (mkScan (wrap C) (Z.of_nat (length pre)) (pre ++ mid ++ post)) flat
  = (mkScan (wrap (C + sumZ flat)) (Z.of_nat (length pre + length flat))
            (pre ++ zip_with (λ x s, wrap (x + s)) mid (psums C flat) ++ post),
     (λ s, wrap (s + fill)) <$> esums C flat).
Proof.
  induction flat as [|a l IH]; intros C pre mid post Hmid Hmax.
  - destruct mid; [|done]. simpl. by rewrite Z.add_0_r, Nat.add_0_r.
  - destruct mid as [|x mid]; [done|]. simpl in *.
    unfold rm_cell at 1. simpl.
    rewrite bool_decide_true.
    2:{ unfold vsize. rewrite length_app. simpl. lia. }
    unfold wadd. rewrite !wrap_add_l.
    rewrite (wrap_small (Z.of_nat (length pre) + 1)) by lia.
    rewrite Nat2Z.id.
    rewrite alter_app_r_alt by lia. rewrite Nat.sub_diag. simpl.
    rewrite wrap_add_r.
    specialize (IH (C + a) (pre ++ [wrap (x + (C + a))]) mid post).
    rewrite length_app in IH. simpl in IH.
    replace (Z.of_nat (length pre) + 1)
      with (Z.of_nat (length pre + 1)) by lia.
    rewrite <- (assoc_L (++)) in IH. simpl in IH.
    rewrite IH by lia.
    rewrite <- (assoc_L (++)). simpl.
    do 2 f_equal; [f_equal; lia|lia].
Qed.

Lemma mapAccumL_nested {S A B} (f : S → A → S * B) s (ls : list (list A)) :
  mapAccumL f s (mjoin ls) =
    ((mapAccumL (λ s l, mapAccumL f s l) s ls).1,
     mjoin (mapAccumL (λ s l, mapAccumL f s l) s ls).2)
  ∧ length <$> (mapAccumL (λ s l, mapAccumL f s l) s ls).2 = length <$> ls.
Proof.
  revert s. induction ls as [|l ls IH]; intros s; [done|].
  simpl. rewrite mapAccumL_app.
  pose proof (mapAccumL_length f s l) as Hl.
  destruct (mapAccumL f s l) as [s1 b1]. simpl in Hl.
  destruct (IH s1) as [IH1 IH2]. rewrite IH1.
  destruct (mapAccumL _ s1 ls) as [s2 b2]. simpl in *.
  split; [done|]. by f_equal.
Qed.

Lemma expected_rows_eq (trs : list (list Z)) C :
  foldl (λ acc trptr, wadd acc (vsize trptr)) (wrap C) trs
  = wrap (C + Z.of_nat (length (mjoin trs))).
Proof.
  revert C. induction trs as [|tr trs IH]; intros C; simpl.
  - by rewrite Z.add_0_r.
  - unfold wadd at 2. rewrite wrap_add_l, IH. f_equal.
    rewrite length_app. unfold vsize. lia.
Qed.

Lemma reshape_shape (ls : list (list Z)) : reshape (shape ls) (mjoin ls) = ls.
Proof.
  induction ls as [|l ls IH]; [done|]. simpl.
  by rewrite take_app_length, drop_app_length, IH.
Qed.

Lemma reshape_of_shape (sh : list nat) (ls : list (list Z)) :
  shape ls = sh → reshape sh (mjoin ls) = ls.
Proof. intros <-. apply reshape_shape. Qed.

Section InitStorage_row_major.
Context {V : Type}.
Variable dflt : V.
Variable b : Builder V.

Let base := Z.to_nat (base_row_offset_ b).
Let trs := thread_rptr_ b.
Let fill := rptr_fill (rptr_ b).
Let flat := mjoin trs.

Definition row_major_rptr : list Z :=
  resize (base + 1) fill (rptr_ b)
  ++ ((λ s, wrap (fill + s)) <$> psums 0 flat).

Definition row_major_cursors : list (list Z) :=
  reshape (shape trs) ((λ s, wrap (s + fill)) <$> esums 0 flat).

Lemma InitStorage_row_major :
  0 ≤ base_row_offset_ b →
  (length (rptr_ b) ≤ base + 1)%nat →
  Z.of_nat (base + 1 + length flat) < size_max →
  InitStorage dflt true b =
    Some (mkBuilder row_major_rptr
            (vresize (default 0 (last row_major_rptr)) dflt (data_ b))
            row_major_cursors
            (base_row_offset_ b) (thread_displacement_ b)).
Proof.
  intros Hbase Hlen Hmax. unfold InitStorage.
  pose proof (expected_rows_eq (thread_rptr_ b) 0) as He.
  change (wrap 0) with 0 in He. rewrite He. clear He.
  fold trs flat fill. unfold wadd.
  rewrite (wrap_small (0 + _)) by lia.
  rewrite (wrap_small (0 + _ + _)) by lia.
  rewrite (wrap_small (0 + _ + _ + 1)) by lia.
  rewrite (wrap_small (base_row_offset_ b + 1)) by lia.
  unfold vresize.
  replace (Z.to_nat (0 + Z.of_nat (length flat) + base_row_offset_ b + 1))
    with ((base + 1) + length flat)%nat by (unfold base; lia).
  rewrite resize_add, (drop_ge (rptr_ b)) by lia.
  rewrite resize_nil.
  destruct (mapAccumL_nested (rm_cell fill)
              (mkScan 0 (base_row_offset_ b + 1)
                 (resize (base + 1) fill (rptr_ b)
                  ++ replicate (length flat) fill)) trs) as [Hflat Hshape].
  change (mapAccumL (rm_thread fill)) with
    (mapAccumL (λ s l, mapAccumL (rm_cell fill) s l)).
  destruct (mapAccumL (λ s l, mapAccumL (rm_cell fill) s l) _ trs)
    as [st trs'] eqn:E.
  simpl in Hflat, Hshape. fold flat in Hflat.
  pose proof (rm_scan fill flat 0 (resize (base + 1) fill (rptr_ b))
                (replicate (length flat) fill) []) as Hscan.
  rewrite length_resize, app_nil_r in Hscan.
  replace (Z.of_nat (base + 1)) with (base_row_offset_ b + 1) in Hscan
    by (unfold base; lia).
  change (wrap 0) with 0 in Hscan.
  rewrite Hscan in Hflat by (rewrite ?length_replicate; lia).
  injection Hflat as Hst Htrs. subst st. simpl.
  assert (Hr : resize (base + 1) fill (rptr_ b)
               ++ zip_with (λ x s, wrap (x + s))
                    (replicate (length flat) fill) (psums 0 flat) ++ []
               = row_major_rptr).
  { unfold row_major_rptr. rewrite app_nil_r. f_equal. fold flat.
    apply list_eq; intros i.
    rewrite lookup_zip_with, list_lookup_fmap.
    destruct (decide (i < length flat)%nat).
    - rewrite lookup_replicate_2 by done. simpl.
      by destruct (psums 0 flat !! i).
    - rewrite (lookup_ge_None_2 (psums 0 flat))
        by (rewrite length_psums; lia).
      by destruct (replicate _ _ !! i). }
  rewrite Hr.
  assert (Hc : trs' = row_major_cursors).
  { unfold row_major_cursors. fold flat. rewrite Htrs.
    symmetry. apply reshape_of_shape. exact Hshape. }
  rewrite Hc. unfold vback.
  destruct (last row_major_rptr) eqn:El; [done|].
  apply last_None in El. apply (f_equal length) in El.
  unfold row_major_rptr in El. rewrite length_app, length_resize in El.
  simpl in El. lia.
Qed.
End InitStorage_row_major.

Lemma InitStorage_row_major_length {V} (dflt : V) (b : Builder V) :
  0 ≤ base_row_offset_ b →
  (length (rptr_ b) ≤ Z.to_nat (base_row_offset_ b) + 1)%nat →
  Z.of_nat (Z.to_nat (base_row_offset_ b) + 1 + length (mjoin (thread_rptr_ b)))
    < size_max →
  ∃ b3, InitStorage dflt true b = Some b3 ∧
        length (rptr_ b3)
        = (Z.to_nat (base_row_offset_ b) + 1
           + length (mjoin (thread_rptr_ b)))%nat.
Proof.
  intros H1 H2 H3. rewrite InitStorage_row_major by done.
  eexists. split; [done|]. cbn [rptr_].
  unfold row_major_rptr.
  by rewrite length_app, length_resize, length_fmap, length_psums.
Qed.

(** ** Step 4 over a layout of disjoint regions *)

Definition valid_cell (sh : list nat) (t j : nat) : Prop :=
  ∃ n, sh !! t = Some n ∧ (j < n)%nat.

Lemma valid_cell_cell trs t j :
  valid_cell (shape trs) t j ↔ is_Some (cell trs t j).
Proof. symmetry. apply cell_Some_shape. Qed.

Section PushPhase.
Context {V : Type}.

(** Cell (t, j) owns the slots [s t j, s t j + b t j) of the data array;
    the regions are pairwise disjoint and lie in [fill, fill + total). *)
Variables (s b : nat → nat → Z) (sh : list nat) (fill total : Z).
Variable data0 : list V.

Record layout : Prop := {
  lay_disj : ∀ t1 j1 t2 j2,
    valid_cell sh t1 j1 → valid_cell sh t2 j2 → (t1, j1) ≠ (t2, j2) →
    s t1 j1 + b t1 j1 ≤ s t2 j2 ∨ s t2 j2 + b t2 j2 ≤ s t1 j1;
  lay_bound : ∀ t j, valid_cell sh t j →
    fill ≤ s t j ∧ 0 ≤ b t j ∧ s t j + b t j ≤ fill + total;
  lay_max : 0 ≤ fill ∧ fill + total < size_max;
}.

Definition pushed (done : list (nat * nat * V)) (t j : nat) : Z :=
  Z.of_nat (length (at_cell done t j)).

(** The state after the pushes [done]; [tr] lists the slots written. *)
Record push_inv (done : list (nat * nat * V)) (trs : list (list Z))
    (data : list V) (tr : list Z) : Prop := {
  pi_shape : shape trs = sh;
  pi_length : Z.of_nat (length data) = fill + total;
  pi_budget : ∀ t j, valid_cell sh t j → pushed done t j ≤ b t j;
  pi_cursor : ∀ t j, valid_cell sh t j →
    cell trs t j = Some (s t j + pushed done t j);
  pi_data : ∀ t j i x, valid_cell sh t j →
    at_cell done t j !! i = Some x →
    data !! Z.to_nat (s t j + Z.of_nat i) = Some x;
  pi_frame : ∀ i, (Z.of_nat i < fill) → data !! i = data0 !! i;
  pi_trace : ∀ x, x ∈ tr ↔
    ∃ t j i, valid_cell sh t j ∧ 0 ≤ i < pushed done t j ∧ x = s t j + i;
  pi_nodup : NoDup tr;
}.

Hypothesis Hlay : layout.

Lemma push_inv_init trs :
  shape trs = sh → Z.of_nat (length data0) = fill + total →
  (∀ t j, valid_cell sh t j → cell trs t j = Some (s t j)) →
  push_inv [] trs data0 [].
Proof.
  intros Hs Hl Hc. split; try done.
  - intros t j Hv. unfold pushed. simpl.
    by destruct (lay_bound Hlay t j Hv) as (? & ? & ?).
  - intros t j Hv. unfold pushed. simpl. rewrite Z.add_0_r. auto.
  - intros x. split; [by intros ?%elem_of_nil|].
    intros (t & j & i & _ & Hi & _). unfold pushed in Hi. simpl in Hi. lia.
  - constructor.
Qed.

Lemma pushed_snoc_same done t j v :
  pushed (done ++ [(t, j, v)]) t j = pushed done t j + 1.
Proof.
  unfold pushed. rewrite at_cell_app, length_app, at_cell_cons.
  rewrite decide_True by done. simpl. lia.
Qed.

Lemma at_cell_snoc_other (done : list (nat * nat * V)) t j v t' j' :
  (t', j') ≠ (t, j) →
  at_cell (done ++ [(t, j, v)]) t' j' = at_cell done t' j'.
Proof.
  intros Hne. rewrite at_cell_app, at_cell_cons.
  rewrite decide_False by (intros [-> ->]; done).
  apply app_nil_r.
Qed.

Lemma push_inv_step done trs data tr t j v :
  push_inv done trs data tr →
  valid_cell sh t j → pushed done t j < b t j →
  let rp := s t j + pushed done t j in
  cell trs t j = Some rp ∧ 0 ≤ rp < Z.of_nat (length data) ∧
  push_inv (done ++ [(t, j, v)]) (bump trs t j 1)
           (<[Z.to_nat rp := v]> data) (tr ++ [rp]).
Proof.
  intros Hinv Hv Hlt rp.
  destruct (lay_bound Hlay t j Hv) as (Hs1 & Hb1 & Hs2).
  destruct (lay_max Hlay) as [Hf Hmax].
  assert (Hp0 : 0 ≤ pushed done t j) by (unfold pushed; lia).
  assert (Hrp : 0 ≤ rp < Z.of_nat (length data)).
  { rewrite (pi_length _ _ _ _ Hinv). unfold rp. lia. }
  split; [by apply (pi_cursor _ _ _ _ Hinv)|]. split; [done|].
  assert (Hother : ∀ t' j' i, valid_cell sh t' j' →
            0 ≤ i < pushed done t' j' → s t' j' + i ≠ rp).
  { intros t' j' i Hv' Hi Heq.
    destruct (decide ((t', j') = (t, j))) as [[= -> ->]|Hne].
    - unfold rp in Heq. lia.
    - pose proof (pi_budget _ _ _ _ Hinv t' j' Hv').
      destruct (lay_disj Hlay t' j' t j Hv' Hv Hne); unfold rp in *; lia. }
  split.
  - rewrite shape_bump. apply (pi_shape _ _ _ _ Hinv).
  - rewrite length_insert. apply (pi_length _ _ _ _ Hinv).
  - intros t' j' Hv'.
    destruct (decide ((t', j') = (t, j))) as [[= -> ->]|Hne].
    + rewrite pushed_snoc_same. lia.
    + unfold pushed. rewrite at_cell_snoc_other by done.
      apply (pi_budget _ _ _ _ Hinv t' j' Hv').
  - intros t' j' Hv'. rewrite cell_bump.
    destruct (decide ((t', j') = (t, j))) as [[= -> ->]|Hne].
    + rewrite decide_True by done.
      rewrite (pi_cursor _ _ _ _ Hinv t j Hv). simpl.
      rewrite pushed_snoc_same. unfold wadd.
      rewrite wrap_small by lia. f_equal. lia.
    + rewrite decide_False by (intros [-> ->]; done).
      unfold pushed. rewrite at_cell_snoc_other by done.
      apply (pi_cursor _ _ _ _ Hinv t' j' Hv').
  - intros t' j' i x Hv' Hx.
    destruct (decide ((t', j') = (t, j))) as [[= -> ->]|Hne].
    + rewrite at_cell_app, at_cell_cons, decide_True in Hx by done.
      destruct (decide (i < length (at_cell done t j))%nat) as [Hi|Hi].
      * rewrite lookup_app_l in Hx by done.
        rewrite list_lookup_insert_ne.
        -- by apply (pi_data _ _ _ _ Hinv).
        -- unfold rp, pushed. lia.
      * rewrite lookup_app_r in Hx by lia.
        destruct (i - length (at_cell done t j))%nat as [|k] eqn:Ek;
          [|done].
        simpl in Hx. injection Hx as <-.
        replace (s t j + Z.of_nat i) with rp by (unfold rp, pushed; lia).
        apply list_lookup_insert_eq. lia.
    + rewrite at_cell_snoc_other in Hx by done.
      rewrite list_lookup_insert_ne.
      * by apply (pi_data _ _ _ _ Hinv).
      * apply lookup_lt_Some in Hx.
        pose proof (Hother t' j' (Z.of_nat i) Hv'
                      ltac:(unfold pushed; lia)).
        pose proof (lay_bound Hlay t' j' Hv') as (? & ? & ?).
        lia.
  - intros i Hi. rewrite list_lookup_insert_ne by (unfold rp; lia).
    by apply (pi_frame _ _ _ _ Hinv).
  - intros x. rewrite elem_of_app, list_elem_of_singleton.
    rewrite (pi_trace _ _ _ _ Hinv). split.
    + intros [(t' & j' & i & Hv' & Hi & ->)| ->].
      * exists t', j', i. split; [done|]. split; [|done].
        destruct (decide ((t', j') = (t, j))) as [[= -> ->]|Hne].
        -- rewrite pushed_snoc_same. lia.
        -- unfold pushed in *. by rewrite at_cell_snoc_other.
      * exists t, j, (pushed done t j). split; [done|].
        rewrite pushed_snoc_same. split; [lia|done].
    + intros (t' & j' & i & Hv' & Hi & ->).
      destruct (decide ((t', j') = (t, j))) as [[= -> ->]|Hne].
      * rewrite pushed_snoc_same in Hi.
        destruct (decide (i = pushed done t j)) as [->|]; [by right|].
        left. exists t, j, i. split; [done|]. split; [lia|done].
      * left. exists t', j', i. split; [done|]. split; [|done].
        unfold pushed in *. by rewrite at_cell_snoc_other in Hi.
  - apply NoDup_app. split; [apply (pi_nodup _ _ _ _ Hinv)|].
    split; [|apply NoDup_singleton].
    intros x Hx ->%list_elem_of_singleton.
    apply (pi_trace _ _ _ _ Hinv) in Hx as (t' & j' & i & Hv' & Hi & Heq).
    by eapply Hother.
Qed.
End PushPhase.

(** ** The layouts computed by step 3 *)

Definition counts_ok (trs : list (list Z)) : Prop :=
  ∀ t j c, cell trs t j = Some c → 0 ≤ c.

Lemma cnt_nonneg trs t j : counts_ok trs → 0 ≤ cnt trs t j.
Proof.
  intros H. unfold cnt. destruct (cell trs t j) as [c|] eqn:E; simpl; [|done].
  by eapply H.
Qed.

Lemma cnt_valid trs t j c : cell trs t j = Some c → cnt trs t j = c.
Proof. unfold cnt. by intros ->. Qed.

Lemma valid_cell_thread trs t j :
  valid_cell (shape trs) t j → (t < length trs)%nat.
Proof.
  intros (n & Hn & _). apply lookup_lt_Some in Hn.
  by rewrite length_shape in Hn.
Qed.

Section SharedLayout.
Variables (trs : list (list Z)) (fill : Z) (W : nat).
Hypothesis Hcnt : counts_ok trs.
Hypothesis HW : ∀ t j, valid_cell (shape trs) t j → (j < W)%nat.
Hypothesis Hfill : 0 ≤ fill.
Hypothesis Hmax : fill + rows_before trs W < size_max.

Definition shared_start (t j : nat) : Z :=
  fill + rows_before trs j + col_before trs t j.

Lemma col_before_S t j :
  col_before trs (S t) j = col_before trs t j + cnt trs t j.
Proof. done. Qed.

Lemma col_before_mono t t' j :
  (t ≤ t')%nat → col_before trs t j ≤ col_before trs t' j.
Proof.
  intros. apply bsum_mono; [|done]. intros. by apply cnt_nonneg.
Qed.

Lemma col_before_nonneg t j : 0 ≤ col_before trs t j.
Proof. apply bsum_nonneg. intros. by apply cnt_nonneg. Qed.

Lemma row_total_nonneg j : 0 ≤ row_total trs j.
Proof. apply col_before_nonneg. Qed.

Lemma rows_before_S j :
  rows_before trs (S j) = rows_before trs j + row_total trs j.
Proof. done. Qed.

Lemma rows_before_mono j j' :
  (j ≤ j')%nat → rows_before trs j ≤ rows_before trs j'.
Proof.
  intros. apply bsum_mono; [|done]. intros. apply row_total_nonneg.
Qed.

Lemma rows_before_nonneg j : 0 ≤ rows_before trs j.
Proof. apply bsum_nonneg. intros. apply row_total_nonneg. Qed.

(** The region of a cell ends before the next row starts. *)
Lemma shared_end_le t j :
  (t < length trs)%nat →
  shared_start t j + cnt trs t j ≤ fill + rows_before trs (S j).
Proof.
  intros Ht. unfold shared_start. rewrite rows_before_S.
  pose proof (col_before_mono (S t) (length trs) j ltac:(lia)) as H.
  rewrite col_before_S in H. unfold row_total. lia.
Qed.

Lemma shared_layout :
  layout shared_start (cnt trs) (shape trs) fill (rows_before trs W).
Proof.
  assert (Hlt : ∀ t1 j1 t2 j2,
            valid_cell (shape trs) t1 j1 →
            (j1 < j2 ∨ j1 = j2 ∧ t1 < t2)%nat →
            shared_start t1 j1 + cnt trs t1 j1 ≤ shared_start t2 j2).
  { intros t1 j1 t2 j2 Hv1 Hord.
    pose proof (valid_cell_thread _ _ _ Hv1) as Ht1.
    destruct Hord as [Hj|[-> Ht]].
    - pose proof (shared_end_le t1 j1 Ht1).
      pose proof (rows_before_mono (S j1) j2 ltac:(lia)).
      pose proof (col_before_nonneg t2 j2).
      unfold shared_start in *. lia.
    - pose proof (col_before_mono (S t1) t2 j2 ltac:(lia)) as H.
      rewrite col_before_S in H. unfold shared_start. lia. }
  split.
  - intros t1 j1 t2 j2 Hv1 Hv2 Hne.
    destruct (decide (j1 < j2 ∨ j1 = j2 ∧ t1 < t2)%nat) as [Ho|Ho].
    + left. by apply Hlt.
    + right. apply Hlt; [done|].
      destruct (decide (j1 = j2)) as [->|]; [|lia].
      destruct (decide (t1 = t2)) as [->|]; [done|lia].
  - intros t j Hv.
    pose proof (valid_cell_thread _ _ _ Hv) as Ht.
    pose proof (shared_end_le t j Ht).
    pose proof (rows_before_mono (S j) W ltac:(by apply (HW t))).
    pose proof (rows_before_nonneg j).
    pose proof (col_before_nonneg t j).
    pose proof (cnt_nonneg trs t j Hcnt).
    unfold shared_start in *. lia.
  - done.
Qed.
End SharedLayout.

(** Row-major: cells in buffer order. *)

Definition flat_index (sh : list nat) (t j : nat) : nat :=
  (sum_list (take t sh) + j)%nat.

Lemma sum_list_take_le (sh : list nat) t t' :
  (t ≤ t')%nat → (sum_list (take t sh) ≤ sum_list (take t' sh))%nat.
Proof.
  revert t t'. induction sh as [|n sh IH]; intros t t' Hle.
  - by rewrite !take_nil.
  - destruct t as [|t]; [simpl; lia|].
    destruct t' as [|t']; [lia|]. simpl.
    specialize (IH t t' ltac:(lia)). lia.
Qed.

Lemma sum_list_take_S (sh : list nat) t n :
  sh !! t = Some n →
  sum_list (take (S t) sh) = (sum_list (take t sh) + n)%nat.
Proof.
  intros H. rewrite (take_S_r _ _ _ H), sum_list_with_app. simpl. lia.
Qed.

Lemma sum_list_take_all (sh : list nat) t :
  (sum_list (take t sh) ≤ sum_list sh)%nat.
Proof.
  rewrite <- (take_drop t sh) at 2. rewrite sum_list_with_app. lia.
Qed.

Lemma flat_index_lt sh t1 j1 t2 j2 :
  valid_cell sh t1 j1 → (t1 < t2 ∨ t1 = t2 ∧ j1 < j2)%nat →
  (flat_index sh t1 j1 < flat_index sh t2 j2)%nat.
Proof.
  intros (n & Hn & Hj) [Ht|[-> Hlt]]; unfold flat_index; [|lia].
  pose proof (sum_list_take_S sh t1 n Hn).
  pose proof (sum_list_take_le sh (S t1) t2 ltac:(lia)). lia.
Qed.

Lemma flat_index_bound sh t j :
  valid_cell sh t j → (flat_index sh t j < sum_list sh)%nat.
Proof.
  intros (n & Hn & Hj). unfold flat_index.
  pose proof (sum_list_take_S sh t n Hn).
  pose proof (sum_list_take_all sh (S t)). lia.
Qed.

Lemma length_mjoin_shape (trs : list (list Z)) :
  length (mjoin trs) = sum_list (shape trs).
Proof.
  induction trs as [|tr trs IH]; [done|]. simpl.
  rewrite length_app. by f_equal.
Qed.

Lemma cell_reshape (sh : list nat) : ∀ (flat : list Z) t j,
  valid_cell sh t j →
  cell (reshape sh flat) t j = flat !! flat_index sh t j.
Proof.
  induction sh as [|n sh IH]; intros flat t j (n' & Hn & Hj).
  - by rewrite lookup_nil in Hn.
  - destruct t as [|t]; simpl in *.
    + injection Hn as ->. unfold cell, flat_index. simpl.
      by rewrite lookup_take_lt.
    + unfold cell, flat_index in *. simpl.
      specialize (IH (drop n flat) t j ltac:(by exists n')).
      rewrite IH, lookup_drop. f_equal. lia.
Qed.

Lemma cell_flat (trs : list (list Z)) t j :
  valid_cell (shape trs) t j →
  cell trs t j = mjoin trs !! flat_index (shape trs) t j.
Proof.
  intros Hv. rewrite <- (reshape_shape trs) at 1. by apply cell_reshape.
Qed.

Lemma sumZ_take_S (l : list Z) i x :
  l !! i = Some x → sumZ (take (S i) l) = sumZ (take i l) + x.
Proof.
  intros H. rewrite (take_S_r _ _ _ H), sumZ_app. simpl. lia.
Qed.

Lemma sumZ_take_bsum (l : list Z) (g : nat → Z) (i : nat) :
  (∀ k, (k < i)%nat → l !! k = Some (g k)) → sumZ (take i l) = bsum g i.
Proof.
  induction i as [|i IH]; intros H; [by rewrite take_0|].
  rewrite (sumZ_take_S l i (g i)) by (apply H; lia).
  simpl. rewrite IH; [done|]. intros. apply H. lia.
Qed.

Lemma sumZ_nonneg (l : list Z) : Forall (λ x, 0 ≤ x) l → 0 ≤ sumZ l.
Proof. induction 1; simpl; lia. Qed.

Lemma sumZ_take_mono (l : list Z) i k :
  Forall (λ x, 0 ≤ x) l → (i ≤ k)%nat → sumZ (take i l) ≤ sumZ (take k l).
Proof.
  intros Hl Hik.
  replace k with (i + (k - i))%nat by lia.
  rewrite <- (take_drop i (take (i + (k - i)) l)).
  rewrite take_take, Nat.min_l by lia. rewrite sumZ_app.
  assert (0 ≤ sumZ (drop i (take (i + (k - i)) l))); [|lia].
  apply sumZ_nonneg. by apply Forall_drop, Forall_take.
Qed.

Lemma sumZ_take_le (l : list Z) i :
  Forall (λ x, 0 ≤ x) l → sumZ (take i l) ≤ sumZ l.
Proof.
  intros Hl. rewrite <- (take_drop i l) at 2. rewrite sumZ_app.
  assert (0 ≤ sumZ (drop i l)); [|lia].
  apply sumZ_nonneg. by apply Forall_drop.
Qed.

Section RowMajorLayout.
Variables (trs : list (list Z)) (fill : Z).
Hypothesis Hcnt : counts_ok trs.
Hypothesis Hfill : 0 ≤ fill.
Hypothesis Hmax : fill + sumZ (mjoin trs) < size_max.

Definition row_major_start (t j : nat) : Z :=
  fill + sumZ (take (flat_index (shape trs) t j) (mjoin trs)).

Lemma flat_nonneg : Forall (λ x, 0 ≤ x) (mjoin trs).
Proof.
  apply Forall_forall. intros x Hx.
  apply list_elem_of_join in Hx as (tr & Hx & Htr).
  apply list_elem_of_lookup in Htr as [t Ht].
  apply list_elem_of_lookup in Hx as [j Hj].
  apply (Hcnt t j). unfold cell. by rewrite Ht.
Qed.

Lemma row_major_end t j :
  valid_cell (shape trs) t j →
  row_major_start t j + cnt trs t j =
    fill + sumZ (take (S (flat_index (shape trs) t j)) (mjoin trs)).
Proof.
  intros Hv. unfold row_major_start.
  destruct (proj1 (valid_cell_cell trs t j) Hv) as [c Hc].
  rewrite (cnt_valid _ _ _ _ Hc).
  rewrite cell_flat in Hc by done.
  rewrite (sumZ_take_S _ _ _ Hc). lia.
Qed.

Lemma row_major_layout :
  layout row_major_start (cnt trs) (shape trs) fill (sumZ (mjoin trs)).
Proof.
  pose proof flat_nonneg as Hnn.
  assert (Hlt : ∀ t1 j1 t2 j2,
            valid_cell (shape trs) t1 j1 →
            (t1 < t2 ∨ t1 = t2 ∧ j1 < j2)%nat →
            row_major_start t1 j1 + cnt trs t1 j1 ≤ row_major_start t2 j2).
  { intros t1 j1 t2 j2 Hv1 Hord.
    rewrite row_major_end by done. unfold row_major_start.
    pose proof (flat_index_lt _ _ _ _ _ Hv1 Hord).
    pose proof (sumZ_take_mono (mjoin trs)
                  (S (flat_index (shape trs) t1 j1))
                  (flat_index (shape trs) t2 j2) Hnn ltac:(lia)).
    lia. }
  split.
  - intros t1 j1 t2 j2 Hv1 Hv2 Hne.
    destruct (decide (t1 < t2 ∨ t1 = t2 ∧ j1 < j2)%nat) as [Ho|Ho].
    + left. by apply Hlt.
    + right. apply Hlt; [done|].
      destruct (decide (t1 = t2)) as [->|]; [|lia].
      destruct (decide (j1 = j2)) as [->|]; [done|lia].
  - intros t j Hv. rewrite row_major_end by done.
    pose proof (sumZ_take_le (mjoin trs)
                  (S (flat_index (shape trs) t j)) Hnn).
    pose proof (sumZ_nonneg (take (flat_index (shape trs) t j) (mjoin trs))
                  ltac:(by apply Forall_take)).
    pose proof (cnt_nonneg trs t j Hcnt).
    unfold row_major_start. lia.
  - done.
Qed.
End RowMajorLayout.

(** ** The regions leave no gap *)

Lemma bsum_locate f n y :
  (∀ i, (i < n)%nat → 0 ≤ f i) → 0 ≤ y < bsum f n →
  ∃ i, (i < n)%nat ∧ bsum f i ≤ y < bsum f i + f i.
Proof.
  induction n as [|n IH]; intros Hf Hy; simpl in *; [lia|].
  destruct (decide (y < bsum f n)) as [Hlt|Hge].
  - destruct IH as (i & Hi & Hb); [intros; apply Hf; lia|lia|].
    exists i. split; [lia|done].
  - exists n. split; [lia|lia].
Qed.

Lemma cnt_pos_valid trs t j : 0 < cnt trs t j → valid_cell (shape trs) t j.
Proof.
  intros H. apply valid_cell_cell. unfold cnt in H.
  destruct (cell trs t j); [by eexists|simpl in H; lia].
Qed.

Lemma shared_cover trs fill W x :
  counts_ok trs → fill ≤ x < fill + rows_before trs W →
  ∃ t j, valid_cell (shape trs) t j ∧
         shared_start trs fill t j ≤ x
           < shared_start trs fill t j + cnt trs t j.
Proof.
  intros Hcnt Hx.
  destruct (bsum_locate (row_total trs) W (x - fill)) as (j & Hj & Hrow).
  { intros. by apply row_total_nonneg. }
  { unfold rows_before in Hx. lia. }
  destruct (bsum_locate (λ t, cnt trs t j) (length trs)
              (x - fill - rows_before trs j)) as (t & Ht & Hcol).
  { intros. by apply cnt_nonneg. }
  { unfold rows_before, row_total, col_before in *. lia. }
  exists t, j. split.
  - apply cnt_pos_valid. lia.
  - unfold shared_start, col_before. lia.
Qed.

Lemma flat_index_inv (sh : list nat) (f : nat) :
  (f < sum_list sh)%nat →
  ∃ t j, valid_cell sh t j ∧ flat_index sh t j = f.
Proof.
  revert f. induction sh as [|n sh IH]; intros f Hf; simpl in *; [lia|].
  destruct (decide (f < n)%nat) as [Hlt|Hge].
  - exists 0%nat, f. split; [by exists n|done].
  - destruct (IH (f - n)%nat ltac:(lia)) as (t & j & (n' & Hn' & Hj) & Hi).
    exists (S t), j. split; [by exists n'|].
    unfold flat_index in *. simpl. lia.
Qed.

Lemma row_major_cover trs fill x :
  counts_ok trs → fill ≤ x < fill + sumZ (mjoin trs) →
  ∃ t j, valid_cell (shape trs) t j ∧
         row_major_start trs fill t j ≤ x
           < row_major_start trs fill t j + cnt trs t j.
Proof.
  intros Hcnt Hx. set (flat := mjoin trs) in *.
  pose proof (flat_nonneg trs Hcnt) as Hnn. fold flat in Hnn.
  set (g := λ k, default 0 (flat !! k)).
  assert (Hg : ∀ i, (i ≤ length flat)%nat → sumZ (take i flat) = bsum g i).
  { intros i Hi. apply sumZ_take_bsum. intros k Hk. unfold g.
    by destruct (lookup_lt_is_Some_2 flat k ltac:(lia)) as [y ->]. }
  destruct (bsum_locate g (length flat) (x - fill)) as (f & Hf & Hloc).
  { intros i Hi. unfold g.
    destruct (flat !! i) as [y|] eqn:E; simpl; [|done].
    by apply (Forall_lookup_1 _ _ _ _ Hnn E). }
  { rewrite <- Hg by done. rewrite firstn_all. lia. }
  destruct (flat_index_inv (shape trs) f) as (t & j & Hv & Hi).
  { by rewrite <- length_mjoin_shape. }
  exists t, j. split; [done|].
  rewrite row_major_end by done. unfold row_major_start.
  fold flat. rewrite Hi, !Hg by lia. simpl. lia.
Qed.

(** ** Step 4 on the builder *)

Section PushesRun.
Context {V : Type}.
Variable rm : bool.
Implicit Types bd : Builder V.

(** The data slots written by a sequence of pushes, in call order. *)
Fixpoint push_slots (ps : list (@push_call V)) bd : list Z :=
  match ps with
  | [] => []
  | (key, value, tid) :: ps =>
      match cell (thread_rptr_ bd) (call_cell rm bd key tid).1
                 (call_cell rm bd key tid).2,
            Push rm key value tid bd with
      | Some rp, Some bd' => rp :: push_slots ps bd'
      | _, _ => []
      end
  end.

Definition push_ok (sh : list nat) bd (c : @push_call V) : Prop :=
  let '(key, _, tid) := c in
  0 ≤ tid ∧
  valid_cell sh (call_cell rm bd key tid).1 (call_cell rm bd key tid).2.

Variables (s b : nat → nat → Z) (sh : list nat) (fill total : Z).
Variable data0 : list V.
Hypothesis Hlay : layout s b sh fill total.

Lemma Pushes_inv (rest : list push_call) : ∀ done bd tr,
  push_inv s b sh fill total data0 done (thread_rptr_ bd) (data_ bd) tr →
  Forall (push_ok sh bd) rest →
  (∀ t j, valid_cell sh t j →
          pushed (done ++ (push_op rm bd <$> rest)) t j ≤ b t j) →
  ∃ bd', Pushes rm rest bd = Some bd' ∧
         rptr_ bd' = rptr_ bd ∧
         base_row_offset_ bd' = base_row_offset_ bd ∧
         thread_displacement_ bd' = thread_displacement_ bd ∧
         push_inv s b sh fill total data0
                  (done ++ (push_op rm bd <$> rest))
                  (thread_rptr_ bd') (data_ bd')
                  (tr ++ push_slots rest bd).
Proof.
  induction rest as [|[[key value] tid] rest IH]; intros done bd tr Hinv Hok Hb.
  - exists bd. simpl. by rewrite !app_nil_r.
  - apply Forall_cons in Hok as [[Ht Hv] Hok].
    set (c := call_cell rm bd key tid) in *.
    assert (Hop : push_op rm bd (key, value, tid) = (c.1, c.2, value))
      by (unfold c; done).
    rewrite fmap_cons, Hop in Hb |- *.
    assert (Hlt : pushed done c.1 c.2 < b c.1 c.2).
    { specialize (Hb _ _ Hv).
      unfold pushed in *. rewrite at_cell_app in Hb.
      rewrite at_cell_cons, decide_True, length_app in Hb by done.
      rewrite length_cons in Hb. lia. }
    destruct (push_inv_step s b sh fill total data0 Hlay done _ _ tr
                c.1 c.2 value Hinv Hv Hlt) as (Hc & Hrp & Hinv').
    pose proof (Push_bump rm bd key value tid _ Ht Hc) as HP.
    fold c in HP. unfold vsize in HP. specialize (HP Hrp).
    unfold Pushes in *.
    change (foldlM ?f bd ((key, value, tid) :: rest))
      with (Push rm key value tid bd ≫= λ b1, foldlM f b1 rest).
    change (push_slots ((key, value, tid) :: rest) bd)
      with (match cell (thread_rptr_ bd) c.1 c.2,
                  Push rm key value tid bd with
            | Some rp, Some bd' => rp :: push_slots rest bd'
            | _, _ => []
            end).
    rewrite HP, Hc. simpl.
    set (bd1 := mkBuilder _ _ _ _ _) in *.
    destruct (IH (done ++ [(c.1, c.2, value)]) bd1
                (tr ++ [s c.1 c.2 + pushed done c.1 c.2]))
      as (bd' & HP' & Hr & Hbase & Hdisp & Hinv'').
    + done.
    + done.
    + intros t j Hvc. rewrite <- (assoc_L (++)). simpl.
      by apply Hb.
    + exists bd'. split; [done|]. split; [done|]. split; [done|].
      split; [done|].
      rewrite <- !(assoc_L (++)) in Hinv''. by simpl in Hinv''.
Qed.
End PushesRun.

(** ** Steps 3 and 4 together, on the cells *)

Lemma last_imap_resize (f : nat → Z → Z) (rptr : list Z) n :
  (length rptr ≤ n)%nat → (0 < n)%nat →
  last (imap f (resize n (rptr_fill rptr) rptr))
  = Some (f (n - 1)%nat (rptr_fill rptr)).
Proof.
  intros Hn Hpos.
  rewrite last_lookup, length_imap, length_resize, list_lookup_imap.
  pose proof (last_resize_fill rptr n Hn Hpos) as Hl.
  rewrite last_lookup, length_resize in Hl.
  replace (pred n) with (n - 1)%nat in * by lia. by rewrite Hl.
Qed.

Section SharedRun.
Context {V : Type}.
Variable dflt : V.
Variable b : Builder V.
Variable ps : list (@push_call V).

Let base := Z.to_nat (base_row_offset_ b).
Let trs := thread_rptr_ b.
Let fill := rptr_fill (rptr_ b).
Let N := (length (rptr_ b) `max` rows_needed base trs)%nat.
Let m := (N - 1 - base)%nat.
Let total := rows_before trs m.

Hypothesis Hbase : 0 ≤ base_row_offset_ b.
Hypothesis Hcnt : counts_ok trs.
Hypothesis HN : (0 < N)%nat.
Hypothesis HNmax : Z.of_nat N < size_max.
Hypothesis Hfill : 0 ≤ fill.
Hypothesis Hmax : fill + total < size_max.

Lemma shared_valid_row t j : valid_cell (shape trs) t j → (j < m)%nat.
Proof.
  intros (n & Hn & Hj). unfold shape in Hn.
  rewrite list_lookup_fmap in Hn.
  destruct (trs !! t) as [tr|] eqn:E; [|done]. injection Hn as <-.
  assert (length tr + base + 1 ≤ rows_needed base trs)%nat.
  { apply max_list_elem_of_le, list_elem_of_fmap. exists tr.
    split; [done|]. by eapply list_elem_of_lookup_2. }
  unfold m, N. lia.
Qed.

Lemma shared_run_layout :
  layout (shared_start trs fill) (cnt trs) (shape trs) fill total.
Proof.
  apply shared_layout; [done|exact shared_valid_row|done|done].
Qed.

Lemma general_rptr_last : last (general_rptr b) = Some (fill + total).
Proof.
  unfold general_rptr. fold base trs fill N m.
  unfold fill. rewrite last_imap_resize by (unfold N; lia).
  f_equal. fold fill.
  unfold gen_offset. case_decide as Hd.
  - replace (N - 1 - base)%nat with m by done.
    apply wrap_small. pose proof (rows_before_nonneg trs Hcnt m).
    unfold total in *. lia.
  - assert (m = 0%nat) as Hm by (clear -Hd; subst m; lia).
    unfold total. rewrite Hm. unfold rows_before. simpl. lia.
Qed.

Lemma general_cursors_cell t j :
  valid_cell (shape trs) t j →
  cell (general_cursors b) t j = Some (shared_start trs fill t j).
Proof.
  intros Hv. unfold general_cursors. fold base trs fill N m.
  rewrite cell_cmap.
  destruct (proj1 (valid_cell_cell trs t j) Hv) as [c ->]. simpl.
  f_equal. unfold gen_cursor.
  rewrite decide_True by (by eapply shared_valid_row).
  destruct (lay_bound _ _ _ _ _ shared_run_layout t j Hv) as (? & ? & ?).
  unfold shared_start in *.
  rewrite wrap_small; lia.
Qed.

Hypothesis Hok : Forall (push_ok false (shape trs) b) ps.
Hypothesis Hbudget : ∀ t j, valid_cell (shape trs) t j →
  pushed (push_op false b <$> ps) t j ≤ cnt trs t j.

Lemma shared_storage_pushes :
  ∃ b3 b4,
    InitStorage dflt false b = Some b3 ∧ Pushes false ps b3 = Some b4 ∧
    rptr_ b3 = general_rptr b ∧ rptr_ b4 = general_rptr b ∧
    data_ b3 = vresize (fill + total) dflt (data_ b) ∧
    thread_rptr_ b3 = general_cursors b ∧
    push_inv (shared_start trs fill) (cnt trs) (shape trs) fill total
             (data_ b3) (push_op false b <$> ps)
             (thread_rptr_ b4) (data_ b4) (push_slots false ps b3).
Proof.
  pose proof (InitStorage_general dflt b Hbase HN HNmax) as HS.
  rewrite general_rptr_last in HS. simpl in HS.
  set (b3 := mkBuilder _ _ _ _ _) in HS.
  assert (Hinit : push_inv (shared_start trs fill) (cnt trs) (shape trs)
                    fill total (data_ b3) [] (thread_rptr_ b3) (data_ b3) []).
  { apply push_inv_init.
    - apply shared_run_layout.
    - apply shape_cmap.
    - simpl. unfold vresize. rewrite length_resize.
      pose proof (rows_before_nonneg trs Hcnt m). unfold total in *. lia.
    - apply general_cursors_cell. }
  destruct (Pushes_inv false _ _ _ _ _ (data_ b3) shared_run_layout
              ps [] b3 [] Hinit) as (b4 & HP & Hr & _ & _ & Hinv).
  - done.
  - done.
  - exists b3, b4. do 6 (split; [done|]). exact Hinv.
Qed.
End SharedRun.

Lemma shape_reshape (sh : list nat) : ∀ (l : list Z),
  sum_list sh = length l → shape (reshape sh l) = sh.
Proof.
  induction sh as [|n sh IH]; intros l Hl; [done|].
  simpl in *. rewrite length_take. f_equal; [lia|].
  apply IH. rewrite length_drop. lia.
Qed.

Lemma last_psums C (l : list Z) :
  l ≠ [] → last (psums C l) = Some (C + sumZ l).
Proof.
  intros Hl. rewrite last_lookup, length_psums.
  assert (0 < length l)%nat by (destruct l; [done|simpl; lia]).
  rewrite lookup_psums by lia.
  replace (S (pred (length l))) with (length l) by lia.
  by rewrite firstn_all.
Qed.

Section RowMajorRun.
Context {V : Type}.
Variable dflt : V.
Variable b : Builder V.
Variable ps : list (@push_call V).

Let base := Z.to_nat (base_row_offset_ b).
Let trs := thread_rptr_ b.
Let fill := rptr_fill (rptr_ b).
Let flat := mjoin trs.
Let total := sumZ flat.

Hypothesis Hbase : 0 ≤ base_row_offset_ b.
Hypothesis Hcnt : counts_ok trs.
Hypothesis Hlen : (length (rptr_ b) ≤ base + 1)%nat.
Hypothesis Hrows : Z.of_nat (base + 1 + length flat) < size_max.
Hypothesis Hfill : 0 ≤ fill.
Hypothesis Hmax : fill + total < size_max.

Lemma row_major_run_layout :
  layout (row_major_start trs fill) (cnt trs) (shape trs) fill total.
Proof. by apply row_major_layout. Qed.

Lemma row_major_rptr_last : last (row_major_rptr b) = Some (fill + total).
Proof.
  unfold row_major_rptr. fold base trs fill flat.
  destruct (decide (flat = [])) as [E|E].
  - unfold total. rewrite E. simpl. rewrite app_nil_r, Z.add_0_r.
    unfold fill. apply last_resize_fill; lia.
  - rewrite last_app, fmap_last, last_psums by done. simpl.
    f_equal. apply wrap_small.
    pose proof (sumZ_nonneg flat (flat_nonneg trs Hcnt)).
    unfold total in *. lia.
Qed.

Lemma row_major_cursors_shape : shape (row_major_cursors b) = shape trs.
Proof.
  unfold row_major_cursors. fold trs flat.
  apply shape_reshape.
  rewrite length_fmap, length_esums. symmetry. apply length_mjoin_shape.
Qed.

Lemma row_major_cursors_cell t j :
  valid_cell (shape trs) t j →
  cell (row_major_cursors b) t j = Some (row_major_start trs fill t j).
Proof.
  intros Hv. unfold row_major_cursors. fold trs flat fill.
  rewrite cell_reshape by done.
  pose proof (flat_index_bound _ _ _ Hv) as Hb.
  rewrite <- length_mjoin_shape in Hb. fold flat in Hb.
  rewrite list_lookup_fmap, lookup_esums by done. simpl. f_equal.
  destruct (lay_bound _ _ _ _ _ row_major_run_layout t j Hv)
    as (H1 & H2 & H3).
  unfold row_major_start in *.
  pose proof Hmax as Hmax'. unfold total, flat in Hmax'.
  unfold flat. rewrite wrap_small; lia.
Qed.

Hypothesis Hok : Forall (push_ok true (shape trs) b) ps.
Hypothesis Hbudget : ∀ t j, valid_cell (shape trs) t j →
  pushed (push_op true b <$> ps) t j ≤ cnt trs t j.

Lemma row_major_storage_pushes :
  ∃ b3 b4,
    InitStorage dflt true b = Some b3 ∧ Pushes true ps b3 = Some b4 ∧
    rptr_ b3 = row_major_rptr b ∧ rptr_ b4 = row_major_rptr b ∧
    data_ b3 = vresize (fill + total) dflt (data_ b) ∧
    thread_rptr_ b3 = row_major_cursors b ∧
    push_inv (row_major_start trs fill) (cnt trs) (shape trs) fill total
             (data_ b3) (push_op true b <$> ps)
             (thread_rptr_ b4) (data_ b4) (push_slots true ps b3).
Proof.
  pose proof (InitStorage_row_major dflt b Hbase Hlen Hrows) as HS.
  rewrite row_major_rptr_last in HS. simpl in HS.
  set (b3 := mkBuilder _ _ _ _ _) in HS.
  assert (Hinit : push_inv (row_major_start trs fill) (cnt trs) (shape trs)
                    fill total (data_ b3) [] (thread_rptr_ b3) (data_ b3) []).
  { apply push_inv_init.
    - apply row_major_run_layout.
    - apply row_major_cursors_shape.
    - simpl. unfold vresize. rewrite length_resize.
      pose proof (sumZ_nonneg flat (flat_nonneg trs Hcnt)).
      unfold total in *. lia.
    - apply row_major_cursors_cell. }
  destruct (Pushes_inv true _ _ _ _ _ (data_ b3) row_major_run_layout
              ps [] b3 [] Hinit) as (b4 & HP & Hr & _ & _ & Hinv).
  - done.
  - done.
  - exists b3, b4. do 6 (split; [done|]). exact Hinv.
Qed.
End RowMajorRun.

(** ** Slices of the data array *)

(** [data[a : a + n]] *)
Definition slice {A} (l : list A) (a n : Z) : list A :=
  take (Z.to_nat n) (drop (Z.to_nat a) l).

Lemma slice_add {A} (l : list A) a x y :
  0 ≤ a → 0 ≤ x → 0 ≤ y →
  slice l a (x + y) = slice l a x ++ slice l (a + x) y.
Proof.
  intros. unfold slice.
  rewrite !Z2Nat.inj_add by lia.
  rewrite <- take_take_drop, drop_drop. done.
Qed.

Lemma slice_0 {A} (l : list A) a : slice l a 0 = [].
Proof. done. Qed.

Lemma lookup_slice {A} (l : list A) a n i :
  0 ≤ a → (Z.of_nat i < n) →
  slice l a n !! i = l !! Z.to_nat (a + Z.of_nat i).
Proof.
  intros. unfold slice. rewrite lookup_take_lt, lookup_drop by lia.
  f_equal. lia.
Qed.

Lemma length_slice_le {A} (l : list A) a n :
  0 ≤ n → Z.of_nat (length (slice l a n)) ≤ n.
Proof. intros. unfold slice. rewrite length_take. lia. Qed.

(** A region made of consecutive pieces is the concatenation of the
    pieces. *)
Lemma slice_tiles {A} (l : list A) a (f : nat → Z) n :
  0 ≤ a → (∀ i, (i < n)%nat → 0 ≤ f i) →
  slice l a (bsum f n) =
    mjoin ((λ i, slice l (a + bsum f i) (f i)) <$> seq 0 n).
Proof.
  intros Ha. induction n as [|n IH]; intros Hf; [done|].
  rewrite seq_S, fmap_app, join_app. simpl.
  rewrite app_nil_r, <- IH by (intros; apply Hf; lia).
  apply slice_add; [done| |apply Hf; lia].
  apply bsum_nonneg. intros. apply Hf. lia.
Qed.

Lemma slice_all {A} (l : list A) a n :
  0 ≤ a → Z.of_nat (length l) = a + n →
  l = take (Z.to_nat a) l ++ slice l a n.
Proof.
  intros Ha Hl. unfold slice.
  pose proof (length_drop l (Z.to_nat a)) as Hd.
  rewrite (take_ge (drop (Z.to_nat a) l)) by lia.
  by rewrite take_drop.
Qed.

Lemma slice_app_mid {A} (pre mid post : list A) :
  slice (pre ++ mid ++ post) (Z.of_nat (length pre)) (Z.of_nat (length mid))
  = mid.
Proof.
  unfold slice. rewrite !Nat2Z.id, drop_app_length.
  by rewrite take_app_length.
Qed.

Lemma mjoin_seq_split {A} (h : nat → list A) (i W : nat) :
  (i < W)%nat →
  mjoin (h <$> seq 0 W) =
    mjoin (h <$> seq 0 i) ++ h i ++ mjoin (h <$> seq (S i) (W - S i)).
Proof.
  intros Hi. replace W with (i + S (W - S i))%nat at 1 by lia.
  rewrite seq_app, fmap_app, join_app. simpl. done.
Qed.

Lemma length_mjoin_seq {A} (h : nat → list A) (n : nat) :
  Z.of_nat (length (mjoin (h <$> seq 0 n)))
  = bsum (λ i, Z.of_nat (length (h i))) n.
Proof.
  induction n as [|n IH]; [done|].
  rewrite seq_S, fmap_app, join_app, length_app. simpl.
  rewrite app_nil_r. lia.
Qed.

Lemma push_inv_slice {V} s b sh fill total (data0 : list V) done trs data tr
    t j :
  layout s b sh fill total →
  push_inv s b sh fill total data0 done trs data tr →
  valid_cell sh t j → pushed done t j = b t j →
  slice data (s t j) (b t j) = at_cell done t j.
Proof.
  intros Hlay Hinv Hv Hfull.
  destruct (lay_bound _ _ _ _ _ Hlay t j Hv) as (Hs & Hb & _).
  destruct (lay_max _ _ _ _ _ Hlay) as [Hf _].
  unfold pushed in Hfull.
  apply list_eq; intros i.
  destruct (at_cell done t j !! i) as [x|] eqn:E.
  - pose proof (lookup_lt_Some _ _ _ E).
    rewrite lookup_slice by lia.
    by apply (pi_data _ _ _ _ _ _ _ _ _ _ Hinv).
  - apply lookup_ge_None in E. apply lookup_ge_None.
    pose proof (length_slice_le data (s t j) (b t j) Hb). lia.
Qed.

Lemma push_inv_frame {V} s b sh fill total (data0 : list V) done trs data tr :
  layout s b sh fill total →
  push_inv s b sh fill total data0 done trs data tr →
  Z.of_nat (length data0) = fill + total →
  take (Z.to_nat fill) data = take (Z.to_nat fill) data0.
Proof.
  intros Hlay Hinv Hl0.
  destruct (lay_max _ _ _ _ _ Hlay) as [Hf _].
  apply list_eq; intros i.
  destruct (decide (i < Z.to_nat fill)%nat).
  - rewrite !lookup_take_lt by done.
    apply (pi_frame _ _ _ _ _ _ _ _ _ _ Hinv). lia.
  - by rewrite !lookup_take_ge by lia.
Qed.

(** ** Keys, threads and groups *)

Definition budget_for (bs : list budget_call) (key tid : Z) : Z :=
  sumZ (omap (λ '(k, t, e),
                if decide (k = key ∧ t = tid) then Some e else None) bs).

Definition pushed_for {V} (ps : list (@push_call V)) (key tid : Z) : list V :=
  omap (λ '(k, v, t), if decide (k = key ∧ t = tid) then Some v else None) ps.

(** The values of key [key]: thread by thread in ascending order, each
    thread's values in its push order. *)
Definition group {V} (nthread : Z) (ps : list (@push_call V)) (key : Z)
  : list V :=
  mjoin ((λ t : nat, pushed_for ps key (Z.of_nat t))
           <$> seq 0 (Z.to_nat nthread)).

(** Number of keys a build covers, the slice of keys of each thread, and
    the assignment of keys to threads the builder is written for. *)
Definition nkeys (rm : bool) (base max_key : Z) : Z :=
  if rm then max_key else max_key - Z.min base max_key.

Definition slice_lo (rm : bool) (base max_key nthread tid : Z) : Z :=
  if rm then base + tid * (max_key `div` nthread) else base.

Definition slice_len (rm : bool) (base max_key nthread tid : Z) : Z :=
  if rm then
    if decide (tid = nthread - 1)
    then max_key - (nthread - 1) * (max_key `div` nthread)
    else max_key `div` nthread
  else max_key - Z.min base max_key.

Definition owns (rm : bool) (base max_key nthread key tid : Z) : Prop :=
  0 ≤ tid < nthread ∧
  slice_lo rm base max_key nthread tid ≤ key
    < slice_lo rm base max_key nthread tid
      + slice_len rm base max_key nthread tid.

Lemma okey_shared base disp key tid :
  0 ≤ key - base < size_max → okey false base disp key tid = key - base.
Proof. intros. unfold okey, wsub. by apply wrap_small. Qed.

Lemma okey_row_major base disp key tid :
  0 ≤ key - base - tid * disp < size_max →
  okey true base disp key tid = key - base - tid * disp.
Proof.
  intros. unfold okey, wsub, wmul, wrap.
  rewrite Zmult_mod_idemp_l, Zminus_mod_idemp_r, Zminus_mod_idemp_l.
  by apply Z.mod_small.
Qed.

Lemma div_slices max_key n :
  0 ≤ max_key → 1 ≤ n →
  0 ≤ max_key `div` n ∧ 0 ≤ (n - 1) * (max_key `div` n) ≤ max_key.
Proof.
  intros Hm Hn. pose proof (Z.div_pos max_key n Hm ltac:(lia)).
  pose proof (Z.mul_div_le max_key n ltac:(lia)). split; [done|]. nia.
Qed.

Lemma okey_owns rm base max_key n key tid :
  0 ≤ base → 0 ≤ max_key → 1 ≤ n →
  base + nkeys rm base max_key < size_max →
  owns rm base max_key n key tid →
  okey rm base (displacement_of rm base max_key n) key tid
  = key - slice_lo rm base max_key n tid.
Proof.
  intros Hb Hm Hn Hmax [Ht Hk].
  destruct (div_slices max_key n Hm Hn) as [Hd1 Hd2].
  destruct rm;
    unfold displacement_of, full_size_of, slice_lo, slice_len, nkeys in *.
  - rewrite okey_row_major; [lia|].
    case_decide; subst; nia.
  - rewrite okey_shared; lia.
Qed.

Lemma slice_len_bound rm base max_key n key tid :
  0 ≤ base → 0 ≤ max_key → 1 ≤ n →
  owns rm base max_key n key tid →
  0 ≤ key - slice_lo rm base max_key n tid
    < slice_len rm base max_key n tid.
Proof. intros Hb Hm Hn [Ht Hk]. lia. Qed.

Lemma bsum_term_le f n i :
  (∀ k, (k < n)%nat → 0 ≤ f k) → (i < n)%nat → f i ≤ bsum f n.
Proof.
  intros Hf Hi.
  pose proof (bsum_mono f (S i) n Hf ltac:(lia)) as H1. simpl in H1.
  pose proof (bsum_nonneg f i ltac:(intros; apply Hf; lia)). lia.
Qed.

(** Total size of the first [i] groups of a build. *)
Definition groups_before {V} (nthread : Z) (ps : list (@push_call V))
    (base : Z) (i : nat) : Z :=
  bsum (λ i', Z.of_nat (length (group nthread ps (base + Z.of_nat i')))) i.

Lemma length_group {V} n (ps : list (@push_call V)) key :
  Z.of_nat (length (group n ps key))
  = bsum (λ t, Z.of_nat (length (pushed_for ps key (Z.of_nat t))))
         (Z.to_nat n).
Proof. unfold group. apply length_mjoin_seq. Qed.

Lemma groups_before_nonneg {V} n (ps : list (@push_call V)) base i :
  0 ≤ groups_before n ps base i.
Proof. apply bsum_nonneg. intros. lia. Qed.

Lemma groups_before_mono {V} n (ps : list (@push_call V)) base i k :
  (i ≤ k)%nat → groups_before n ps base i ≤ groups_before n ps base k.
Proof. intros. apply bsum_mono; [intros; lia|done]. Qed.

(** ** The arrays a build must produce *)

(** Offset array: the prior entries up to [base] (padded with the prior
    total), then the running totals of the groups. *)
Definition spec_rptr {V} (n : Z) (ps : list (@push_call V))
    (rptr0 : list Z) (base W : Z) : list Z :=
  resize (Z.to_nat base + 1) (rptr_fill rptr0) rptr0
  ++ ((λ i, rptr_fill rptr0 + groups_before n ps base (S i))
        <$> seq 0 (Z.to_nat W)).

(** Data array: the prior values, then the groups in key order. *)
Definition spec_data {V} (dflt : V) (n : Z) (ps : list (@push_call V))
    (rptr0 : list Z) (data0 : list V) (base W : Z) : list V :=
  resize (Z.to_nat (rptr_fill rptr0)) dflt data0
  ++ mjoin ((λ i, group n ps (base + Z.of_nat i)) <$> seq 0 (Z.to_nat W)).

Lemma max_list_const {A} (f : A → nat) (l : list A) c :
  l ≠ [] → (∀ x, x ∈ l → f x = c) → max_list (f <$> l) = c.
Proof.
  induction l as [|x l IH]; intros Hne Hf; [done|].
  rewrite fmap_cons. simpl.
  rewrite (Hf x) by apply list_elem_of_here.
  destruct l as [|y l]; [simpl; lia|].
  rewrite IH; [lia|done|].
  intros z Hz. apply Hf. by apply list_elem_of_further.
Qed.

Lemma take_vresize_le {A} (l : list A) (a n : Z) x :
  0 ≤ a ≤ n → take (Z.to_nat a) (vresize n x l) = resize (Z.to_nat a) x l.
Proof. intros. unfold vresize. apply take_resize_le. lia. Qed.

Lemma build_phases {V} (dflt : V) rm r d base mk n bs ps :
  build dflt rm r d base mk n bs ps =
    (InitBudget rm mk n (ParallelGroupBuilder r d base) ≫= AddBudgets rm bs)
    ≫= λ b, InitStorage dflt rm b ≫= Pushes rm ps.
Proof.
  unfold build. destruct (InitBudget rm mk n _) as [b1|]; simpl; [|done].
  by destruct (AddBudgets rm bs b1).
Qed.

Lemma mjoin_single {A} (h : nat → list A) (n t0 : nat) :
  (t0 < n)%nat → (∀ t, (t < n)%nat → t ≠ t0 → h t = []) →
  mjoin (h <$> seq 0 n) = h t0.
Proof.
  intros Ht0 Hnil. rewrite (mjoin_seq_split h t0 n Ht0).
  rewrite (join_nil_2 (h <$> seq 0 t0)), (join_nil_2 (h <$> seq (S t0) _)).
  - by rewrite app_nil_r.
  - apply Forall_fmap, Forall_forall. intros t Ht%elem_of_seq. simpl.
    apply Hnil; lia.
  - apply Forall_fmap, Forall_forall. intros t Ht%elem_of_seq. simpl.
    apply Hnil; lia.
Qed.

Lemma pushed_for_nil {V} (ps : list (@push_call V)) key tid :
  Forall (λ '(k, _, t), k = key → t ≠ tid) ps → pushed_for ps key tid = [].
Proof.
  induction 1 as [|[[k v] t] ps' H _ IH]; [done|].
  change (pushed_for ((k, v, t) :: ps') key tid)
    with (match (if decide (k = key ∧ t = tid) then Some v else None) with
          | Some x => x :: pushed_for ps' key tid
          | None => pushed_for ps' key tid
          end).
  rewrite IH, decide_False; [done|]. intros [-> ->]. by apply H.
Qed.

Lemma owns_unique base max_key n key t1 t2 :
  0 ≤ max_key → 1 ≤ n →
  owns true base max_key n key t1 → owns true base max_key n key t2 →
  t1 = t2.
Proof.
  intros Hm Hn [Ht1 Hk1] [Ht2 Hk2].
  destruct (div_slices max_key n Hm Hn) as [Hd1 Hd2].
  unfold slice_lo, slice_len in *.
  set (d := max_key `div` n) in *.
  destruct (Z.lt_trichotomy t1 t2) as [Hlt|[->|Hlt]]; [|done|].
  - rewrite decide_False in Hk1 by lia. nia.
  - rewrite decide_False in Hk2 by lia. nia.
Qed.

(** Where the region of cell (t, j) starts, in either mode. *)
Definition region_start (rm : bool) (trs : list (list Z)) (fill : Z)
    (t j : nat) : Z :=
  if rm then row_major_start trs fill t j else shared_start trs fill t j.

(** The cell [thread_rptr_[threadid][offset_key]] that [AddBudget] and
    [Push] address: a count before [InitStorage], a write cursor after. *)
Definition cursor {V} (rm : bool) (b : Builder V) (key tid : Z) : option Z :=
  trptr ← vat (thread_rptr_ b) tid; vat trptr (offset_key rm b key tid).

Lemma cursor_cell {V} rm (b : Builder V) key tid :
  0 ≤ tid →
  cursor rm b key tid
  = cell (thread_rptr_ b) (call_cell rm b key tid).1 (call_cell rm b key tid).2.
Proof.
  intros Ht. unfold cursor, cell, call_cell. simpl.
  rewrite vat_nonneg by done.
  destruct (thread_rptr_ b !! Z.to_nat tid) as [tr|]; simpl; [|done].
  change (offset_key rm b key tid)
    with (okey rm (base_row_offset_ b) (thread_displacement_ b) key tid).
  apply vat_nonneg, okey_range.
Qed.

Lemma InitStorage_params {V} (dflt : V) rm (b b' : Builder V) :
  InitStorage dflt rm b = Some b' →
  base_row_offset_ b' = base_row_offset_ b ∧
  thread_displacement_ b' = thread_displacement_ b.
Proof.
  unfold InitStorage. destruct rm.
  - destruct (mapAccumL _ _ _) as [st trs].
    destruct (vback (s_rptr st)); simpl; [|done]. by intros [= <-].
  - destruct (foldlM _ _ _) as [[[c trs] r]|]; simpl; [|done].
    destruct (vback r); simpl; [|done]. by intros [= <-].
Qed.

Lemma Push_params {V} rm key (v : V) tid (b b' : Builder V) :
  Push rm key v tid b = Some b' →
  base_row_offset_ b' = base_row_offset_ b ∧
  thread_displacement_ b' = thread_displacement_ b.
Proof.
  unfold Push. destruct (vat (thread_rptr_ b) tid); simpl; [|done].
  destruct (vat _ _); simpl; [|done]. case_bool_decide; [|done].
  by intros [= <-].
Qed.

Lemma Pushes_params {V} rm ps : ∀ (b b' : Builder V),
  Pushes rm ps b = Some b' →
  base_row_offset_ b' = base_row_offset_ b ∧
  thread_displacement_ b' = thread_displacement_ b.
Proof.
  induction ps as [|[[k v] t] ps IH]; intros b b'.
  - by intros [= <-].
  - unfold Pushes. simpl.
    destruct (Push rm k v t b) as [b1|] eqn:E; simpl; [|done].
    intros H. destruct (IH _ _ H) as [-> ->].
    by apply Push_params in E.
Qed.

(** A push whose cursor is not inside [data_] has no defined result. *)
Lemma Push_off_end {V} rm key (v : V) tid (b : Builder V) rp :
  cursor rm b key tid = Some rp → ¬ rp < vsize (data_ b) →
  Push rm key v tid b = None.
Proof.
  unfold cursor, Push. intros Hc Hrp.
  destruct (vat (thread_rptr_ b) tid) as [tr|]; simpl in *; [|done].
  rewrite Hc. simpl. by rewrite bool_decide_false.
Qed.

(** ** The whole protocol: budget phase *)

Section Protocol.
Context {V : Type}.
Variable dflt : V.
Variable rm : bool.
Variables (rptr0 : list Z) (data0 : list V) (base max_key n : Z).
Variables (bs : list budget_call) (ps : list (@push_call V)).

Let d := displacement_of rm base max_key n.
Let W := nkeys rm base max_key.
Let lo := slice_lo rm base max_key n.
Let len := slice_len rm base max_key n.
Let fill := rptr_fill rptr0.

(** The buffers after [InitBudget] and after the budget calls. *)
Definition budget_buffers0 : list (list Z) :=
  replicate (Z.to_nat (n - 1))
    (replicate (Z.to_nat (thread_size_of rm base max_key n)) 0)
  ++ [replicate (Z.to_nat (last_thread_size_of rm base max_key n)) 0].

Definition budget_builder0 : Builder V :=
  mkBuilder rptr0 data0 budget_buffers0 base d.

Definition budget_builder : Builder V :=
  set_threads budget_builder0
    (bumps (budget_op rm budget_builder0 <$> bs) budget_buffers0).

Hypothesis Hn : 1 ≤ n.
Hypothesis Hbase : 0 ≤ base.
Hypothesis Hmk : 0 ≤ max_key.
Hypothesis Hsz : base + W + 1 < size_max.
Hypothesis Hbs : Forall (λ '(k, t, _), owns rm base max_key n k t) bs.
Hypothesis Hps : Forall (λ '(k, _, t), owns rm base max_key n k t) ps.
Hypothesis Hcomp : ∀ k t,
  budget_for bs k t = Z.of_nat (length (pushed_for ps k t)).
Hypothesis Hfill : 0 ≤ fill.
Hypothesis Hov :
  fill + groups_before n ps base (Z.to_nat W) < size_max.

Lemma W_nonneg : 0 ≤ W.
Proof. unfold W, nkeys. destruct rm; lia. Qed.

Lemma thread_sizes t :
  0 ≤ t < n →
  len t = if decide (t = n - 1) then last_thread_size_of rm base max_key n
          else thread_size_of rm base max_key n.
Proof.
  intros Ht. pose proof W_nonneg as HW.
  destruct (div_slices max_key n Hmk Hn) as [Hd1 Hd2].
  unfold len, slice_len, last_thread_size_of, thread_size_of,
    displacement_of, full_size_of, W, nkeys, wsub, wmul in *.
  destruct rm.
  - rewrite (wrap_small ((n - 1) * _)) by lia.
    rewrite wrap_small by lia. done.
  - rewrite wrap_small by lia. by case_decide.
Qed.

Lemma len_nonneg t : 0 ≤ t < n → 0 ≤ len t.
Proof.
  intros Ht. pose proof W_nonneg as HW.
  destruct (div_slices max_key n Hmk Hn) as [Hd1 Hd2].
  unfold len, slice_len, W, nkeys in *.
  destruct rm; [case_decide|]; lia.
Qed.

Lemma budget_buffers0_lookup (t : nat) :
  Z.of_nat t < n →
  budget_buffers0 !! t
  = Some (replicate (Z.to_nat (len (Z.of_nat t))) 0).
Proof.
  intros Ht. unfold budget_buffers0.
  rewrite thread_sizes by lia. case_decide as Hd.
  - rewrite lookup_app_r by (rewrite length_replicate; lia).
    rewrite length_replicate.
    by replace (t - Z.to_nat (n - 1))%nat with 0%nat by lia.
  - rewrite lookup_app_l by (rewrite length_replicate; lia).
    by rewrite lookup_replicate_2 by lia.
Qed.

Lemma budget_buffers0_length : length budget_buffers0 = Z.to_nat n.
Proof.
  unfold budget_buffers0. rewrite length_app, length_replicate. simpl. lia.
Qed.

Lemma budget_valid_cell (t j : nat) :
  valid_cell (shape budget_buffers0) t j ↔
  Z.of_nat t < n ∧ Z.of_nat j < len (Z.of_nat t).
Proof.
  unfold valid_cell, shape. rewrite list_lookup_fmap. split.
  - intros (k & Hk & Hj).
    destruct (budget_buffers0 !! t) as [tr|] eqn:E; [|done].
    pose proof (lookup_lt_Some _ _ _ E) as Hlt.
    rewrite budget_buffers0_length in Hlt.
    rewrite budget_buffers0_lookup in E by lia.
    injection E as <-. injection Hk as <-.
    rewrite length_replicate in Hj. lia.
  - intros [Ht Hj]. rewrite budget_buffers0_lookup by done. simpl.
    eexists. split; [done|]. rewrite length_replicate. lia.
Qed.

Lemma budget_cell0 (t j : nat) :
  valid_cell (shape budget_buffers0) t j →
  cell budget_buffers0 t j = Some 0.
Proof.
  intros [Ht Hj]%budget_valid_cell. unfold cell.
  rewrite budget_buffers0_lookup by done. simpl.
  apply lookup_replicate_2. lia.
Qed.

Lemma owns_call_cell key tid :
  owns rm base max_key n key tid →
  call_cell rm budget_builder0 key tid
  = (Z.to_nat tid, Z.to_nat (key - lo tid)).
Proof.
  intros Ho. unfold call_cell. simpl. unfold d.
  rewrite (okey_owns rm base max_key n key tid); try done.
  fold W. lia.
Qed.

Lemma owns_valid key tid :
  owns rm base max_key n key tid →
  valid_cell (shape budget_buffers0)
             (call_cell rm budget_builder0 key tid).1
             (call_cell rm budget_builder0 key tid).2.
Proof.
  intros Ho. rewrite owns_call_cell by done. simpl.
  apply budget_valid_cell. destruct Ho as [Ht Hk].
  rewrite !Z2Nat.id by (fold lo in Hk; lia).
  split; [lia|]. fold lo len in Hk. lia.
Qed.

Lemma AddBudgets_budget_builder :
  AddBudgets rm bs budget_builder0 = Some budget_builder.
Proof.
  apply AddBudgets_bumps.
  eapply Forall_impl; [exact Hbs|]. intros [[k t] e] Ho.
  split; [destruct Ho; lia|].
  apply valid_cell_cell. by apply owns_valid.
Qed.

(** Calls addressed to a cell are the calls for one key and thread. *)
Lemma at_cell_pushed_for (t j : nat) :
  at_cell (push_op rm budget_builder0 <$> ps) t j
  = pushed_for ps (lo (Z.of_nat t) + Z.of_nat j) (Z.of_nat t).
Proof.
  clear Hcomp Hov. induction ps as [|[[k v] t'] ps' IH]; [done|].
  apply Forall_cons in Hps as [Ho Hps'].
  rewrite fmap_cons.
  assert (push_op rm budget_builder0 (k, v, t')
          = (Z.to_nat t', Z.to_nat (k - lo t'), v)) as ->.
  { unfold push_op. by rewrite owns_call_cell. }
  rewrite at_cell_cons, IH by done.
  unfold pushed_for at 2. simpl. fold (pushed_for ps').
  destruct Ho as [Ht Hk]. fold lo len in Hk.
  destruct (decide (Z.to_nat t' = t ∧ Z.to_nat (k - lo t') = j))
    as [[H1 H2]|Hne].
  - rewrite decide_True; [done|].
    assert (t' = Z.of_nat t) as -> by lia. split; [lia|done].
  - rewrite decide_False; [done|].
    intros [H1 H2]. apply Hne. subst t'. split; lia.
Qed.

Lemma at_cell_budget_for (t j : nat) :
  sumZ (at_cell (budget_op rm budget_builder0 <$> bs) t j)
  = budget_for bs (lo (Z.of_nat t) + Z.of_nat j) (Z.of_nat t).
Proof.
  clear Hcomp Hov. induction bs as [|[[k t'] e] bs' IH]; [done|].
  apply Forall_cons in Hbs as [Ho Hbs'].
  rewrite fmap_cons.
  assert (budget_op rm budget_builder0 (k, t', e)
          = (Z.to_nat t', Z.to_nat (k - lo t'), e)) as ->.
  { unfold budget_op. by rewrite owns_call_cell. }
  rewrite at_cell_cons. unfold budget_for. simpl.
  fold (budget_for bs' (lo (Z.of_nat t) + Z.of_nat j) (Z.of_nat t)).
  destruct Ho as [Ht Hk]. fold lo len in Hk.
  destruct (decide (Z.to_nat t' = t ∧ Z.to_nat (k - lo t') = j))
    as [[H1 H2]|Hne].
  - rewrite decide_True.
    + simpl. by rewrite IH.
    + assert (t' = Z.of_nat t) as -> by lia. split; [lia|done].
  - rewrite decide_False.
    + by rewrite IH.
    + intros [H1 H2]. apply Hne. subst t'. split; lia.
Qed.

(** *** The counts left by the budget phase *)

Lemma budget_builder_shape :
  shape (thread_rptr_ budget_builder) = shape budget_buffers0.
Proof. apply shape_bumps. Qed.

Lemma valid_key_index (t j : nat) :
  valid_cell (shape budget_buffers0) t j →
  0 ≤ lo (Z.of_nat t) + Z.of_nat j - base < W.
Proof.
  intros [Ht Hj]%budget_valid_cell.
  destruct (div_slices max_key n Hmk Hn) as [Hd1 Hd2].
  unfold lo, len, slice_lo, slice_len, W, nkeys in *.
  destruct rm; [|lia].
  case_decide; [subst; nia|nia].
Qed.

Lemma pushed_for_le_group key (t : nat) :
  Z.of_nat t < n →
  Z.of_nat (length (pushed_for ps key (Z.of_nat t)))
  ≤ Z.of_nat (length (group n ps key)).
Proof.
  intros Ht. rewrite length_group.
  apply (bsum_term_le
           (λ t, Z.of_nat (length (pushed_for ps key (Z.of_nat t)))));
    [intros; lia|lia].
Qed.

Lemma group_le_total (i : nat) :
  Z.of_nat i < W →
  Z.of_nat (length (group n ps (base + Z.of_nat i)))
  ≤ groups_before n ps base (Z.to_nat W).
Proof.
  intros Hi. unfold groups_before.
  apply (bsum_term_le
           (λ i', Z.of_nat (length (group n ps (base + Z.of_nat i')))));
    [intros; lia|lia].
Qed.

Lemma pushed_for_small (t j : nat) :
  valid_cell (shape budget_buffers0) t j →
  Z.of_nat (length (pushed_for ps (lo (Z.of_nat t) + Z.of_nat j)
                               (Z.of_nat t))) < size_max - fill.
Proof.
  intros Hv. pose proof (valid_key_index t j Hv) as Hi.
  apply budget_valid_cell in Hv as [Ht Hj].
  pose proof (pushed_for_le_group (lo (Z.of_nat t) + Z.of_nat j) t Ht).
  pose proof (group_le_total
                (Z.to_nat (lo (Z.of_nat t) + Z.of_nat j - base))
                ltac:(lia)) as Hg.
  replace (base + Z.of_nat (Z.to_nat (lo (Z.of_nat t) + Z.of_nat j - base)))
    with (lo (Z.of_nat t) + Z.of_nat j) in Hg by lia.
  lia.
Qed.

Lemma budget_cell (t j : nat) :
  valid_cell (shape budget_buffers0) t j →
  cell (thread_rptr_ budget_builder) t j
  = Some (Z.of_nat (length (pushed_for ps (lo (Z.of_nat t) + Z.of_nat j)
                                       (Z.of_nat t)))).
Proof.
  intros Hv. simpl. rewrite cell_bumps.
  - rewrite budget_cell0 by done. simpl. f_equal.
    rewrite at_cell_budget_for, Hcomp.
    pose proof (pushed_for_small t j Hv).
    apply wrap_small. lia.
  - intros c. rewrite budget_cell0 by done. by intros [= <-].
Qed.

Lemma budget_counts_ok : counts_ok (thread_rptr_ budget_builder).
Proof.
  intros t j c Hc.
  assert (valid_cell (shape budget_buffers0) t j) as Hv.
  { rewrite <- budget_builder_shape. apply valid_cell_cell. by eexists. }
  rewrite budget_cell in Hc by done. injection Hc as <-. lia.
Qed.

Lemma budget_cnt (t j : nat) :
  valid_cell (shape budget_buffers0) t j →
  cnt (thread_rptr_ budget_builder) t j
  = Z.of_nat (length (pushed_for ps (lo (Z.of_nat t) + Z.of_nat j)
                                 (Z.of_nat t))).
Proof. intros Hv. unfold cnt. by rewrite budget_cell. Qed.

Lemma budget_push_ok :
  Forall (push_ok rm (shape (thread_rptr_ budget_builder)) budget_builder)
         ps.
Proof.
  eapply Forall_impl; [exact Hps|]. intros [[k v] t] Ho.
  split; [destruct Ho; lia|].
  rewrite budget_builder_shape. by apply owns_valid.
Qed.

Lemma budget_pushed (t j : nat) :
  valid_cell (shape (thread_rptr_ budget_builder)) t j →
  pushed (push_op rm budget_builder <$> ps) t j
  = cnt (thread_rptr_ budget_builder) t j.
Proof.
  rewrite budget_builder_shape. intros Hv.
  rewrite budget_cnt by done. unfold pushed.
  change (push_op rm budget_builder) with (push_op rm budget_builder0).
  by rewrite at_cell_pushed_for.
Qed.

Lemma build_budget_phase :
  InitBudget rm max_key n (ParallelGroupBuilder rptr0 data0 base)
    ≫= AddBudgets rm bs
  = Some budget_builder.
Proof.
  rewrite InitBudget_fresh by done. simpl.
  apply AddBudgets_budget_builder.
Qed.


(** *** General mode: the final arrays *)

Section Shared.
Hypothesis Hrm : rm = false.
Hypothesis Hprior : (length rptr0 ≤ Z.to_nat base + 1)%nat.

Let trs := thread_rptr_ budget_builder.

Lemma shared_valid (t j : nat) :
  valid_cell (shape budget_buffers0) t j ↔
  Z.of_nat t < n ∧ Z.of_nat j < W.
Proof.
  rewrite budget_valid_cell. unfold len, slice_len, W, nkeys.
  by rewrite Hrm.
Qed.

Lemma shared_lo t : lo t = base.
Proof. unfold lo, slice_lo. by rewrite Hrm. Qed.

Lemma shared_length : length trs = Z.to_nat n.
Proof.
  rewrite <- length_shape. unfold trs.
  rewrite budget_builder_shape, length_shape.
  apply budget_buffers0_length.
Qed.

Lemma shared_row_total (j : nat) :
  Z.of_nat j < W →
  row_total trs j = Z.of_nat (length (group n ps (base + Z.of_nat j))).
Proof.
  intros Hj. unfold row_total, col_before.
  rewrite shared_length, length_group. apply bsum_ext.
  intros t Ht. unfold trs. rewrite budget_cnt.
  - by rewrite shared_lo.
  - apply shared_valid. lia.
Qed.

Lemma shared_rows_before (i : nat) :
  Z.of_nat i ≤ W → rows_before trs i = groups_before n ps base i.
Proof.
  intros Hi. unfold rows_before, groups_before.
  apply bsum_ext. intros j Hj. apply shared_row_total. lia.
Qed.

Lemma shared_rows_needed :
  rows_needed (Z.to_nat base) trs = (Z.to_nat W + Z.to_nat base + 1)%nat.
Proof.
  unfold rows_needed. apply max_list_const.
  - intros E. apply (f_equal length) in E.
    rewrite shared_length in E. simpl in E. lia.
  - intros tr [t Ht]%list_elem_of_lookup.
    pose proof (lookup_lt_Some _ _ _ Ht) as Hlt.
    rewrite shared_length in Hlt.
    assert (shape trs !! t = Some (length tr)) as Hs.
    { unfold shape. by rewrite list_lookup_fmap, Ht. }
    unfold trs in Hs. rewrite budget_builder_shape in Hs.
    unfold shape in Hs.
    rewrite list_lookup_fmap, budget_buffers0_lookup in Hs by lia.
    simpl in Hs. injection Hs as Hs. rewrite length_replicate in Hs.
    rewrite <- Hs. unfold len, slice_len, W, nkeys. by rewrite Hrm.
Qed.

Lemma shared_general_rptr :
  general_rptr budget_builder = spec_rptr n ps rptr0 base W.
Proof.
  pose proof W_nonneg as HW.
  unfold general_rptr, spec_rptr.
  change (thread_rptr_ budget_builder) with trs.
  change (rptr_ budget_builder) with rptr0.
  change (base_row_offset_ budget_builder) with base.
  fold fill. rewrite shared_rows_needed.
  replace (length rptr0 `max` (Z.to_nat W + Z.to_nat base + 1))%nat
    with ((Z.to_nat base + 1) + Z.to_nat W)%nat by lia.
  rewrite resize_add, (drop_ge rptr0), resize_nil by lia.
  rewrite imap_app, length_resize.
  replace (Z.to_nat base + 1 + Z.to_nat W - 1 - Z.to_nat base)%nat
    with (Z.to_nat W) by lia.
  f_equal.
  - apply list_eq; intros k. rewrite list_lookup_imap.
    destruct (resize _ _ _ !! k) as [x|] eqn:E; [|done]. simpl.
    apply lookup_lt_Some in E. rewrite length_resize in E.
    unfold gen_offset. by rewrite decide_False by lia.
  - apply list_eq; intros k.
    rewrite list_lookup_imap, list_lookup_fmap.
    destruct (decide (k < Z.to_nat W)%nat) as [Hk|Hk].
    + rewrite lookup_replicate_2, lookup_seq_lt by done. simpl.
      f_equal. unfold gen_offset. rewrite decide_True by lia.
      replace (Z.to_nat base + 1 + k - Z.to_nat base)%nat
        with (S k) by lia.
      rewrite shared_rows_before by lia.
      apply wrap_small.
      pose proof (groups_before_nonneg n ps base (S k)).
      pose proof (groups_before_mono n ps base (S k) (Z.to_nat W)
                    ltac:(lia)).
      lia.
    + rewrite lookup_seq_ge by lia.
      by rewrite (proj1 (lookup_replicate_None _ _ _)) by lia.
Qed.

Lemma shared_build :
  ∃ b4, build dflt rm rptr0 data0 base max_key n bs ps = Some b4 ∧
        rptr_ b4 = spec_rptr n ps rptr0 base W ∧
        data_ b4 = spec_data dflt n ps rptr0 data0 base W.
Proof.
  pose proof W_nonneg as HW.
  pose proof budget_counts_ok as Hcnt.
  assert (Hok : Forall (push_ok false (shape trs) budget_builder) ps)
    by (rewrite <- Hrm; exact budget_push_ok).
  assert (Hpushed : ∀ t j, valid_cell (shape trs) t j →
            pushed (push_op false budget_builder <$> ps) t j
            = cnt trs t j)
    by (rewrite <- Hrm; exact budget_pushed).
  set (total := groups_before n ps base (Z.to_nat W)).
  pose proof (groups_before_nonneg n ps base (Z.to_nat W)) as Htot0.
  fold total in Htot0, Hov.
  assert (HN : (length rptr0 `max` rows_needed (Z.to_nat base) trs)%nat
               = (Z.to_nat W + Z.to_nat base + 1)%nat)
    by (rewrite shared_rows_needed; lia).
  assert (Hm : (Z.to_nat W + Z.to_nat base + 1 - 1 - Z.to_nat base)%nat
               = Z.to_nat W) by lia.
  assert (Htot : rows_before trs (Z.to_nat W) = total)
    by (apply shared_rows_before; lia).
  pose proof (shared_storage_pushes dflt budget_builder ps) as HSP.
  pose proof (shared_run_layout budget_builder) as Hlay.
  change (thread_rptr_ budget_builder) with trs in HSP, Hlay.
  change (rptr_ budget_builder) with rptr0 in HSP, Hlay.
  change (base_row_offset_ budget_builder) with base in HSP, Hlay.
  change (data_ budget_builder) with data0 in HSP.
  fold fill in HSP, Hlay.
  rewrite HN, Hm, Htot in HSP, Hlay.
  specialize (Hlay Hcnt ltac:(lia) Hfill Hov).
  destruct HSP as (b3 & b4 & HS & HP & Hr3 & Hr4 & Hd3 & Hc3 & Hinv);
    try done; try lia.
  { intros t j Hv. by rewrite Hpushed. }
  exists b4. split; [|split].
  - rewrite build_phases, build_budget_phase, Hrm.
    change (InitStorage dflt false budget_builder ≫= Pushes false ps
            = Some b4).
    rewrite HS. exact HP.
  - rewrite Hr4. apply shared_general_rptr.
  - rewrite (slice_all (data_ b4) fill total);
      [|done|apply (pi_length _ _ _ _ _ _ _ _ _ _ Hinv)].
    unfold spec_data. fold fill. f_equal.
    + rewrite (push_inv_frame _ _ _ _ _ _ _ _ _ _ Hlay Hinv).
      * rewrite Hd3. apply take_vresize_le. lia.
      * rewrite Hd3. unfold vresize. rewrite length_resize. lia.
    + rewrite <- Htot. unfold rows_before.
      rewrite slice_tiles; [|done|intros; by apply row_total_nonneg].
      apply (f_equal mjoin).
      apply list_fmap_ext. intros j ? [-> Hj]%lookup_seq.
      simpl.
      assert (row_total trs j = bsum (λ t, cnt trs t j) (Z.to_nat n))
        as -> by (unfold row_total, col_before; by rewrite shared_length).
      rewrite slice_tiles;
        [|pose proof (rows_before_nonneg trs Hcnt j) as Hrb;
          unfold rows_before in Hrb; lia
         |intros; by apply cnt_nonneg].
      unfold group. apply (f_equal mjoin).
      apply list_fmap_ext. intros t ? [-> Ht]%lookup_seq. simpl.
      assert (Hv : valid_cell (shape trs) t j).
      { unfold trs. rewrite budget_builder_shape.
        apply shared_valid. lia. }
      pose proof (push_inv_slice _ _ _ _ _ _ _ _ _ _ t j Hlay Hinv Hv
                    (Hpushed t j Hv)) as Hsl.
      unfold shared_start in Hsl.
      fold (col_before trs t j). fold (rows_before trs j).
      simpl. rewrite Hsl.
      pose proof (at_cell_pushed_for t j) as Hat.
      rewrite shared_lo, Hrm in Hat. exact Hat.
Qed.

Lemma shared_run (ps1 ps2 : list (@push_call V)) :
  ps = ps1 ++ ps2 →
  let total := groups_before n ps base (Z.to_nat W) in
  ∃ b3 b',
    InitStorage dflt rm budget_builder = Some b3 ∧
    Pushes rm ps1 b3 = Some b' ∧
    rptr_ b3 = spec_rptr n ps rptr0 base W ∧
    rptr_ b' = spec_rptr n ps rptr0 base W ∧
    data_ b3 = vresize (fill + total) dflt data0 ∧
    layout (region_start rm trs fill) (cnt trs) (shape trs) fill total ∧
    (∀ t j, valid_cell (shape trs) t j →
            cell (thread_rptr_ b3) t j
            = Some (region_start rm trs fill t j)) ∧
    push_inv (region_start rm trs fill) (cnt trs) (shape trs) fill total
             (data_ b3) (push_op rm budget_builder <$> ps1)
             (thread_rptr_ b') (data_ b') (push_slots rm ps1 b3) ∧
    (∀ x, fill ≤ x < fill + total →
          ∃ t j, valid_cell (shape trs) t j ∧
                 region_start rm trs fill t j ≤ x
                   < region_start rm trs fill t j + cnt trs t j).
Proof.
  intros Hsplit total.
  pose proof W_nonneg as HW.
  pose proof budget_counts_ok as Hcnt.
  pose proof budget_push_ok as Hok.
  pose proof budget_pushed as Hpushed.
  rewrite Hrm in Hok, Hpushed |- *. unfold region_start.
  assert (Hok1 : Forall (push_ok false (shape trs) budget_builder) ps1).
  { rewrite Hsplit in Hok. by apply Forall_app in Hok as [? _]. }
  assert (Hle : ∀ t j, valid_cell (shape trs) t j →
            pushed (push_op false budget_builder <$> ps1) t j
            ≤ cnt trs t j).
  { intros t j Hv. rewrite <- Hpushed by done. unfold pushed.
    rewrite Hsplit, fmap_app, at_cell_app, length_app. lia. }
  pose proof (groups_before_nonneg n ps base (Z.to_nat W)) as Htot0.
  fold total in Htot0, Hov.
  assert (HN : (length rptr0 `max` rows_needed (Z.to_nat base) trs)%nat
               = (Z.to_nat W + Z.to_nat base + 1)%nat)
    by (rewrite shared_rows_needed; lia).
  assert (Hm : (Z.to_nat W + Z.to_nat base + 1 - 1 - Z.to_nat base)%nat
               = Z.to_nat W) by lia.
  assert (Htot : rows_before trs (Z.to_nat W) = total)
    by (apply shared_rows_before; lia).
  pose proof (shared_storage_pushes dflt budget_builder ps1) as HSP.
  pose proof (shared_run_layout budget_builder) as Hlay.
  pose proof (general_cursors_cell budget_builder) as Hcell.
  change (thread_rptr_ budget_builder) with trs in HSP, Hlay, Hcell.
  change (rptr_ budget_builder) with rptr0 in HSP, Hlay, Hcell.
  change (base_row_offset_ budget_builder) with base in HSP, Hlay, Hcell.
  change (data_ budget_builder) with data0 in HSP.
  fold fill in HSP, Hlay, Hcell.
  rewrite HN, Hm, Htot in HSP, Hlay, Hcell.
  specialize (Hlay Hcnt ltac:(lia) Hfill Hov).
  specialize (Hcell Hcnt ltac:(lia) Hfill Hov).
  destruct HSP as (b3 & b4 & HS & HP & Hr3 & Hr4 & Hd3 & Hc3 & Hinv);
    try done; try lia.
  exists b3, b4.
  split; [done|]. split; [done|].
  split; [rewrite Hr3; apply shared_general_rptr|].
  split; [rewrite Hr4; apply shared_general_rptr|].
  split; [done|]. split; [done|].
  split; [intros t j Hv; rewrite Hc3; by apply Hcell|].
  split; [done|].
  intros x Hx. rewrite <- Htot in Hx. by apply shared_cover in Hx.
Qed.

Lemma shared_storage_length :
  ∃ b3, InitStorage dflt rm budget_builder = Some b3 ∧
        length (rptr_ b3) = (Z.to_nat base + 1 + Z.to_nat W)%nat.
Proof.
  pose proof W_nonneg as HW.
  pose proof shared_rows_needed as Hrn. unfold trs in Hrn.
  destruct (InitStorage_general_length dflt budget_builder)
    as (b3 & HS & Hl).
  - done.
  - change (base_row_offset_ budget_builder) with base.
    rewrite Hrn. lia.
  - change (base_row_offset_ budget_builder) with base.
    change (rptr_ budget_builder) with rptr0.
    rewrite Hrn. lia.
  - exists b3. split; [by rewrite Hrm|]. rewrite Hl.
    change (base_row_offset_ budget_builder) with base.
    change (rptr_ budget_builder) with rptr0.
    rewrite Hrn. lia.
Qed.
End Shared.


(** *** Row-major mode: the final arrays *)

Section RowMajor.
Hypothesis Hrm : rm = true.
Hypothesis Hprior : (length rptr0 ≤ Z.to_nat base + 1)%nat.

Let trs := thread_rptr_ budget_builder.
Let flat := mjoin trs.
Let q := max_key `div` n.

Lemma rm_W : W = max_key.
Proof. unfold W, nkeys. by rewrite Hrm. Qed.

Lemma rm_lo t : lo t = base + t * q.
Proof. unfold lo, slice_lo. by rewrite Hrm. Qed.

Lemma rm_len t :
  len t = if decide (t = n - 1) then max_key - (n - 1) * q else q.
Proof. unfold len, slice_len. by rewrite Hrm. Qed.

Lemma rm_q : 0 ≤ q ∧ 0 ≤ (n - 1) * q ≤ max_key.
Proof. by apply div_slices. Qed.

Lemma rm_shape :
  shape trs = replicate (Z.to_nat (n - 1)) (Z.to_nat q)
              ++ [Z.to_nat (max_key - (n - 1) * q)].
Proof.
  unfold trs. rewrite budget_builder_shape.
  unfold shape, budget_buffers0.
  rewrite fmap_app, fmap_replicate. simpl. rewrite !length_replicate.
  assert (thread_size_of rm base max_key n = q) as ->.
  { unfold thread_size_of, displacement_of, full_size_of.
    by rewrite Hrm. }
  assert (last_thread_size_of rm base max_key n
          = max_key - (n - 1) * q) as ->; [|done].
  pose proof (thread_sizes (n - 1) ltac:(lia)) as H1.
  rewrite rm_len in H1. by rewrite !decide_True in H1 by done.
Qed.

Lemma rm_flat_index (t j : nat) :
  Z.of_nat t ≤ n - 1 →
  flat_index (shape trs) t j = (t * Z.to_nat q + j)%nat.
Proof.
  intros Ht. unfold flat_index. rewrite rm_shape.
  rewrite take_app_le by (rewrite length_replicate; lia).
  rewrite take_replicate, Nat.min_l by lia.
  by rewrite sum_list_replicate.
Qed.

Lemma rm_flat_length : length flat = Z.to_nat W.
Proof.
  unfold flat. rewrite length_mjoin_shape, rm_shape.
  rewrite sum_list_with_app, sum_list_replicate. simpl.
  rewrite rm_W. pose proof rm_q. nia.
Qed.

(** The thread owning the [i]-th key of the build, and the key's
    index in that thread's buffer. *)
Definition rm_owner (i : nat) : nat :=
  if decide (Z.of_nat i < (n - 1) * q)
  then Z.to_nat (Z.of_nat i `div` q) else Z.to_nat (n - 1).

Definition rm_local (i : nat) : nat :=
  (i - rm_owner i * Z.to_nat q)%nat.

Lemma rm_owner_spec (i : nat) :
  Z.of_nat i < W →
  Z.of_nat (rm_owner i) ≤ n - 1 ∧
  Z.of_nat (rm_owner i) * q ≤ Z.of_nat i ∧
  Z.of_nat i - Z.of_nat (rm_owner i) * q < len (Z.of_nat (rm_owner i)).
Proof.
  intros Hi. rewrite rm_W in Hi. pose proof rm_q as [Hq1 Hq2].
  unfold rm_owner. rewrite rm_len. case_decide as Hd.
  - assert (0 < q) by nia.
    pose proof (Z.div_mod (Z.of_nat i) q ltac:(lia)) as Hdm.
    pose proof (Z.mod_pos_bound (Z.of_nat i) q ltac:(lia)) as Hmod.
    pose proof (Z.div_pos (Z.of_nat i) q ltac:(lia) ltac:(lia)) as Hdp.
    assert (Z.of_nat i `div` q < n - 1) by nia.
    rewrite Z2Nat.id by lia.
    rewrite decide_False by lia. split; [lia|]. split; nia.
  - rewrite Z2Nat.id by lia. rewrite decide_True by done.
    split; [lia|]. split; lia.
Qed.

Lemma rm_owner_valid (i : nat) :
  Z.of_nat i < W →
  valid_cell (shape trs) (rm_owner i) (rm_local i) ∧
  flat_index (shape trs) (rm_owner i) (rm_local i) = i ∧
  lo (Z.of_nat (rm_owner i)) + Z.of_nat (rm_local i)
    = base + Z.of_nat i.
Proof.
  intros Hi. destruct (rm_owner_spec i Hi) as (H1 & H2 & H3).
  pose proof rm_q as [Hq1 Hq2].
  assert (Hl : Z.of_nat (rm_local i)
               = Z.of_nat i - Z.of_nat (rm_owner i) * q).
  { unfold rm_local. nia. }
  split; [|split].
  - unfold trs. rewrite budget_builder_shape.
    apply budget_valid_cell. split; lia.
  - rewrite rm_flat_index by done. unfold rm_local. nia.
  - rewrite rm_lo. lia.
Qed.

Lemma rm_group_owner (i : nat) :
  Z.of_nat i < W →
  group n ps (base + Z.of_nat i)
  = pushed_for ps (base + Z.of_nat i) (Z.of_nat (rm_owner i)).
Proof.
  intros Hi. destruct (rm_owner_spec i Hi) as (H1 & H2 & H3).
  unfold group.
  rewrite (mjoin_single _ _ (rm_owner i)); [done|lia|].
  intros t Ht Hne. apply pushed_for_nil.
  eapply Forall_impl; [exact Hps|].
  intros [[k v] t'] Ho -> ->. apply Hne.
  assert (owns rm base max_key n (base + Z.of_nat i)
            (Z.of_nat (rm_owner i))) as Ho'.
  { split; [lia|]. fold lo len. rewrite rm_lo. lia. }
  rewrite Hrm in Ho, Ho'.
  pose proof (owns_unique _ _ _ _ _ _ Hmk Hn Ho Ho'). lia.
Qed.

Lemma rm_flat_lookup (i : nat) :
  Z.of_nat i < W →
  flat !! i
  = Some (Z.of_nat (length (group n ps (base + Z.of_nat i)))).
Proof.
  intros Hi. destruct (rm_owner_valid i Hi) as (Hv & Hf & Hk).
  rewrite rm_group_owner by done.
  rewrite <- Hf at 1. unfold flat. rewrite <- cell_flat by done.
  unfold trs in *. rewrite budget_builder_shape in Hv.
  rewrite budget_cell by done. by rewrite Hk.
Qed.

Lemma rm_prefix (i : nat) :
  Z.of_nat i ≤ W → sumZ (take i flat) = groups_before n ps base i.
Proof.
  intros Hi. apply sumZ_take_bsum. intros k Hk.
  apply rm_flat_lookup. lia.
Qed.

Lemma rm_total : sumZ flat = groups_before n ps base (Z.to_nat W).
Proof.
  pose proof W_nonneg.
  rewrite <- rm_prefix by lia.
  by rewrite <- rm_flat_length, firstn_all.
Qed.

Lemma rm_row_major_rptr :
  row_major_rptr budget_builder = spec_rptr n ps rptr0 base W.
Proof.
  pose proof W_nonneg as HW.
  unfold row_major_rptr, spec_rptr.
  change (thread_rptr_ budget_builder) with trs.
  change (rptr_ budget_builder) with rptr0.
  change (base_row_offset_ budget_builder) with base.
  fold flat fill. f_equal.
  apply list_eq; intros k. rewrite !list_lookup_fmap.
  destruct (decide (k < Z.to_nat W)%nat) as [Hk|Hk].
  - rewrite lookup_psums, lookup_seq_lt by (rewrite ?rm_flat_length; lia).
    simpl. f_equal. rewrite rm_prefix by lia.
    apply wrap_small.
    pose proof (groups_before_nonneg n ps base (S k)).
    pose proof (groups_before_mono n ps base (S k) (Z.to_nat W)
                  ltac:(lia)).
    lia.
  - rewrite lookup_seq_ge by lia.
    rewrite (lookup_ge_None_2 (psums 0 flat))
      by (rewrite length_psums, rm_flat_length; lia).
    done.
Qed.

Lemma row_major_build :
  ∃ b4, build dflt rm rptr0 data0 base max_key n bs ps = Some b4 ∧
        rptr_ b4 = spec_rptr n ps rptr0 base W ∧
        data_ b4 = spec_data dflt n ps rptr0 data0 base W.
Proof.
  pose proof W_nonneg as HW.
  pose proof budget_counts_ok as Hcnt.
  assert (Hok : Forall (push_ok true (shape trs) budget_builder) ps)
    by (rewrite <- Hrm; exact budget_push_ok).
  assert (Hpushed : ∀ t j, valid_cell (shape trs) t j →
            pushed (push_op true budget_builder <$> ps) t j
            = cnt trs t j)
    by (rewrite <- Hrm; exact budget_pushed).
  set (total := groups_before n ps base (Z.to_nat W)).
  pose proof (groups_before_nonneg n ps base (Z.to_nat W)) as Htot0.
  fold total in Htot0, Hov.
  pose proof rm_total as Htot. fold total in Htot.
  pose proof (row_major_storage_pushes dflt budget_builder ps) as HSP.
  pose proof (row_major_run_layout budget_builder) as Hlay.
  change (thread_rptr_ budget_builder) with trs in HSP, Hlay.
  change (rptr_ budget_builder) with rptr0 in HSP, Hlay.
  change (base_row_offset_ budget_builder) with base in HSP, Hlay.
  change (data_ budget_builder) with data0 in HSP.
  fold fill flat in HSP, Hlay.
  rewrite Htot in HSP, Hlay.
  specialize (Hlay Hcnt Hfill Hov).
  destruct HSP as (b3 & b4 & HS & HP & Hr3 & Hr4 & Hd3 & Hc3 & Hinv);
    try done; try (rewrite ?rm_flat_length; lia).
  { intros t j Hv. by rewrite Hpushed. }
  exists b4. split; [|split].
  - rewrite build_phases, build_budget_phase, Hrm.
    change (InitStorage dflt true budget_builder ≫= Pushes true ps
            = Some b4).
    rewrite HS. exact HP.
  - rewrite Hr4. apply rm_row_major_rptr.
  - rewrite (slice_all (data_ b4) fill total);
      [|done|apply (pi_length _ _ _ _ _ _ _ _ _ _ Hinv)].
    unfold spec_data. fold fill. f_equal.
    + rewrite (push_inv_frame _ _ _ _ _ _ _ _ _ _ Hlay Hinv).
      * rewrite Hd3. apply take_vresize_le. lia.
      * rewrite Hd3. unfold vresize. rewrite length_resize. lia.
    + unfold total, groups_before.
      rewrite slice_tiles; [|done|intros; lia].
      apply (f_equal mjoin).
      apply list_fmap_ext. intros i ? [-> Hi]%lookup_seq. simpl.
      destruct (rm_owner_valid i ltac:(lia)) as (Hv & Hf & Hk).
      pose proof (push_inv_slice _ _ _ _ _ _ _ _ _ _ _ _ Hlay Hinv Hv
                    (Hpushed _ _ Hv)) as Hsl.
      unfold row_major_start in Hsl. fold flat in Hsl.
      rewrite Hf, rm_prefix in Hsl by lia.
      assert (cnt trs (rm_owner i) (rm_local i)
              = Z.of_nat (length (group n ps (base + Z.of_nat i))))
        as Hc.
      { apply cnt_valid. rewrite cell_flat by done. fold flat.
        rewrite Hf. apply rm_flat_lookup. lia. }
      rewrite Hc in Hsl. unfold groups_before in Hsl. rewrite Hsl.
      pose proof (at_cell_pushed_for (rm_owner i) (rm_local i)) as Hat.
      rewrite Hk, Hrm in Hat.
      rewrite rm_group_owner by lia. exact Hat.
Qed.

Lemma row_major_run (ps1 ps2 : list (@push_call V)) :
  ps = ps1 ++ ps2 →
  let total := groups_before n ps base (Z.to_nat W) in
  ∃ b3 b',
    InitStorage dflt rm budget_builder = Some b3 ∧
    Pushes rm ps1 b3 = Some b' ∧
    rptr_ b3 = spec_rptr n ps rptr0 base W ∧
    rptr_ b' = spec_rptr n ps rptr0 base W ∧
    data_ b3 = vresize (fill + total) dflt data0 ∧
    layout (region_start rm trs fill) (cnt trs) (shape trs) fill total ∧
    (∀ t j, valid_cell (shape trs) t j →
            cell (thread_rptr_ b3) t j
            = Some (region_start rm trs fill t j)) ∧
    push_inv (region_start rm trs fill) (cnt trs) (shape trs) fill total
             (data_ b3) (push_op rm budget_builder <$> ps1)
             (thread_rptr_ b') (data_ b') (push_slots rm ps1 b3) ∧
    (∀ x, fill ≤ x < fill + total →
          ∃ t j, valid_cell (shape trs) t j ∧
                 region_start rm trs fill t j ≤ x
                   < region_start rm trs fill t j + cnt trs t j).
Proof.
  intros Hsplit total.
  pose proof W_nonneg as HW.
  pose proof budget_counts_ok as Hcnt.
  pose proof budget_push_ok as Hok.
  pose proof budget_pushed as Hpushed.
  rewrite Hrm in Hok, Hpushed |- *. unfold region_start.
  assert (Hok1 : Forall (push_ok true (shape trs) budget_builder) ps1).
  { rewrite Hsplit in Hok. by apply Forall_app in Hok as [? _]. }
  assert (Hle : ∀ t j, valid_cell (shape trs) t j →
            pushed (push_op true budget_builder <$> ps1) t j
            ≤ cnt trs t j).
  { intros t j Hv. rewrite <- Hpushed by done. unfold pushed.
    rewrite Hsplit, fmap_app, at_cell_app, length_app. lia. }
  pose proof (groups_before_nonneg n ps base (Z.to_nat W)) as Htot0.
  fold total in Htot0, Hov.
  pose proof rm_total as Htot. fold total in Htot.
  pose proof (row_major_storage_pushes dflt budget_builder ps1) as HSP.
  pose proof (row_major_run_layout budget_builder) as Hlay.
  pose proof (row_major_cursors_cell budget_builder) as Hcell.
  change (thread_rptr_ budget_builder) with trs in HSP, Hlay, Hcell.
  change (rptr_ budget_builder) with rptr0 in HSP, Hlay, Hcell.
  change (base_row_offset_ budget_builder) with base in HSP, Hlay, Hcell.
  change (data_ budget_builder) with data0 in HSP.
  fold fill flat in HSP, Hlay, Hcell.
  rewrite Htot in HSP, Hlay, Hcell.
  specialize (Hlay Hcnt Hfill Hov).
  specialize (Hcell Hcnt Hprior ltac:(rewrite rm_flat_length; lia)
                Hfill Hov).
  destruct HSP as (b3 & b4 & HS & HP & Hr3 & Hr4 & Hd3 & Hc3 & Hinv);
    try done; try (rewrite ?rm_flat_length; lia).
  exists b3, b4.
  split; [done|]. split; [done|].
  split; [rewrite Hr3; apply rm_row_major_rptr|].
  split; [rewrite Hr4; apply rm_row_major_rptr|].
  split; [done|]. split; [done|].
  split; [intros t j Hv; rewrite Hc3; by apply Hcell|].
  split; [done|].
  intros x Hx. rewrite <- Htot in Hx. by apply row_major_cover in Hx.
Qed.

Lemma row_major_storage_length :
  ∃ b3, InitStorage dflt rm budget_builder = Some b3 ∧
        length (rptr_ b3) = (Z.to_nat base + 1 + Z.to_nat W)%nat.
Proof.
  pose proof W_nonneg as HW.
  pose proof rm_flat_length as Hfl. unfold flat, trs in Hfl.
  destruct (InitStorage_row_major_length dflt budget_builder)
    as (b3 & HS & Hl).
  - done.
  - done.
  - change (base_row_offset_ budget_builder) with base.
    rewrite Hfl. lia.
  - exists b3. split; [by rewrite Hrm|]. rewrite Hl.
    change (base_row_offset_ budget_builder) with base.
    by rewrite Hfl.
Qed.
End RowMajor.

(** *** Both modes *)

Hypothesis Hprior : (length rptr0 ≤ Z.to_nat base + 1)%nat.

Lemma build_spec :
  ∃ b4, build dflt rm rptr0 data0 base max_key n bs ps = Some b4 ∧
        rptr_ b4 = spec_rptr n ps rptr0 base W ∧
        data_ b4 = spec_data dflt n ps rptr0 data0 base W.
Proof.
  destruct (bool_dec rm true) as [Hrm|Hrm].
  - by apply row_major_build.
  - apply shared_build; [|done]. by destruct rm.
Qed.



Lemma build_run (ps1 ps2 : list (@push_call V)) :
  ps = ps1 ++ ps2 →
  let trs := thread_rptr_ budget_builder in
  let total := groups_before n ps base (Z.to_nat W) in
  ∃ b3 b',
    InitStorage dflt rm budget_builder = Some b3 ∧
    Pushes rm ps1 b3 = Some b' ∧
    rptr_ b3 = spec_rptr n ps rptr0 base W ∧
    rptr_ b' = spec_rptr n ps rptr0 base W ∧
    data_ b3 = vresize (fill + total) dflt data0 ∧
    layout (region_start rm trs fill) (cnt trs) (shape trs) fill total ∧
    (∀ t j, valid_cell (shape trs) t j →
            cell (thread_rptr_ b3) t j
            = Some (region_start rm trs fill t j)) ∧
    push_inv (region_start rm trs fill) (cnt trs) (shape trs) fill total
             (data_ b3) (push_op rm budget_builder <$> ps1)
             (thread_rptr_ b') (data_ b') (push_slots rm ps1 b3) ∧
    (∀ x, fill ≤ x < fill + total →
          ∃ t j, valid_cell (shape trs) t j ∧
                 region_start rm trs fill t j ≤ x
                   < region_start rm trs fill t j + cnt trs t j).
Proof.
  intros Hsplit. destruct (bool_dec rm true) as [Hrm|Hrm].
  - by apply (row_major_run Hrm Hprior ps1 ps2).
  - apply (shared_run ltac:(by destruct rm) Hprior ps1 ps2). done.
Qed.

Lemma storage_length :
  ∃ b3, InitStorage dflt rm budget_builder = Some b3 ∧
        length (rptr_ b3) = (Z.to_nat base + 1 + Z.to_nat W)%nat.
Proof.
  destruct (bool_dec rm true) as [Hrm|Hrm].
  - by apply row_major_storage_length.
  - apply shared_storage_length; [|done]. by destruct rm.
Qed.
(** *** The regions reserved for the (key, thread) pairs *)

Lemma owns_cursor (bd : Builder V) key tid :
  base_row_offset_ bd = base → thread_displacement_ bd = d →
  owns rm base max_key n key tid →
  cursor rm bd key tid
  = cell (thread_rptr_ bd) (Z.to_nat tid) (Z.to_nat (key - lo tid)).
Proof.
  intros Hb Hd Ho. rewrite cursor_cell by (destruct Ho; lia).
  assert (call_cell rm bd key tid = call_cell rm budget_builder0 key tid)
    as -> by (unfold call_cell; by rewrite Hb, Hd).
  by rewrite owns_call_cell.
Qed.

Lemma owns_cell_valid key tid :
  owns rm base max_key n key tid →
  valid_cell (shape (thread_rptr_ budget_builder))
             (Z.to_nat tid) (Z.to_nat (key - lo tid)).
Proof.
  intros Ho. rewrite budget_builder_shape.
  pose proof (owns_valid key tid Ho) as Hv.
  by rewrite owns_call_cell in Hv.
Qed.

Lemma owns_cnt key tid :
  owns rm base max_key n key tid →
  cnt (thread_rptr_ budget_builder)
      (Z.to_nat tid) (Z.to_nat (key - lo tid))
  = budget_for bs key tid.
Proof.
  intros Ho. pose proof (owns_cell_valid key tid Ho) as Hv.
  rewrite budget_builder_shape in Hv.
  rewrite budget_cnt, Hcomp by done.
  destruct Ho as [Ht Hk]. fold lo in Hk.
  rewrite !Z2Nat.id by lia. do 3 f_equal. lia.
Qed.


(** *** Cursors and values during the pushes *)

Lemma at_cell_pushes (qs : list (@push_call V)) (t j : nat) :
  Forall (λ '(k, _, t), owns rm base max_key n k t) qs →
  at_cell (push_op rm budget_builder0 <$> qs) t j
  = pushed_for qs (lo (Z.of_nat t) + Z.of_nat j) (Z.of_nat t).
Proof.
  induction 1 as [|[[k v] t'] qs' Ho _ IH]; [done|].
  rewrite fmap_cons.
  assert (push_op rm budget_builder0 (k, v, t')
          = (Z.to_nat t', Z.to_nat (k - lo t'), v)) as ->.
  { unfold push_op. by rewrite owns_call_cell. }
  rewrite at_cell_cons, IH.
  unfold pushed_for at 2. simpl. fold (pushed_for qs').
  destruct Ho as [Ht Hk]. fold lo len in Hk.
  destruct (decide (Z.to_nat t' = t ∧ Z.to_nat (k - lo t') = j))
    as [[H1 H2]|Hne].
  - rewrite decide_True; [done|].
    assert (t' = Z.of_nat t) as -> by lia. split; [lia|done].
  - rewrite decide_False; [done|].
    intros [H1 H2]. apply Hne. subst t'. split; lia.
Qed.

Lemma owns_key_back key tid :
  owns rm base max_key n key tid →
  lo (Z.of_nat (Z.to_nat tid)) + Z.of_nat (Z.to_nat (key - lo tid)) = key ∧
  Z.of_nat (Z.to_nat tid) = tid.
Proof.
  intros [Ht Hk]. fold lo in Hk. rewrite !Z2Nat.id by lia. lia.
Qed.

Lemma valid_cell_owns (t j : nat) :
  valid_cell (shape (thread_rptr_ budget_builder)) t j →
  owns rm base max_key n (lo (Z.of_nat t) + Z.of_nat j) (Z.of_nat t) ∧
  Z.to_nat (Z.of_nat t) = t ∧
  Z.to_nat (lo (Z.of_nat t) + Z.of_nat j - lo (Z.of_nat t)) = j.
Proof.
  rewrite budget_builder_shape. intros [Ht Hj]%budget_valid_cell.
  split; [|lia]. split; [lia|]. fold lo len. lia.
Qed.

Lemma cursors_run (ps1 ps2 : list (@push_call V)) :
  ps = ps1 ++ ps2 →
  ∃ b3 b',
    InitStorage dflt rm budget_builder = Some b3 ∧
    Pushes rm ps1 b3 = Some b' ∧
    ∀ k t, owns rm base max_key n k t →
      ∃ c, cursor rm b3 k t = Some c ∧
           cursor rm b' k t
           = Some (c + Z.of_nat (length (pushed_for ps1 k t))) ∧
           ∀ i v, pushed_for ps1 k t !! i = Some v →
                  data_ b' !! Z.to_nat (c + Z.of_nat i) = Some v.
Proof.
  intros Hsplit.
  destruct (build_run ps1 ps2 Hsplit)
    as (b3 & b' & H3 & H4 & _ & _ & _ & _ & Hcur & Hinv & _).
  destruct (InitStorage_params _ _ _ _ H3) as [Hb3 Hdisp3].
  destruct (Pushes_params _ _ _ _ H4) as [Hb' Hdisp'].
  rewrite Hb3 in Hb'. rewrite Hdisp3 in Hdisp'.
  simpl in Hb3, Hdisp3, Hb', Hdisp'.
  pose proof Hps as Hps1. rewrite Hsplit in Hps1.
  apply Forall_app in Hps1 as [Hps1 _].
  exists b3, b'. split; [done|]. split; [done|].
  intros k t Ho. pose proof (owns_cell_valid k t Ho) as Hv.
  destruct (owns_key_back k t Ho) as [Hk Ht].
  exists (region_start rm (thread_rptr_ budget_builder) fill
            (Z.to_nat t) (Z.to_nat (k - lo t))).
  rewrite !owns_cursor by done. rewrite Hcur by done.
  split; [done|].
  change (push_op rm budget_builder) with (push_op rm budget_builder0)
    in Hinv.
  split.
  - rewrite (pi_cursor _ _ _ _ _ _ _ _ _ _ Hinv _ _ Hv). unfold pushed.
    by rewrite at_cell_pushes, Hk, Ht by done.
  - intros i v Hi.
    apply (pi_data _ _ _ _ _ _ _ _ _ _ Hinv _ _ i v Hv).
    by rewrite at_cell_pushes, Hk, Ht by done.
Qed.

Lemma overrun_run key tid value :
  owns rm base max_key n key tid →
  ∃ b3 b4 c,
    InitStorage dflt rm budget_builder = Some b3 ∧
    Pushes rm ps b3 = Some b4 ∧
    cursor rm b3 key tid = Some c ∧
    cursor rm b4 key tid = Some (c + budget_for bs key tid) ∧
    c + budget_for bs key tid ≤ Z.of_nat (length (data_ b4)) ∧
    (c + budget_for bs key tid = Z.of_nat (length (data_ b4)) →
     Push rm key value tid b4 = None) ∧
    (c + budget_for bs key tid < Z.of_nat (length (data_ b4)) →
     ∃ b5 k' t' c' i w,
       Push rm key value tid b4 = Some b5 ∧
       owns rm base max_key n k' t' ∧ (k', t') ≠ (key, tid) ∧
       cursor rm b3 k' t' = Some c' ∧
       c + budget_for bs key tid = c' + Z.of_nat i ∧
       pushed_for ps k' t' !! i = Some w ∧
       data_ b4 !! Z.to_nat (c' + Z.of_nat i) = Some w ∧
       data_ b5 = <[Z.to_nat (c' + Z.of_nat i) := value]> (data_ b4)).
Proof.
  intros Ho.
  destruct (build_run ps [] (eq_sym (app_nil_r ps)))
    as (b3 & b4 & H3 & H4 & _ & _ & _ & Hlay & Hcur & Hinv & Hcov).
  destruct (InitStorage_params _ _ _ _ H3) as [Hb3 Hdisp3].
  destruct (Pushes_params _ _ _ _ H4) as [Hb4 Hdisp4].
  rewrite Hb3 in Hb4. rewrite Hdisp3 in Hdisp4.
  simpl in Hb3, Hdisp3, Hb4, Hdisp4.
  set (trs := thread_rptr_ budget_builder) in *.
  set (total := groups_before n ps base (Z.to_nat W)) in *.
  set (s := region_start rm trs fill) in *.
  pose proof (pi_length _ _ _ _ _ _ _ _ _ _ Hinv) as Hlen.
  pose proof (owns_cell_valid key tid Ho) as Hv. fold trs in Hv.
  set (t := Z.to_nat tid) in *. set (j := Z.to_nat (key - lo tid)) in *.
  destruct (lay_bound _ _ _ _ _ Hlay _ _ Hv) as (Hl1 & Hl2 & Hl3).
  pose proof (owns_cnt key tid Ho) as Hcnt. fold trs t j in Hcnt.
  rewrite Hcnt in Hl2, Hl3.
  assert (Hc4 : cell (thread_rptr_ b4) t j
                = Some (s t j + budget_for bs key tid)).
  { rewrite (pi_cursor _ _ _ _ _ _ _ _ _ _ Hinv _ _ Hv).
    rewrite budget_pushed by done. fold trs. by rewrite Hcnt. }
  assert (Hcur4 : cursor rm b4 key tid
                  = Some (s t j + budget_for bs key tid))
    by (by rewrite owns_cursor).
  exists b3, b4, (s t j).
  split; [done|]. split; [done|].
  split; [rewrite owns_cursor by done; by apply Hcur|].
  split; [done|]. split; [lia|]. split.
  { intros Hend. apply (Push_off_end rm key value tid b4 _ Hcur4).
    unfold vsize. lia. }
  intros Hin.
  destruct (Hcov (s t j + budget_for bs key tid) ltac:(lia))
    as (t' & j' & Hv' & Hr').
  destruct (valid_cell_owns t' j' Hv') as (Ho' & Et' & Ej').
  set (k' := lo (Z.of_nat t') + Z.of_nat j') in *.
  assert (Hcnt' : cnt trs t' j'
                  = Z.of_nat (length (pushed_for ps k' (Z.of_nat t')))).
  { unfold trs, k'. apply budget_cnt. by rewrite <- budget_builder_shape. }
  set (i := Z.to_nat (s t j + budget_for bs key tid - s t' j')).
  destruct (lookup_lt_is_Some_2 (pushed_for ps k' (Z.of_nat t')) i)
    as [w Hw]; [unfold i; lia|].
  assert (Hpos : s t j + budget_for bs key tid = s t' j' + Z.of_nat i)
    by (unfold i; lia).
  assert (Hcell : call_cell rm b4 key tid = (t, j)).
  { assert (call_cell rm b4 key tid = call_cell rm budget_builder0 key tid)
      as -> by (unfold call_cell; by rewrite Hb4, Hdisp4).
    by rewrite owns_call_cell. }
  eexists _, k', (Z.of_nat t'), (s t' j'), i, w.
  split.
  { apply Push_bump.
    - destruct Ho; lia.
    - by rewrite Hcell.
    - unfold vsize. lia. }
  split; [done|]. split.
  { intros Heq.
    assert (Hk : k' = key) by congruence.
    assert (Ht : Z.of_nat t' = tid) by congruence.
    assert (E1 : t' = t) by (unfold t; lia).
    assert (E2 : j' = j) by (unfold j; rewrite <- Hk, <- Ht; lia).
    rewrite E1, E2, Hcnt in Hr'. lia. }
  split.
  { rewrite owns_cursor by done. rewrite Et', Ej'. by apply Hcur. }
  split; [done|]. split; [done|]. split.
  { change (push_op rm budget_builder) with (push_op rm budget_builder0)
      in Hinv.
    apply (pi_data _ _ _ _ _ _ _ _ _ _ Hinv _ _ i w Hv').
    by rewrite at_cell_pushed_for. }
  cbn [data_]. by rewrite Hpos.
Qed.
End Protocol.

(** ** Reading the final arrays *)

Lemma spec_rptr_length {V} n (ps : list (@push_call V)) rptr0 base W :
  length (spec_rptr n ps rptr0 base W)
  = (Z.to_nat base + 1 + Z.to_nat W)%nat.
Proof.
  unfold spec_rptr.
  by rewrite length_app, length_resize, length_fmap, length_seq.
Qed.

Lemma spec_rptr_prior {V} n (ps : list (@push_call V)) rptr0 base W i x :
  rptr0 !! i = Some x → (i ≤ Z.to_nat base)%nat →
  spec_rptr n ps rptr0 base W !! i = Some x.
Proof.
  intros Hx Hi. unfold spec_rptr.
  rewrite lookup_app_l by (rewrite length_resize; lia).
  rewrite lookup_resize; [done|lia|by eapply lookup_lt_Some].
Qed.

Lemma spec_rptr_lookup {V} n (ps : list (@push_call V)) rptr0 base W
    (i : nat) :
  (length rptr0 ≤ Z.to_nat base + 1)%nat → Z.of_nat i ≤ W →
  spec_rptr n ps rptr0 base W !! (Z.to_nat base + i)%nat
  = Some (rptr_fill rptr0 + groups_before n ps base i).
Proof.
  intros Hprior Hi. unfold spec_rptr. destruct i as [|i].
  - rewrite lookup_app_l by (rewrite length_resize; lia).
    pose proof (last_resize_fill rptr0 (Z.to_nat base + 1) Hprior
                  ltac:(lia)) as Hl.
    rewrite last_lookup, length_resize in Hl.
    replace (Z.to_nat base + 0)%nat with (pred (Z.to_nat base + 1)) by lia.
    rewrite Hl. f_equal. unfold groups_before. simpl. lia.
  - rewrite lookup_app_r by (rewrite length_resize; lia).
    rewrite length_resize, list_lookup_fmap.
    replace (Z.to_nat base + S i - (Z.to_nat base + 1))%nat with i by lia.
    by rewrite lookup_seq_lt by lia.
Qed.

Lemma spec_rptr_last {V} n (ps : list (@push_call V)) rptr0 base W :
  (length rptr0 ≤ Z.to_nat base + 1)%nat → 0 ≤ W →
  last (spec_rptr n ps rptr0 base W)
  = Some (rptr_fill rptr0 + groups_before n ps base (Z.to_nat W)).
Proof.
  intros Hprior HW. rewrite last_lookup, spec_rptr_length.
  replace (pred (Z.to_nat base + 1 + Z.to_nat W))
    with (Z.to_nat base + Z.to_nat W)%nat by lia.
  apply spec_rptr_lookup; [done|lia].
Qed.

Lemma spec_data_length {V} (dflt : V) n ps rptr0 data0 base W :
  0 ≤ rptr_fill rptr0 →
  Z.of_nat (length (spec_data dflt n ps rptr0 data0 base W))
  = rptr_fill rptr0 + groups_before n ps base (Z.to_nat W).
Proof.
  intros Hf. unfold spec_data.
  rewrite length_app, length_resize, Nat2Z.inj_add.
  rewrite (length_mjoin_seq (λ i, group n ps (base + Z.of_nat i))).
  unfold groups_before. lia.
Qed.

Lemma spec_data_slice {V} (dflt : V) n ps rptr0 data0 base W (i : nat) :
  0 ≤ rptr_fill rptr0 → Z.of_nat i < W →
  slice (spec_data dflt n ps rptr0 data0 base W)
        (rptr_fill rptr0 + groups_before n ps base i)
        (Z.of_nat (length (group n ps (base + Z.of_nat i))))
  = group n ps (base + Z.of_nat i).
Proof.
  intros Hf Hi. unfold spec_data.
  rewrite (mjoin_seq_split (λ i, group n ps (base + Z.of_nat i)) i
             (Z.to_nat W)) by lia.
  rewrite (assoc_L (++)).
  replace (rptr_fill rptr0 + groups_before n ps base i)
    with (Z.of_nat (length (resize (Z.to_nat (rptr_fill rptr0)) dflt data0
                            ++ mjoin ((λ i, group n ps (base + Z.of_nat i))
                                        <$> seq 0 i)))).
  - apply slice_app_mid.
  - rewrite length_app, length_resize, Nat2Z.inj_add.
    rewrite (length_mjoin_seq (λ i, group n ps (base + Z.of_nat i))).
    unfold groups_before. lia.
Qed.

Lemma spec_data_prior {V} (dflt : V) n ps rptr0 data0 base W i x :
  data0 !! i = Some x → Z.of_nat i < rptr_fill rptr0 →
  spec_data dflt n ps rptr0 data0 base W !! i = Some x.
Proof.
  intros Hx Hi. unfold spec_data.
  rewrite lookup_app_l by (rewrite length_resize; lia).
  rewrite lookup_resize; [done|lia|by eapply lookup_lt_Some].
Qed.

Lemma group_single_owner {V} n (ps : list (@push_call V)) key tid :
  0 ≤ tid < n →
  Forall (λ '(k, _, t), k = key → t = tid) ps →
  group n ps key = pushed_for ps key tid.
Proof.
  intros Ht Hall. unfold group.
  rewrite (mjoin_single _ _ (Z.to_nat tid)); [|lia|].
  - by rewrite Z2Nat.id by lia.
  - intros t Hlt Hne. apply pushed_for_nil.
    eapply Forall_impl; [exact Hall|].
    intros [[k v] t'] H -> ->. specialize (H eq_refl). lia.
Qed.

(** ** What the protocol asks of its caller *)

(** [nthread >= 1]; the sizes fit the index type; every budget call and
    every push goes to the thread that owns its key, inside the key range of
    the build; for each (key, thread) the pushes are as many as the budget;
    the offset array holds at most [base + 1] entries of an earlier build;
    and the final number of values fits the index type. *)
Record build_ok {V} (rm : bool) (rptr0 : list Z) (base max_key n : Z)
    (bs : list budget_call) (ps : list (@push_call V)) : Prop := {
  ok_threads : 1 ≤ n;
  ok_base : 0 ≤ base;
  ok_max_key : 0 ≤ max_key;
  ok_size : base + nkeys rm base max_key + 1 < size_max;
  ok_budgets : Forall (λ '(k, t, _), owns rm base max_key n k t) bs;
  ok_pushes : Forall (λ '(k, _, t), owns rm base max_key n k t) ps;
  ok_compliant : ∀ k t,
    budget_for bs k t = Z.of_nat (length (pushed_for ps k t));
  ok_prior : (length rptr0 ≤ Z.to_nat base + 1)%nat;
  ok_fill : 0 ≤ rptr_fill rptr0;
  ok_total :
    rptr_fill rptr0
    + groups_before n ps base (Z.to_nat (nkeys rm base max_key)) < size_max;
}.

Lemma build_ok_spec {V} (dflt : V) rm rptr0 data0 base max_key n bs ps :
  build_ok rm rptr0 base max_key n bs ps →
  ∃ b, build dflt rm rptr0 data0 base max_key n bs ps = Some b ∧
       rptr_ b = spec_rptr n ps rptr0 base (nkeys rm base max_key) ∧
       data_ b = spec_data dflt n ps rptr0 data0 base (nkeys rm base max_key).
Proof. intros []. by apply build_spec. Qed.



(** * Properties of the builder *)

(** ** Step 1 *)

(** C6 (amended).  In row-major (partitioned) mode [InitBudget] divides
    [max_key] itself, the number of keys of the batch counted from
    [base_row_offset_], and not [max_key - base_row_offset_]: the thread
    displacement is [max_key / nthread], each of the first [nthread - 1]
    buffers has exactly that many cells, the last one has the remainder
    [max_key - (nthread - 1) * (max_key / nthread)], all cells are zero and
    the buffers together hold exactly [max_key] cells. *)
Theorem InitBudget_row_major_slices {V} (r : list Z) (d : list V)
    (base max_key n : Z) :
  0 ≤ max_key < size_max → 1 ≤ n →
  ∃ b, InitBudget true max_key n (ParallelGroupBuilder r d base) = Some b ∧
       thread_displacement_ b = max_key `div` n ∧
       thread_rptr_ b =
         replicate (Z.to_nat (n - 1))
                   (replicate (Z.to_nat (max_key `div` n)) 0)
         ++ [replicate (Z.to_nat (max_key - (n - 1) * (max_key `div` n))) 0] ∧
       Z.of_nat (length (mjoin (thread_rptr_ b))) = max_key.
Proof.
  intros Hm Hn. rewrite InitBudget_fresh by done.
  destruct (div_slices max_key n ltac:(lia) Hn) as [Hq1 Hq2].
  assert (Hl : last_thread_size_of true base max_key n
               = max_key - (n - 1) * (max_key `div` n)).
  { unfold last_thread_size_of, displacement_of, full_size_of, wsub, wmul.
    rewrite (wrap_small ((n - 1) * _)) by lia. apply wrap_small. lia. }
  rewrite Hl. unfold thread_size_of, displacement_of, full_size_of.
  eexists. split; [done|]. cbn [thread_displacement_ thread_rptr_].
  split; [done|]. split; [done|].
  rewrite length_mjoin_shape. unfold shape.
  rewrite fmap_app, fmap_replicate, sum_list_with_app, sum_list_replicate.
  simpl. rewrite !length_replicate. nia.
Qed.

Lemma InitBudget_row_major_slices_witness :
  (0 ≤ 5 < size_max ∧ 1 ≤ 2) ∧
  ∃ b, InitBudget true 5 2 (ParallelGroupBuilder [0; 7] [1; 1; 1; 1; 1; 1; 1] 1)
       = Some b ∧
       thread_displacement_ b = 5 `div` 2 ∧
       thread_rptr_ b =
         replicate (Z.to_nat (2 - 1)) (replicate (Z.to_nat (5 `div` 2)) 0)
         ++ [replicate (Z.to_nat (5 - (2 - 1) * (5 `div` 2))) 0] ∧
       Z.of_nat (length (mjoin (thread_rptr_ b))) = 5.
Proof.
  assert (H : 0 ≤ 5 < size_max) by (rewrite size_max_eq; lia).
  split; [split; [exact H|lia]|].
  apply (InitBudget_row_major_slices [0; 7] [1; 1; 1; 1; 1; 1; 1] 1 5 2 H).
  lia.
Defined.

(** C6 as stated fails on an incremental build: with [base_row_offset_ = 2],
    [max_key = 4] and one thread the displacement is 4, not (4 - 2) / 1,
    and the buffer has 4 cells, not 2. *)
Lemma InitBudget_row_major_slices_counterexample :
  ∃ b, InitBudget true 4 1 (ParallelGroupBuilder [0; 0; 0] ([] : list Z) 2)
       = Some b ∧
       thread_displacement_ b ≠ (4 - 2) `div` 1 ∧
       length <$> thread_rptr_ b ≠ [Z.to_nat ((4 - 2) - (1 - 1) * ((4 - 2) `div` 1))].
Proof. eexists. split; [reflexivity|]. split; vm_compute; discriminate. Qed.

(** C9.  In general (shared) mode, when [base_row_offset_ >= max_key] the
    size of the key range, [max_key - min(base_row_offset_, max_key)], is 0
    (no unsigned underflow) and [InitBudget] leaves every one of the
    [nthread] buffers empty. *)
Theorem InitBudget_general_clamps {V} (b : Builder V) (max_key n : Z) :
  1 ≤ n → max_key ≤ base_row_offset_ b →
  full_size_of false (base_row_offset_ b) max_key = 0 ∧
  ∃ b', InitBudget false max_key n b = Some b' ∧
        thread_rptr_ b' = replicate (Z.to_nat n) [].
Proof.
  intros Hn Hb.
  assert (Hf : full_size_of false (base_row_offset_ b) max_key = 0).
  { unfold full_size_of, wsub. rewrite Z.min_r by done.
    by rewrite Z.sub_diag. }
  split; [done|]. rewrite InitBudget_eq by done.
  unfold thread_size_of, last_thread_size_of. rewrite Hf.
  eexists. split; [done|]. cbn [thread_rptr_].
  rewrite <- fmap_app, take_drop.
  apply list_eq; intros i. rewrite list_lookup_fmap.
  destruct (decide (i < Z.to_nat n)%nat) as [Hi|Hi].
  - rewrite lookup_replicate_2 by done.
    destruct (lookup_lt_is_Some_2 (vresize n [] (thread_rptr_ b)) i)
      as [x ->]; [unfold vresize; rewrite length_resize; lia|].
    simpl. f_equal. apply resize_0.
  - rewrite (proj1 (lookup_replicate_None _ _ _)) by lia.
    rewrite lookup_ge_None_2; [done|].
    unfold vresize. rewrite length_resize. lia.
Qed.

Lemma InitBudget_general_clamps_witness :
  (1 ≤ 3 ∧ 2 ≤ base_row_offset_ (ParallelGroupBuilder [0; 1; 1; 4] [7; 8; 8; 8] 3)) ∧
  full_size_of false 3 2 = 0 ∧
  ∃ b', InitBudget false 2 3 (ParallelGroupBuilder [0; 1; 1; 4] [7; 8; 8; 8] 3)
        = Some b' ∧
        thread_rptr_ b' = replicate (Z.to_nat 3) [].
Proof.
  split; [split; [lia|simpl; lia]|].
  apply (InitBudget_general_clamps
           (ParallelGroupBuilder [0; 1; 1; 4] [7; 8; 8; 8] 3) 2 3);
    simpl; lia.
Defined.

(** ** A worked example *)

(** C7.  Two threads, row-major mode, [base_row_offset_ = 0], [max_key = 4]:
    thread 0's buffer covers keys [0, 2) and thread 1's keys [2, 4); when
    thread 0 budgets and pushes two values to key 0 and thread 1 one value to
    key 3, the offset array ends as [0; 2; 2; 2; 3]. *)
Theorem two_thread_row_major_example {V} (dflt v1 v2 v3 : V) :
  (∃ b1, InitBudget true 4 2 (ParallelGroupBuilder [] ([] : list V) 0)
         = Some b1 ∧
         thread_displacement_ b1 = 2 ∧ thread_rptr_ b1 = [[0; 0]; [0; 0]]) ∧
  (∀ k, owns true 0 4 2 k 0 ↔ 0 ≤ k < 2) ∧
  (∀ k, owns true 0 4 2 k 1 ↔ 2 ≤ k < 4) ∧
  ∃ b, build dflt true [] [] 0 4 2
             [(0, 0, 1); (0, 0, 1); (3, 1, 1)]
             [(0, v1, 0); (0, v2, 0); (3, v3, 1)] = Some b ∧
       rptr_ b = [0; 2; 2; 2; 3] ∧ data_ b = [v1; v2; v3].
Proof.
  split; [by eexists|].
  split.
  { intros k. unfold owns, slice_lo, slice_len.
    change (4 `div` 2) with 2. case_decide; lia. }
  split.
  { intros k. unfold owns, slice_lo, slice_len.
    change (4 `div` 2) with 2. case_decide; lia. }
  exists (mkBuilder [0; 2; 2; 2; 3] [v1; v2; v3] [[2; 2]; [2; 3]] 0 2).
  split; [|done]. vm_compute. reflexivity.
Qed.

(** ** The result of the protocol *)

(** C1.  For a run that keeps the protocol ([build_ok]: thread ids below
    [nthread], every key inside the range of the build and sent by a thread
    that owns it, as many pushes as budgeted for each (key, thread)), the
    four phases succeed and for every key [k] of the build the slice
    [data_[rptr_[k] : rptr_[k + 1]]] holds exactly the values pushed for
    [k]: thread by thread in ascending thread order, each thread's values in
    its push order ([group]); in row-major mode that is the push order of
    the single thread that owns [k]. *)
Theorem build_groups {V} (dflt : V) rm rptr0 data0 base max_key n bs ps :
  build_ok rm rptr0 base max_key n bs ps →
  ∃ b, build dflt rm rptr0 data0 base max_key n bs ps = Some b ∧
       ∀ k, base ≤ k < base + nkeys rm base max_key →
         ∃ lo hi,
           rptr_ b !! Z.to_nat k = Some lo ∧
           rptr_ b !! Z.to_nat (k + 1) = Some hi ∧
           slice (data_ b) lo (hi - lo) = group n ps k ∧
           (rm = true → ∀ t, owns true base max_key n k t →
                        group n ps k = pushed_for ps k t).
Proof.
  intros Hok. destruct (build_ok_spec dflt _ _ data0 _ _ _ _ _ Hok)
    as (b & Hb & Hr & Hd).
  destruct Hok as [Hn Hbase Hmk Hsz Hbs Hps Hcomp Hprior Hfill Hov].
  exists b. split; [done|]. intros k Hk.
  set (i := Z.to_nat (k - base)).
  exists (rptr_fill rptr0 + groups_before n ps base i),
         (rptr_fill rptr0 + groups_before n ps base (S i)).
  rewrite Hr, Hd.
  replace (Z.to_nat k) with (Z.to_nat base + i)%nat by lia.
  replace (Z.to_nat (k + 1)) with (Z.to_nat base + S i)%nat by lia.
  rewrite !spec_rptr_lookup by (try done; lia).
  split; [done|]. split; [done|]. split.
  - replace (rptr_fill rptr0 + groups_before n ps base (S i)
             - (rptr_fill rptr0 + groups_before n ps base i))
      with (Z.of_nat (length (group n ps (base + Z.of_nat i))))
      by (unfold groups_before; simpl; lia).
    rewrite spec_data_slice by (try done; lia).
    f_equal. lia.
  - intros -> t Ho. apply group_single_owner; [by destruct Ho|].
    eapply Forall_impl; [exact Hps|].
    intros [[k' v] t'] Ho' ->. exact (owns_unique _ _ _ _ _ _ Hmk Hn Ho' Ho).
Qed.

(** A run used to instantiate the theorems: two threads, keys 0 and 1;
    thread 0 sends 10 to key 0 and 11 to key 1, thread 1 sends 12 to key 0. *)
Definition example_budgets : list budget_call :=
  [(0, 0, 1); (1, 0, 1); (0, 1, 1)].
Definition example_pushes : list (@push_call Z) :=
  [(0, 10, 0); (1, 11, 0); (0, 12, 1)].

Ltac solve_owns :=
  repeat constructor;
  unfold owns, slice_lo, slice_len; simpl; repeat case_decide; lia.

Ltac solve_compliant :=
  intros ? ?; unfold budget_for, pushed_for; simpl;
  repeat case_decide; simpl; lia.

Lemma example_build_ok :
  build_ok false [] 0 2 2 example_budgets example_pushes.
Proof.
  constructor.
  - lia.
  - lia.
  - lia.
  - rewrite size_max_eq. vm_compute. reflexivity.
  - solve_owns.
  - solve_owns.
  - solve_compliant.
  - simpl. lia.
  - vm_compute. discriminate.
  - rewrite size_max_eq. vm_compute. reflexivity.
Defined.

Lemma build_groups_witness :
  build_ok false [] 0 2 2 example_budgets example_pushes ∧
  ∃ b, build 0 false [] [] 0 2 2 example_budgets example_pushes = Some b ∧
       ∀ k, 0 ≤ k < 0 + nkeys false 0 2 →
         ∃ lo hi,
           rptr_ b !! Z.to_nat k = Some lo ∧
           rptr_ b !! Z.to_nat (k + 1) = Some hi ∧
           slice (data_ b) lo (hi - lo) = group 2 example_pushes k ∧
           (false = true → ∀ t, owns true 0 2 2 k t →
                           group 2 example_pushes k
                           = pushed_for example_pushes k t).
Proof.
  split; [exact example_build_ok|].
  exact (build_groups 0 false [] [] 0 2 2 example_budgets example_pushes
           example_build_ok).
Defined.

(** ** The length of the offset array *)

Lemma groups_before_nil {V} n base i :
  groups_before n ([] : list (@push_call V)) base i = 0.
Proof.
  unfold groups_before. induction i as [|i IH]; [done|].
  simpl. rewrite IH, length_group.
  rewrite (bsum_ext _ (λ _, 0)) by done.
  clear. induction (Z.to_nat n) as [|m IHm]; simpl; lia.
Qed.

(** C5 (amended).  Take a build with at least one thread and
    [base_row_offset_ ≤ max_key], started on an offset array of at most
    [base_row_offset_ + 1] entries, in which every budget call is made by a
    thread id of [0, nthread) for a key of that thread's own slice ([owns]):
    in general (shared) mode any key of [base_row_offset_, max_key); in
    row-major mode a key from
    [base_row_offset_ + tid * thread_displacement_] on, as many keys as
    [InitBudget] gives the thread cells.  Then the offset array ends with
    [max_key + 1] entries in general mode, but with
    [base_row_offset_ + max_key + 1] entries in row-major mode, where
    [max_key] counts the keys of the batch. *)
Theorem InitStorage_rptr_length {V} (dflt : V) rm rptr0 data0 base max_key n
    bs :
  1 ≤ n → 0 ≤ base ≤ max_key →
  base + nkeys rm base max_key + 1 < size_max →
  Forall (λ '(k, t, _), owns rm base max_key n k t) bs →
  (length rptr0 ≤ Z.to_nat base + 1)%nat →
  rptr_fill rptr0 < size_max →
  ∃ b2 b3,
    InitBudget rm max_key n (ParallelGroupBuilder rptr0 data0 base)
      ≫= AddBudgets rm bs = Some b2 ∧
    InitStorage dflt rm b2 = Some b3 ∧
    Z.of_nat (length (rptr_ b3))
    = if rm then base + max_key + 1 else max_key + 1.
Proof.
  intros Hn Hb Hsz Hbs Hprior Hfill.
  assert (Hov : rptr_fill rptr0
                + groups_before n ([] : list (@push_call V)) base
                    (Z.to_nat (nkeys rm base max_key)) < size_max)
    by (rewrite groups_before_nil; lia).
  pose proof (build_budget_phase rm rptr0 data0 base max_key n bs []
                Hn ltac:(lia) ltac:(lia) Hsz Hbs ltac:(constructor) Hov)
    as H2.
  destruct (storage_length dflt rm rptr0 data0 base max_key n bs []
              Hn ltac:(lia) ltac:(lia) Hsz Hbs ltac:(constructor) Hov Hprior)
    as (b3 & H3 & Hlen).
  eexists _, b3. split; [exact H2|]. split; [exact H3|].
  rewrite Hlen. unfold nkeys. destruct rm; lia.
Qed.

Lemma InitStorage_rptr_length_witness :
  (1 ≤ 2 ∧ 0 ≤ 1 ≤ 5 ∧ 1 + nkeys true 1 5 + 1 < size_max ∧
   Forall (λ '(k, t, _), owns true 1 5 2 k t) [(1, 0, 1); (4, 1, 2)] ∧
   (length [0; 7] ≤ Z.to_nat 1 + 1)%nat ∧
   rptr_fill [0; 7] < size_max) ∧
  ∃ b2 b3,
    InitBudget true 5 2 (ParallelGroupBuilder [0; 7] ([] : list Z) 1)
      ≫= AddBudgets true [(1, 0, 1); (4, 1, 2)] = Some b2 ∧
    InitStorage 0 true b2 = Some b3 ∧
    Z.of_nat (length (rptr_ b3)) = 1 + 5 + 1.
Proof.
  assert (H1 : 1 ≤ 2) by lia.
  assert (H2 : 0 ≤ 1 ≤ 5) by lia.
  assert (H3 : 1 + nkeys true 1 5 + 1 < size_max)
    by (rewrite size_max_eq; vm_compute; reflexivity).
  assert (H4 : Forall (λ '(k, t, _), owns true 1 5 2 k t)
                 [(1, 0, 1); (4, 1, 2)]).
  { apply Forall_cons_2; [|apply Forall_cons_2; [|apply Forall_nil_2]];
      unfold owns, slice_lo, slice_len; change (5 `div` 2) with 2;
      case_decide; lia. }
  assert (H5 : (length [0; 7] ≤ Z.to_nat 1 + 1)%nat) by (simpl; lia).
  assert (H6 : rptr_fill [0; 7] < size_max)
    by (rewrite size_max_eq; vm_compute; reflexivity).
  split; [done|].
  exact (InitStorage_rptr_length 0 true [0; 7] [] 1 5 2
           [(1, 0, 1); (4, 1, 2)] H1 H2 H3 H4 H5 H6).
Defined.

(** The condition on the calling thread cannot be dropped in row-major
    mode: a budget call for a key of the build made by a thread whose slice
    does not hold the key grows that thread's buffer, and [InitStorage]
    gives the offset array one entry per cell of every buffer.  With
    [base_row_offset_ = 0], [max_key = 4] and two threads, a budget call of
    thread 0 for key 3 leaves 7 offsets, not [0 + 4 + 1 = 5]. *)
Lemma foreign_budget_grows_rptr :
  0 ≤ 3 < 4 ∧ ¬ owns true 0 4 2 3 0 ∧
  ∃ b2 b3,
    InitBudget true 4 2 (ParallelGroupBuilder [] ([] : list Z) 0)
      ≫= AddBudgets true [(3, 0, 1)] = Some b2 ∧
    InitStorage 0 true b2 = Some b3 ∧
    thread_rptr_ b2 = [[0; 0; 0; 1]; [0; 0]] ∧
    Z.of_nat (length (rptr_ b3)) = 7.
Proof.
  split; [lia|]. split.
  { unfold owns, slice_lo, slice_len. rewrite decide_False by lia.
    change (4 `div` 2) with 2. lia. }
  exists (mkBuilder [] [] [[0; 0; 0; 1]; [0; 0]] 0 2),
         (mkBuilder [0; 0; 0; 0; 1; 1; 1] [0] [[0; 0; 0; 0]; [1; 1]] 0 2).
  split; [vm_compute; reflexivity|]. split; [vm_compute; reflexivity|].
  split; reflexivity.
Qed.

(** C5 as stated fails in row-major mode on an incremental build: with
    [base_row_offset_ = 2], [max_key = 3], one thread and an offset array of
    3 entries, [InitStorage] leaves 6 entries, not [max_key + 1 = 4]; it
    adds 3 entries, not [max_key - base_row_offset_ + 1 = 2]. *)
Lemma InitStorage_rptr_length_counterexample :
  2 ≤ 3 ∧ Forall (λ '(k, t, _), k < 3) [(2, 0, 1)] ∧
  ∃ b2 b3,
    InitBudget true 3 1 (ParallelGroupBuilder [0; 0; 0] ([] : list Z) 2)
      ≫= AddBudgets true [(2, 0, 1)] = Some b2 ∧
    InitStorage 0 true b2 = Some b3 ∧
    Z.of_nat (length (rptr_ b3)) ≠ 3 + 1 ∧
    Z.of_nat (length (rptr_ b3)) - Z.of_nat (length [0; 0; 0]) ≠ 3 - 2 + 1.
Proof.
  split; [lia|]. split; [repeat constructor|].
  exists (mkBuilder [0; 0; 0] [] [[1; 0; 0]] 2 3),
         (mkBuilder [0; 0; 0; 1; 1; 1] [0] [[0; 1; 1]] 2 3).
  split; [vm_compute; reflexivity|]. split; [vm_compute; reflexivity|].
  split; vm_compute; discriminate.
Qed.

(** ** Incremental builds *)

Lemma groups_before_ext {V} n (ps ps' : list (@push_call V)) base base' k :
  (∀ i, (i < k)%nat →
        group n ps (base + Z.of_nat i) = group n ps' (base' + Z.of_nat i)) →
  groups_before n ps base k = groups_before n ps' base' k.
Proof.
  intros H. unfold groups_before. apply bsum_ext.
  intros i Hi. by rewrite H.
Qed.

Lemma groups_before_add {V} n (ps : list (@push_call V)) (a j : nat) :
  groups_before n ps 0 (a + j)
  = groups_before n ps 0 a + groups_before n ps (Z.of_nat a) j.
Proof.
  unfold groups_before. rewrite bsum_add. f_equal.
  apply bsum_ext. intros i _. do 3 f_equal. lia.
Qed.

(** The calls of one build: every call goes to the thread that owns its
    key, and each (key, thread) receives as many values as it budgeted. *)
Record calls_ok {V} (rm : bool) (base max_key n : Z)
    (bs : list budget_call) (ps : list (@push_call V)) : Prop := {
  co_budgets : Forall (λ '(k, t, _), owns rm base max_key n k t) bs;
  co_pushes : Forall (λ '(k, _, t), owns rm base max_key n k t) ps;
  co_compliant : ∀ k t,
    budget_for bs k t = Z.of_nat (length (pushed_for ps k t));
}.

(** C2 (amended).  Build the keys [0, m) with [base_row_offset_ = 0] and
    [max_key = m], then, on the arrays this leaves, the keys [m, N) with
    [base_row_offset_ = m] and [max_key = N] in general (shared) mode but
    [max_key = N - m], the number of keys of the batch, in row-major mode.
    When each key receives the same values in the same group order as in a
    single build of [0, N), the two offset arrays and the two data arrays
    are equal. *)
Theorem incremental_build {V} (dflt : V) rm T N m bsA psA bs1 ps1 bs2 ps2 :
  0 < m < N →
  build_ok rm [] 0 N T bsA psA →
  calls_ok rm 0 m T bs1 ps1 →
  calls_ok rm m (if rm then N - m else N) T bs2 ps2 →
  (∀ k, 0 ≤ k < m → group T ps1 k = group T psA k) →
  (∀ k, m ≤ k < N → group T ps2 k = group T psA k) →
  ∃ bA b1 b2,
    build dflt rm [] [] 0 N T bsA psA = Some bA ∧
    build dflt rm [] [] 0 m T bs1 ps1 = Some b1 ∧
    build dflt rm (rptr_ b1) (data_ b1) m (if rm then N - m else N) T bs2 ps2
      = Some b2 ∧
    rptr_ b2 = rptr_ bA ∧ data_ b2 = data_ bA.
Proof.
  intros Hm HA [Hbs1 Hps1 Hc1] [Hbs2 Hps2 Hc2] Hg1 Hg2.
  set (mk2 := if rm then N - m else N) in *.
  assert (HWA : nkeys rm 0 N = N) by (unfold nkeys; destruct rm; lia).
  assert (HW1 : nkeys rm 0 m = m) by (unfold nkeys; destruct rm; lia).
  assert (HW2 : nkeys rm m mk2 = N - m)
    by (unfold nkeys, mk2; destruct rm; lia).
  assert (Hmk2 : 0 ≤ mk2) by (unfold mk2; destruct rm; lia).
  destruct (build_ok_spec dflt _ _ [] _ _ _ _ _ HA) as (bA & HbA & HrA & HdA).
  destruct HA as [HT _ _ HszA _ _ _ _ _ HovA].
  rewrite HWA in HszA, HovA, HrA, HdA.
  change (rptr_fill []) with 0 in HovA.
  assert (Hgb1 : ∀ i, (i ≤ Z.to_nat m)%nat →
            groups_before T ps1 0 i = groups_before T psA 0 i).
  { intros i Hi. apply groups_before_ext. intros j Hj. apply Hg1. lia. }
  assert (Hgb2 : ∀ i, (i ≤ Z.to_nat (N - m))%nat →
            groups_before T psA 0 (Z.to_nat m)
            + groups_before T ps2 m i
            = groups_before T psA 0 (Z.to_nat m + i)).
  { intros i Hi. rewrite groups_before_add. f_equal.
    rewrite Z2Nat.id by lia.
    apply groups_before_ext. intros j Hj. apply Hg2. lia. }
  assert (HNm : Z.to_nat N = (Z.to_nat m + Z.to_nat (N - m))%nat) by lia.
  pose proof (groups_before_nonneg T psA 0 (Z.to_nat m)) as Hnn.
  pose proof (groups_before_mono T psA 0 (Z.to_nat m) (Z.to_nat N)
                ltac:(lia)) as Hmono.
  (* the first build *)
  assert (H1 : build_ok rm [] 0 m T bs1 ps1).
  { split; [lia|lia|lia| |done|done|done| | |].
    - rewrite HW1. lia.
    - simpl. lia.
    - change (rptr_fill []) with 0. lia.
    - rewrite HW1, Hgb1 by lia. change (rptr_fill []) with 0. lia. }
  destruct (build_ok_spec dflt _ _ [] _ _ _ _ _ H1) as (b1 & Hb1 & Hr1 & Hd1).
  rewrite HW1 in Hr1, Hd1.
  assert (Hlen1 : length (rptr_ b1) = (Z.to_nat m + 1)%nat).
  { rewrite Hr1. unfold spec_rptr.
    rewrite length_app, length_resize, length_fmap, length_seq. lia. }
  assert (Hfill1 : rptr_fill (rptr_ b1) = groups_before T psA 0 (Z.to_nat m)).
  { unfold rptr_fill, vback. rewrite Hr1, spec_rptr_last by (simpl; lia).
    simpl. change (rptr_fill []) with 0. rewrite Hgb1 by lia. lia. }
  assert (Hdlen1 : Z.of_nat (length (data_ b1))
                   = groups_before T psA 0 (Z.to_nat m)).
  { rewrite Hd1, spec_data_length by done.
    change (rptr_fill []) with 0. rewrite Hgb1 by lia. lia. }
  (* the second build *)
  assert (H2 : build_ok rm (rptr_ b1) m mk2 T bs2 ps2).
  { split; [lia|lia|lia| |done|done|done| | |].
    - rewrite HW2. lia.
    - rewrite Hlen1. lia.
    - rewrite Hfill1. lia.
    - rewrite HW2, Hfill1, Hgb2 by lia. rewrite <- HNm. lia. }
  destruct (build_ok_spec dflt _ _ (data_ b1) _ _ _ _ _ H2)
    as (b2 & Hb2 & Hr2 & Hd2).
  rewrite HW2 in Hr2, Hd2.
  exists bA, b1, b2. do 3 (split; [done|]). split.
  - rewrite Hr2, HrA. unfold spec_rptr. rewrite Hfill1.
    rewrite resize_all_alt by (rewrite Hlen1; lia).
    rewrite Hr1. unfold spec_rptr. rewrite <- (assoc_L (++)).
    f_equal. rewrite HNm, seq_app, fmap_app. f_equal.
    + apply list_fmap_ext. intros i j Hj%lookup_seq.
      change (rptr_fill []) with 0. rewrite Hgb1 by lia. done.
    + change (rptr_fill []) with 0.
      replace (0 + Z.to_nat m)%nat with (Z.to_nat m + 0)%nat by lia.
      rewrite <- fmap_add_seq, <- list_fmap_compose.
      apply list_fmap_ext. intros i j Hj%lookup_seq. simpl.
      rewrite Hgb2 by lia. rewrite Z.add_0_l. f_equal. lia.
  - rewrite Hd2, HdA. unfold spec_data.
    rewrite Hfill1, <- Hdlen1, Nat2Z.id, resize_all.
    rewrite Hd1. unfold spec_data. rewrite <- (assoc_L (++)).
    f_equal. rewrite HNm, seq_app, fmap_app, join_app. f_equal.
    + f_equal. apply list_fmap_ext. intros i j Hj%lookup_seq.
      apply Hg1. lia.
    + f_equal.
      replace (0 + Z.to_nat m)%nat with (Z.to_nat m + 0)%nat by lia.
      rewrite <- fmap_add_seq, <- list_fmap_compose.
      apply list_fmap_ext. intros i j Hj%lookup_seq. simpl.
      rewrite Hg2 by lia. f_equal. lia.
Qed.


Lemma incremental_build_witness :
  (0 < 1 < 2 ∧
   build_ok false [] 0 2 2 example_budgets example_pushes ∧
   calls_ok false 0 1 2 [(0, 0, 1); (0, 1, 1)] [(0, 10, 0); (0, 12, 1)] ∧
   calls_ok false 1 2 2 [(1, 0, 1)] [(1, 11, 0)] ∧
   (∀ k, 0 ≤ k < 1 →
      group 2 [(0, 10, 0); (0, 12, 1)] k = group 2 example_pushes k) ∧
   (∀ k, 1 ≤ k < 2 → group 2 [(1, 11, 0)] k = group 2 example_pushes k)) ∧
  ∃ bA b1 b2,
    build 0 false [] [] 0 2 2 example_budgets example_pushes = Some bA ∧
    build 0 false [] [] 0 1 2 [(0, 0, 1); (0, 1, 1)]
          [(0, 10, 0); (0, 12, 1)] = Some b1 ∧
    build 0 false (rptr_ b1) (data_ b1) 1 2 2 [(1, 0, 1)] [(1, 11, 0)]
      = Some b2 ∧
    rptr_ b2 = rptr_ bA ∧ data_ b2 = data_ bA.
Proof.
  assert (H0 : 0 < 1 < 2) by lia.
  assert (H1 : calls_ok false 0 1 2 [(0, 0, 1); (0, 1, 1)]
                 [(0, 10, 0); (0, 12, 1)]).
  { constructor; [solve_owns|solve_owns|solve_compliant]. }
  assert (H2 : calls_ok false 1 2 2 [(1, 0, 1)] [(1, 11, 0)]).
  { constructor; [solve_owns|solve_owns|solve_compliant]. }
  assert (H3 : ∀ k, 0 ≤ k < 1 →
            group 2 [(0, 10, 0); (0, 12, 1)] k = group 2 example_pushes k).
  { intros k Hk. assert (k = 0) as -> by lia. reflexivity. }
  assert (H4 : ∀ k, 1 ≤ k < 2 →
            group 2 [(1, 11, 0)] k = group 2 example_pushes k).
  { intros k Hk. assert (k = 1) as -> by lia. reflexivity. }
  split;
    [exact (conj H0 (conj example_build_ok (conj H1 (conj H2 (conj H3 H4)))))|].
  exact (incremental_build 0 false 2 2 1 example_budgets example_pushes
           _ _ _ _ H0 example_build_ok H1 H2 H3 H4).
Defined.

(** C2 as stated fails in row-major mode: with one thread, keys 0 and 1 and
    the split point 1, the second build called with [max_key = 2] leaves
    the offset array [0; 1; 2; 2], one entry longer than the [0; 1; 2] of
    the single build. *)
Lemma incremental_build_counterexample :
  ∃ bA b1 b2,
    build 0 true [] [] 0 2 1 [(0, 0, 1); (1, 0, 1)] [(0, 10, 0); (1, 11, 0)]
      = Some bA ∧
    build 0 true [] [] 0 1 1 [(0, 0, 1)] [(0, 10, 0)] = Some b1 ∧
    build 0 true (rptr_ b1) (data_ b1) 1 2 1 [(1, 0, 1)] [(1, 11, 0)]
      = Some b2 ∧
    rptr_ bA = [0; 1; 2] ∧ rptr_ b2 = [0; 1; 2; 2] ∧ rptr_ b2 ≠ rptr_ bA.
Proof.
  exists (mkBuilder [0; 1; 2] [10; 11] [[1; 2]] 0 2),
         (mkBuilder [0; 1] [10] [[1]] 0 1),
         (mkBuilder [0; 1; 2; 2] [10; 11] [[2; 2]] 1 2).
  split; [vm_compute; reflexivity|]. split; [vm_compute; reflexivity|].
  split; [vm_compute; reflexivity|]. split; [done|]. split; [done|].
  simpl. discriminate.
Qed.

(** ** What the protocol leaves untouched *)




Lemma Push_frame {V} rm key (v : V) tid (b b' : Builder V) :
  Push rm key v tid b = Some b' →
  rptr_ b' = rptr_ b ∧ length (data_ b') = length (data_ b).
Proof.
  unfold Push. destruct (vat (thread_rptr_ b) tid); simpl; [|done].
  destruct (vat _ _); simpl; [|done]. case_bool_decide; [|done].
  intros [= <-]. simpl. unfold vset. by rewrite length_insert.
Qed.

Lemma Pushes_frame {V} rm ps : ∀ (b b' : Builder V),
  Pushes rm ps b = Some b' →
  rptr_ b' = rptr_ b ∧ length (data_ b') = length (data_ b).
Proof.
  induction ps as [|[[k v] t] ps IH]; intros b b'.
  - by intros [= <-].
  - unfold Pushes. simpl.
    destruct (Push rm k v t b) as [b1|] eqn:E; simpl; [|done].
    intros H. destruct (IH _ _ H) as [-> ->].
    by apply Push_frame in E.
Qed.





(** ** Disjoint write regions *)



(** ** The offset array after step 3 *)

Definition adjacent_le (l : list Z) : Prop :=
  ∀ i x y, l !! i = Some x → l !! S i = Some y → x ≤ y.

(** The shape both branches of [InitStorage] give to [rptr_]: the prior
    entries up to index [base], padded with the prior total, then the prior
    total plus the running totals [g 1 .. g m] of this build. *)
Definition offsets (rptr0 : list Z) (base : nat) (g : nat → Z) (m : nat)
  : list Z :=
  resize (base + 1) (rptr_fill rptr0) rptr0
  ++ ((λ i, rptr_fill rptr0 + g (S i)) <$> seq 0 m).

Lemma adjacent_le_mono l i j x y :
  adjacent_le l → (i ≤ j)%nat → l !! i = Some x → l !! j = Some y → x ≤ y.
Proof.
  intros Hl Hij. revert y. induction Hij as [|j Hij IH]; intros y Hx Hy.
  - rewrite Hx in Hy. injection Hy as ->. lia.
  - destruct (lookup_lt_is_Some_2 l j) as [z Hz];
      [apply lookup_lt_Some in Hy; lia|].
    specialize (IH z Hx Hz). specialize (Hl j z y Hz Hy). lia.
Qed.

Lemma adjacent_le_fill l i x :
  adjacent_le l → l !! i = Some x → x ≤ rptr_fill l.
Proof.
  intros Hl Hx. unfold rptr_fill, vback.
  destruct (last l) as [y|] eqn:E.
  - simpl. rewrite last_lookup in E.
    apply (adjacent_le_mono l i (pred (length l)) x y); try done.
    apply lookup_lt_Some in Hx. lia.
  - apply last_None in E. by subst.
Qed.

Lemma offsets_length rptr0 base g m :
  length (offsets rptr0 base g m) = (base + 1 + m)%nat.
Proof.
  unfold offsets. by rewrite length_app, length_resize, length_fmap, length_seq.
Qed.

Lemma offsets_lookup_prior rptr0 base g m i :
  (i ≤ base)%nat →
  offsets rptr0 base g m !! i
  = Some (default (rptr_fill rptr0) (rptr0 !! i)).
Proof.
  intros Hi. unfold offsets.
  rewrite lookup_app_l by (rewrite length_resize; lia).
  destruct (decide (i < length rptr0)%nat) as [Hlt|Hge].
  - rewrite lookup_resize by lia.
    by destruct (lookup_lt_is_Some_2 rptr0 i Hlt) as [x ->].
  - rewrite lookup_resize_new by lia.
    by rewrite lookup_ge_None_2 by lia.
Qed.

Lemma offsets_lookup_new rptr0 base g m i :
  (i < m)%nat →
  offsets rptr0 base g m !! (base + 1 + i)%nat
  = Some (rptr_fill rptr0 + g (S i)).
Proof.
  intros Hi. unfold offsets.
  rewrite lookup_app_r by (rewrite length_resize; lia).
  rewrite length_resize, list_lookup_fmap.
  replace (base + 1 + i - (base + 1))%nat with i by lia.
  by rewrite lookup_seq_lt by lia.
Qed.

Lemma offsets_lookup_base rptr0 base g m :
  (length rptr0 ≤ base + 1)%nat →
  offsets rptr0 base g m !! base = Some (rptr_fill rptr0).
Proof.
  intros Hp. rewrite offsets_lookup_prior by lia. f_equal.
  destruct (rptr0 !! base) as [x|] eqn:E; [|done]. simpl.
  unfold rptr_fill, vback. rewrite last_lookup.
  pose proof (lookup_lt_Some _ _ _ E).
  replace (pred (length rptr0)) with base by lia. by rewrite E.
Qed.

Lemma offsets_last rptr0 base g m :
  (length rptr0 ≤ base + 1)%nat → g 0%nat = 0 →
  last (offsets rptr0 base g m) = Some (rptr_fill rptr0 + g m).
Proof.
  intros Hp Hg. rewrite last_lookup, offsets_length.
  destruct m as [|m].
  - replace (pred (base + 1 + 0)) with base by lia.
    rewrite offsets_lookup_base by done. f_equal. lia.
  - replace (pred (base + 1 + S m)) with (base + 1 + m)%nat by lia.
    by rewrite offsets_lookup_new by lia.
Qed.

Lemma offsets_adjacent_le rptr0 base g m :
  adjacent_le rptr0 → g 0%nat = 0 →
  (∀ i, (i < m)%nat → g i ≤ g (S i)) →
  adjacent_le (offsets rptr0 base g m).
Proof.
  intros Hs Hg0 Hg i x y Hx Hy.
  pose proof (lookup_lt_Some _ _ _ Hy) as Hlt. rewrite offsets_length in Hlt.
  destruct (decide (i < base)%nat) as [Hi|Hi].
  - rewrite offsets_lookup_prior in Hx, Hy by lia.
    injection Hx as <-. injection Hy as <-.
    destruct (rptr0 !! S i) as [y|] eqn:Ey; simpl.
    + destruct (lookup_lt_is_Some_2 rptr0 i) as [x Ex];
        [apply lookup_lt_Some in Ey; lia|].
      rewrite Ex. simpl. by apply (Hs i).
    + destruct (rptr0 !! i) as [x|] eqn:Ex; simpl; [|lia].
      by apply (adjacent_le_fill rptr0 i).
  - replace (S i) with (base + 1 + (i - base))%nat in Hy by lia.
    rewrite offsets_lookup_new in Hy by lia. injection Hy as <-.
    destruct (decide (i = base)) as [->|Hne].
    + rewrite offsets_lookup_prior in Hx by lia. injection Hx as <-.
      rewrite Nat.sub_diag.
      pose proof (Hg 0%nat ltac:(lia)).
      destruct (rptr0 !! base) as [x|] eqn:Ex; simpl; [|lia].
      pose proof (adjacent_le_fill rptr0 base x Hs Ex). lia.
    + replace i with (base + 1 + (i - base - 1))%nat in Hx by lia.
      rewrite offsets_lookup_new in Hx by lia. injection Hx as <-.
      pose proof (Hg (S (i - base - 1)) ltac:(lia)).
      replace (S (i - base)) with (S (S (i - base - 1))) by lia. lia.
Qed.

(** Summing the counts row by row or buffer by buffer. *)
Lemma bsum_lookup (tr : list Z) m :
  (length tr ≤ m)%nat → bsum (λ j, default 0 (tr !! j)) m = sumZ tr.
Proof.
  intros Hm. replace m with (length tr + (m - length tr))%nat by lia.
  rewrite bsum_add, (bsum_zero (λ i, default 0 (tr !! (length tr + i)%nat))).
  - rewrite <- (sumZ_take_bsum tr _ (length tr)).
    + rewrite firstn_all. lia.
    + intros k Hk. by destruct (lookup_lt_is_Some_2 tr k Hk) as [x ->].
  - intros i _. by rewrite lookup_ge_None_2 by lia.
Qed.

Lemma rows_before_cons tr trs m :
  rows_before (tr :: trs) m
  = bsum (λ j, default 0 (tr !! j)) m + rows_before trs m.
Proof.
  unfold rows_before. induction m as [|m IH]; [done|].
  simpl. rewrite IH, row_total_cons. lia.
Qed.

Lemma rows_before_all trs m :
  Forall (λ tr, (length tr ≤ m)%nat) trs →
  rows_before trs m = sumZ (mjoin trs).
Proof.
  induction 1 as [|tr trs Htr _ IH].
  - unfold rows_before. by apply bsum_zero.
  - rewrite rows_before_cons, bsum_lookup, IH by done.
    simpl. by rewrite sumZ_app.
Qed.

Lemma rows_before_0 trs : rows_before trs 0 = 0.
Proof. done. Qed.

Lemma rows_needed_le base trs :
  (rows_needed base trs ≤ length (mjoin trs) + base + 1)%nat.
Proof.
  induction trs as [|tr trs IH]; [unfold rows_needed; simpl; lia|].
  rewrite rows_needed_cons. simpl. rewrite length_app. lia.
Qed.

Section Offsets_general.
Context {V : Type}.
Variable b : Builder V.

Let base := Z.to_nat (base_row_offset_ b).
Let trs := thread_rptr_ b.
Let fill := rptr_fill (rptr_ b).
Let N := (length (rptr_ b) `max` rows_needed base trs)%nat.
Let m := (N - 1 - base)%nat.

Hypothesis Hthreads : trs ≠ [].
Hypothesis Hcnt : counts_ok trs.
Hypothesis Hprior : (length (rptr_ b) ≤ base + 1)%nat.
Hypothesis Hfill : 0 ≤ fill.
Hypothesis Hmax : fill + sumZ (mjoin trs) < size_max.

Lemma general_rows : (base + 1 ≤ N)%nat ∧ N = (base + 1 + m)%nat.
Proof.
  clear Hcnt Hfill Hmax.
  assert (base + 1 ≤ rows_needed base trs)%nat.
  { destruct trs as [|tr trs'] eqn:E; [done|].
    rewrite rows_needed_cons. lia. }
  unfold m, N. lia.
Qed.

Lemma general_lengths : Forall (λ tr, (length tr ≤ m)%nat) trs.
Proof.
  apply Forall_forall. intros tr Htr.
  assert (length tr + base + 1 ≤ rows_needed base trs)%nat.
  { apply max_list_elem_of_le, list_elem_of_fmap. by exists tr. }
  unfold m, N. lia.
Qed.

Lemma general_rows_bound :
  Z.of_nat N ≤ Z.of_nat base + 1 + Z.of_nat (length (mjoin trs)).
Proof.
  clear Hcnt Hfill Hmax. destruct general_rows as [_ HN].
  assert (m ≤ length (mjoin trs))%nat; [|lia].
  pose proof (rows_needed_le base trs). unfold m, N. lia.
Qed.

Lemma general_rptr_offsets :
  general_rptr b = offsets (rptr_ b) base (rows_before trs) m.
Proof.
  destruct general_rows as [_ HN].
  unfold general_rptr, offsets. fold base trs fill N m.
  rewrite HN at 1.
  rewrite resize_add, (drop_ge (rptr_ b)), resize_nil by lia.
  rewrite imap_app, length_resize. f_equal.
  - apply list_eq; intros k. rewrite list_lookup_imap.
    destruct (resize _ _ _ !! k) as [x|] eqn:E; [|done]. simpl.
    apply lookup_lt_Some in E. rewrite length_resize in E.
    unfold gen_offset. by rewrite decide_False by lia.
  - apply list_eq; intros k.
    rewrite list_lookup_imap, list_lookup_fmap.
    destruct (decide (k < m)%nat) as [Hk|Hk].
    + rewrite lookup_replicate_2, lookup_seq_lt by done. simpl.
      f_equal. unfold gen_offset. rewrite decide_True by lia.
      replace (base + 1 + k - base)%nat with (S k) by lia.
      apply wrap_small.
      pose proof (rows_before_nonneg trs Hcnt (S k)).
      pose proof (rows_before_mono trs Hcnt (S k) m ltac:(lia)).
      pose proof (rows_before_all trs m general_lengths). lia.
    + rewrite lookup_seq_ge by lia.
      by rewrite (proj1 (lookup_replicate_None _ _ _)) by lia.
Qed.
End Offsets_general.

Section Offsets_row_major.
Context {V : Type}.
Variable b : Builder V.

Let base := Z.to_nat (base_row_offset_ b).
Let trs := thread_rptr_ b.
Let fill := rptr_fill (rptr_ b).
Let flat := mjoin trs.

Hypothesis Hcnt : counts_ok trs.
Hypothesis Hfill : 0 ≤ fill.
Hypothesis Hmax : fill + sumZ flat < size_max.

Lemma row_major_rptr_offsets :
  row_major_rptr b
  = offsets (rptr_ b) base (λ i, sumZ (take i flat)) (length flat).
Proof.
  unfold row_major_rptr, offsets. fold base trs fill flat. f_equal.
  apply list_eq; intros k. rewrite !list_lookup_fmap.
  destruct (decide (k < length flat)%nat) as [Hk|Hk].
  - rewrite lookup_psums, lookup_seq_lt by done. simpl. f_equal.
    rewrite Z.add_0_l. apply wrap_small.
    pose proof (flat_nonneg trs Hcnt) as Hnn. fold flat in Hnn.
    pose proof (sumZ_take_le flat (S k) Hnn).
    pose proof (sumZ_nonneg (take (S k) flat) (Forall_take _ _ _ Hnn)).
    lia.
  - rewrite lookup_seq_ge by lia.
    by rewrite (lookup_ge_None_2 (psums 0 flat))
      by (rewrite length_psums; lia).
Qed.
End Offsets_row_major.

(** What [InitStorage] needs: [InitBudget] has run; the counts are
    non-negative; [rptr_] holds at most [base_row_offset_ + 1] entries, in
    non-decreasing order; the number of rows and the number of values fit
    the index type. *)
Record storage_ok {V} (b : Builder V) : Prop := {
  so_base : 0 ≤ base_row_offset_ b;
  so_threads : thread_rptr_ b ≠ [];
  so_counts : counts_ok (thread_rptr_ b);
  so_prior : (length (rptr_ b) ≤ Z.to_nat (base_row_offset_ b) + 1)%nat;
  so_sorted : adjacent_le (rptr_ b);
  so_fill : 0 ≤ rptr_fill (rptr_ b);
  so_rows :
    base_row_offset_ b + 1 + Z.of_nat (length (mjoin (thread_rptr_ b)))
    < size_max;
  so_total : rptr_fill (rptr_ b) + sumZ (mjoin (thread_rptr_ b)) < size_max;
}.

(** C4.  After [InitStorage], in either mode, on a fresh or a partially
    built offset array: adjacent entries of [rptr_] are in non-decreasing
    order; the entry at index [base_row_offset_] is the prior total (the
    last entry of the offset array before the call, 0 when it was empty);
    and the last entry is the new length of [data_]. *)
Theorem InitStorage_offsets {V} (dflt : V) rm (b : Builder V) :
  storage_ok b →
  ∃ b3, InitStorage dflt rm b = Some b3 ∧
        adjacent_le (rptr_ b3) ∧
        rptr_ b3 !! Z.to_nat (base_row_offset_ b)
        = Some (rptr_fill (rptr_ b)) ∧
        (rptr_ b = [] → rptr_ b3 !! Z.to_nat (base_row_offset_ b) = Some 0) ∧
        last (rptr_ b3) = Some (Z.of_nat (length (data_ b3))).
Proof.
  intros [Hbase Hthr Hcnt Hprior Hsort Hfill Hrows Htot].
  pose proof (flat_nonneg _ Hcnt) as Hnn.
  pose proof (sumZ_nonneg _ Hnn) as Hsum.
  assert (Hgen : ∀ g m,
            g 0%nat = 0 → (∀ i, (i < m)%nat → g i ≤ g (S i)) →
            g m = sumZ (mjoin (thread_rptr_ b)) →
            let r := offsets (rptr_ b) (Z.to_nat (base_row_offset_ b)) g m in
            adjacent_le r ∧
            r !! Z.to_nat (base_row_offset_ b) = Some (rptr_fill (rptr_ b)) ∧
            (rptr_ b = [] → r !! Z.to_nat (base_row_offset_ b) = Some 0) ∧
            last r
            = Some (Z.of_nat (length (vresize (default 0 (last r)) dflt
                                        (data_ b))))).
  { intros g m Hg0 Hg Hgm r. subst r.
    rewrite offsets_last, offsets_lookup_base by done. simpl.
    split; [by apply offsets_adjacent_le|]. split; [done|].
    split; [by intros ->|].
    unfold vresize. rewrite length_resize. f_equal. lia. }
  destruct rm.
  - rewrite InitStorage_row_major by (try done; lia).
    eexists. split; [done|]. cbn [rptr_ data_].
    rewrite row_major_rptr_offsets by done.
    apply Hgen.
    + done.
    + intros i _. apply sumZ_take_mono; [done|lia].
    + by rewrite firstn_all.
  - pose proof (general_rows b Hthr Hprior) as [HN1 HN2].
    pose proof (general_rows_bound b Hthr Hprior) as HN3.
    rewrite InitStorage_general by (try done; lia).
    eexists. split; [done|]. cbn [rptr_ data_].
    rewrite general_rptr_offsets by done.
    apply Hgen.
    + done.
    + intros i _. apply rows_before_mono; [done|lia].
    + apply rows_before_all. by apply general_lengths.
Qed.


(** A builder between steps 2 and 3 of an incremental build in general
    mode: key 0 was built before; thread 0 budgeted one value for key 1. *)
Definition example_budgeted : Builder Z := mkBuilder [0; 1] [10] [[1]; [0]] 1 0.

Lemma example_storage_ok : storage_ok example_budgeted.
Proof.
  constructor.
  - simpl. lia.
  - done.
  - intros [|[|t]] [|j] c; simpl; try done; intros [= <-]; lia.
  - simpl. lia.
  - intros [|[|i]] x y; simpl; try done. intros [= <-] [= <-]. lia.
  - vm_compute. discriminate.
  - rewrite size_max_eq. vm_compute. reflexivity.
  - rewrite size_max_eq. vm_compute. reflexivity.
Defined.

Lemma InitStorage_offsets_witness :
  storage_ok example_budgeted ∧
  ∃ b3, InitStorage 0 false example_budgeted = Some b3 ∧
        adjacent_le (rptr_ b3) ∧
        rptr_ b3 !! Z.to_nat (base_row_offset_ example_budgeted)
        = Some (rptr_fill (rptr_ example_budgeted)) ∧
        (rptr_ example_budgeted = [] →
         rptr_ b3 !! Z.to_nat (base_row_offset_ example_budgeted) = Some 0) ∧
        last (rptr_ b3) = Some (Z.of_nat (length (data_ b3))).
Proof.
  split; [exact example_storage_ok|].
  exact (InitStorage_offsets 0 false example_budgeted example_storage_ok).
Defined.

(** ** Buffers of unequal lengths in general mode *)

(** Every buffer extended with zeros to the length of the longest one. *)
Definition zero_padded (trs : list (list Z)) : list (list Z) :=
  (λ tr, tr ++ replicate (max_list (length <$> trs) - length tr) 0) <$> trs.

Lemma cnt_zero_padded trs t j : cnt (zero_padded trs) t j = cnt trs t j.
Proof.
  unfold cnt, cell, zero_padded. rewrite list_lookup_fmap.
  destruct (trs !! t) as [tr|]; simpl; [|done].
  destruct (decide (j < length tr)%nat) as [Hj|Hj].
  - by rewrite lookup_app_l by done.
  - rewrite lookup_app_r by lia. rewrite (lookup_ge_None_2 tr) by lia.
    simpl. destruct (replicate _ _ !! _) as [x|] eqn:E; [|done].
    by apply lookup_replicate in E as [-> _].
Qed.

Lemma rows_before_zero_padded trs j :
  rows_before (zero_padded trs) j = rows_before trs j.
Proof.
  unfold rows_before, row_total, col_before. apply bsum_ext. intros i _.
  replace (length (zero_padded trs)) with (length trs)
    by (unfold zero_padded; by rewrite length_fmap).
  apply bsum_ext. intros t _. apply cnt_zero_padded.
Qed.

Lemma rows_needed_max base trs :
  trs ≠ [] →
  rows_needed base trs = (max_list (length <$> trs) + base + 1)%nat.
Proof.
  induction trs as [|tr trs IH]; [done|]. intros _.
  rewrite rows_needed_cons. destruct trs as [|tr' trs].
  - unfold rows_needed. simpl. lia.
  - rewrite IH by done.
    change (max_list (length <$> tr :: tr' :: trs))
      with (length tr `max` max_list (length <$> tr' :: trs))%nat.
    lia.
Qed.

Lemma rows_needed_zero_padded base trs :
  rows_needed base (zero_padded trs) = rows_needed base trs.
Proof.
  destruct (decide (trs = [])) as [->|Hne]; [done|].
  rewrite (rows_needed_max base trs Hne).
  unfold rows_needed, zero_padded. rewrite <- list_fmap_compose.
  apply max_list_const; [done|].
  intros tr Htr. simpl. rewrite length_app, length_replicate.
  assert (length tr ≤ max_list (length <$> trs))%nat; [|lia].
  apply max_list_elem_of_le, list_elem_of_fmap. by exists tr.
Qed.

Lemma general_rptr_zero_padded {V} (b : Builder V) :
  general_rptr (set_threads b (zero_padded (thread_rptr_ b)))
  = general_rptr b.
Proof.
  unfold general_rptr. cbn [set_threads rptr_ thread_rptr_ base_row_offset_].
  rewrite rows_needed_zero_padded. apply imap_ext. intros k x _.
  unfold gen_offset. case_decide; [|done].
  by rewrite rows_before_zero_padded.
Qed.

(** C10.  In general mode a thread whose buffer is shorter than
    [i - base_row_offset_ + 1] is skipped at row [i]: its cell is not read
    and the running count is unchanged.  So the buffers may have unequal
    lengths, and [InitStorage] leaves the same offset array (and data
    array) as it does when every buffer is first zero-padded to the length
    of the longest. *)
Theorem InitStorage_general_unequal {V} (dflt : V) (b : Builder V) :
  0 ≤ base_row_offset_ b →
  thread_rptr_ b ≠ [] →
  Z.of_nat (length (rptr_ b)) < size_max →
  Forall (λ tr, base_row_offset_ b + vsize tr + 1 < size_max)
         (thread_rptr_ b) →
  (∀ i back count trptr,
     trptr ∈ thread_rptr_ b →
     vsize trptr < i - base_row_offset_ b + 1 →
     gen_cell (base_row_offset_ b) i back count trptr
     = Some (count, trptr)) ∧
  ∃ b3 b3',
    InitStorage dflt false b = Some b3 ∧
    InitStorage dflt false (set_threads b (zero_padded (thread_rptr_ b)))
      = Some b3' ∧
    rptr_ b3' = rptr_ b3 ∧ data_ b3' = data_ b3.
Proof.
  intros Hbase Hthr Hlen Hrows. split.
  - intros i back count trptr Hin Hshort.
    pose proof (proj1 (Forall_forall _ _) Hrows trptr Hin) as Hsz.
    simpl in Hsz. pose proof (vsize_nonneg trptr).
    unfold gen_cell, wadd. rewrite wrap_small by lia.
    by rewrite bool_decide_false by lia.
  - set (N := (length (rptr_ b)
               `max` rows_needed (Z.to_nat (base_row_offset_ b))
                       (thread_rptr_ b))%nat).
    assert (HN0 : (0 < N)%nat).
    { unfold N. rewrite rows_needed_max by done. lia. }
    assert (HN : Z.of_nat N < size_max).
    { assert (Z.of_nat (rows_needed (Z.to_nat (base_row_offset_ b))
                          (thread_rptr_ b)) < size_max); [|unfold N; lia].
      clear -Hbase Hrows Hthr.
      induction Hrows as [|tr trs Htr _ IH]; [done|].
      rewrite rows_needed_cons. unfold vsize in Htr.
      destruct trs as [|tr' trs].
      - unfold rows_needed. simpl. lia.
      - specialize (IH ltac:(done)). lia. }
    rewrite (InitStorage_general dflt b Hbase HN0 HN).
    rewrite (InitStorage_general dflt
               (set_threads b (zero_padded (thread_rptr_ b)))).
    + eexists _, _. split; [done|]. split; [done|].
      cbn [rptr_ data_ set_threads]. by rewrite general_rptr_zero_padded.
    + done.
    + cbn [set_threads rptr_ thread_rptr_ base_row_offset_].
      by rewrite rows_needed_zero_padded.
    + cbn [set_threads rptr_ thread_rptr_ base_row_offset_].
      by rewrite rows_needed_zero_padded.
Qed.

(** Thread 0 grew its buffer to two cells, thread 1 kept a single one. *)
Definition example_unequal : Builder Z := mkBuilder [] [] [[1; 2]; [3]] 0 0.

Lemma InitStorage_general_unequal_witness :
  (0 ≤ base_row_offset_ example_unequal ∧
   thread_rptr_ example_unequal ≠ [] ∧
   Z.of_nat (length (rptr_ example_unequal)) < size_max ∧
   Forall (λ tr, base_row_offset_ example_unequal + vsize tr + 1 < size_max)
          (thread_rptr_ example_unequal)) ∧
  (∀ i back count trptr,
     trptr ∈ thread_rptr_ example_unequal →
     vsize trptr < i - base_row_offset_ example_unequal + 1 →
     gen_cell (base_row_offset_ example_unequal) i back count trptr
     = Some (count, trptr)) ∧
  ∃ b3 b3',
    InitStorage 0 false example_unequal = Some b3 ∧
    InitStorage 0 false
      (set_threads example_unequal
         (zero_padded (thread_rptr_ example_unequal))) = Some b3' ∧
    rptr_ b3' = rptr_ b3 ∧ data_ b3' = data_ b3.
Proof.
  assert (H1 : 0 ≤ base_row_offset_ example_unequal) by (simpl; lia).
  assert (H2 : thread_rptr_ example_unequal ≠ []) by (simpl; discriminate).
  assert (H3 : Z.of_nat (length (rptr_ example_unequal)) < size_max)
    by (rewrite size_max_eq; vm_compute; reflexivity).
  assert (H4 : Forall (λ tr, base_row_offset_ example_unequal + vsize tr + 1
                             < size_max)
                 (thread_rptr_ example_unequal)).
  { repeat constructor; rewrite size_max_eq; vm_compute; reflexivity. }
  split; [exact (conj H1 (conj H2 (conj H3 H4)))|].
  exact (InitStorage_general_unequal 0 example_unequal H1 H2 H3 H4).
Defined.


(** * Further properties of the builder *)

(** ** Step 2 with on-demand growth *)

(** One budget call on one buffer: make room for cell [j], then add [e]. *)
Definition budget_buffer (j : nat) (e : Z) (tr : list Z) : list Z :=
  alter (λ c, wadd c e) j (resize (length tr `max` S j) 0 tr).

Lemma length_budget_buffer j e tr :
  length (budget_buffer j e tr) = (length tr `max` S j)%nat.
Proof. unfold budget_buffer. by rewrite length_alter, length_resize. Qed.

Lemma lookup_budget_buffer j e tr i :
  budget_buffer j e tr !! i =
    if decide (i < length tr `max` S j)%nat
    then Some (if decide (i = j) then wadd (default 0 (tr !! i)) e
               else default 0 (tr !! i))
    else None.
Proof.
  unfold budget_buffer. case_decide as Hi.
  - assert (Hr : resize (length tr `max` S j) 0 tr !! i
                 = Some (default 0 (tr !! i))).
    { destruct (decide (i < length tr)%nat) as [Hlt|Hge].
      - rewrite lookup_resize by lia.
        by destruct (lookup_lt_is_Some_2 tr i Hlt) as [x ->].
      - rewrite lookup_resize_new by lia.
        by rewrite (lookup_ge_None_2 tr) by lia. }
    case_decide as Hj.
    + subst i. by rewrite list_lookup_alter_eq, Hr.
    + by rewrite list_lookup_alter_ne.
  - apply lookup_ge_None_2. rewrite length_alter, length_resize. lia.
Qed.

Lemma default_budget_buffer j e tr i :
  default 0 (budget_buffer j e tr !! i)
  = if decide (i = j) then wadd (default 0 (tr !! i)) e
    else default 0 (tr !! i).
Proof.
  rewrite lookup_budget_buffer. case_decide as Hi; [done|].
  rewrite decide_False by lia. simpl.
  by rewrite (lookup_ge_None_2 tr) by lia.
Qed.

Lemma wadd_comm3 x e1 e2 : wadd (wadd x e1) e2 = wadd (wadd x e2) e1.
Proof. unfold wadd. rewrite !wrap_add_l. f_equal. lia. Qed.

Lemma budget_buffer_comm j1 e1 j2 e2 tr :
  budget_buffer j1 e1 (budget_buffer j2 e2 tr)
  = budget_buffer j2 e2 (budget_buffer j1 e1 tr).
Proof.
  apply list_eq; intros i.
  rewrite (lookup_budget_buffer j1 e1 (budget_buffer j2 e2 tr)),
    (lookup_budget_buffer j2 e2 (budget_buffer j1 e1 tr)),
    !length_budget_buffer, !default_budget_buffer.
  destruct (decide (i < (length tr `max` S j2) `max` S j1)%nat);
    [rewrite (decide_True (P := (i < (length tr `max` S j1) `max` S j2)%nat))
       by lia
    |by rewrite (decide_False (P := (i < (length tr `max` S j1) `max` S j2)%nat))
       by lia].
  f_equal. repeat case_decide; try done. apply wadd_comm3.
Qed.

Lemma AddBudget_grow {V} rm (b : Builder V) key tid e :
  offset_key rm b key tid + 1 < size_max →
  AddBudget rm key tid e b =
    if decide (0 ≤ tid ∧ (Z.to_nat tid < length (thread_rptr_ b))%nat)
    then Some (set_threads b
                 (alter (budget_buffer (Z.to_nat (offset_key rm b key tid)) e)
                        (Z.to_nat tid) (thread_rptr_ b)))
    else None.
Proof.
  intros Hmax. unfold AddBudget.
  pose proof (okey_range rm (base_row_offset_ b) (thread_displacement_ b)
                key tid) as Hok.
  change (okey rm (base_row_offset_ b) (thread_displacement_ b) key tid)
    with (offset_key rm b key tid) in Hok.
  set (ok := offset_key rm b key tid) in *.
  destruct (decide (0 ≤ tid)) as [Ht|Ht].
  2:{ assert (vat (thread_rptr_ b) tid = None) as ->
        by (unfold vat; by rewrite bool_decide_false).
      rewrite decide_False; [done|]. intros [? _]. lia. }
  rewrite (vat_nonneg (thread_rptr_ b)) by done.
  destruct (thread_rptr_ b !! Z.to_nat tid) as [tr|] eqn:Etr.
  2:{ simpl. rewrite decide_False; [done|]. intros [_ Hlt].
      apply lookup_ge_None in Etr. lia. }
  rewrite decide_True by (split; [done|by eapply lookup_lt_Some]).
  simpl.
  assert (Hw : wadd ok 1 = ok + 1) by (unfold wadd; apply wrap_small; lia).
  rewrite !Hw.
  assert (Hres : (if bool_decide (vsize tr < ok + 1)
                  then vresize (ok + 1) 0 tr else tr)
                 = resize (length tr `max` S (Z.to_nat ok)) 0 tr).
  { unfold vsize, vresize. case_bool_decide.
    - f_equal. lia.
    - replace (length tr `max` S (Z.to_nat ok))%nat with (length tr) by lia.
      by rewrite resize_all. }
  rewrite Hres. rewrite vat_nonneg by lia.
  destruct (lookup_lt_is_Some_2
              (resize (length tr `max` S (Z.to_nat ok)) 0 tr) (Z.to_nat ok))
    as [c Hc]; [rewrite length_resize; lia|].
  rewrite Hc. simpl. do 2 f_equal. unfold vset.
  rewrite (alter_as_insert (λ c, wadd c e) _ _ _ Hc).
  exact (alter_as_insert (budget_buffer (Z.to_nat ok) e) _ _ _ Etr).
Qed.


Lemma alter_alter_comm {A} (f g : A → A) i j (l : list A) :
  (i = j → ∀ x, f (g x) = g (f x)) →
  alter f i (alter g j l) = alter g j (alter f i l).
Proof.
  intros Hfg. apply list_eq; intros k.
  destruct (decide (i = j)) as [->|Hij].
  - destruct (decide (j = k)) as [->|Hjk].
    + rewrite !list_lookup_alter_eq.
      destruct (l !! k) as [x|]; simpl; [|done]. f_equal. by apply Hfg.
    + by rewrite !list_lookup_alter_ne.
  - destruct (decide (i = k)) as [->|Hik].
    + rewrite list_lookup_alter_eq, list_lookup_alter_ne by done.
      by rewrite list_lookup_alter_ne, list_lookup_alter_eq by done.
    + rewrite (list_lookup_alter_ne f) by done.
      destruct (decide (j = k)) as [->|Hjk].
      * rewrite !list_lookup_alter_eq. by rewrite list_lookup_alter_ne.
      * by rewrite !list_lookup_alter_ne.
Qed.

Lemma AddBudget_params {V} rm key tid nelem (b b' : Builder V) :
  AddBudget rm key tid nelem b = Some b' →
  base_row_offset_ b' = base_row_offset_ b ∧
  thread_displacement_ b' = thread_displacement_ b.
Proof.
  unfold AddBudget. destruct (vat (thread_rptr_ b) tid); simpl; [|done].
  destruct (vat _ _); simpl; [|done]. by intros [= <-].
Qed.

Lemma offset_key_params {V} rm (b b' : Builder V) key tid :
  base_row_offset_ b' = base_row_offset_ b →
  thread_displacement_ b' = thread_displacement_ b →
  offset_key rm b' key tid = offset_key rm b key tid.
Proof. unfold offset_key. by intros -> ->. Qed.

Lemma AddBudget_comm {V} rm (b : Builder V) k1 t1 e1 k2 t2 e2 :
  offset_key rm b k1 t1 + 1 < size_max →
  offset_key rm b k2 t2 + 1 < size_max →
  AddBudget rm k1 t1 e1 b ≫= AddBudget rm k2 t2 e2
  = AddBudget rm k2 t2 e2 b ≫= AddBudget rm k1 t1 e1.
Proof.
  intros H1 H2.
  rewrite (AddBudget_grow rm b k1 t1 e1 H1), (AddBudget_grow rm b k2 t2 e2 H2).
  destruct (decide (0 ≤ t1 ∧ (Z.to_nat t1 < length (thread_rptr_ b))%nat))
    as [Hv1|Hv1];
    destruct (decide (0 ≤ t2 ∧ (Z.to_nat t2 < length (thread_rptr_ b))%nat))
      as [Hv2|Hv2]; simpl.
  - rewrite !AddBudget_grow by done.
    cbn [set_threads thread_rptr_]. rewrite !length_alter.
    rewrite !decide_True by done.
    f_equal. unfold set_threads. cbn. f_equal.
    change (offset_key rm (mkBuilder _ _ _ (base_row_offset_ b)
                             (thread_displacement_ b)) ?k ?t)
      with (offset_key rm b k t).
    apply alter_alter_comm. intros _ tr. apply budget_buffer_comm.
  - rewrite AddBudget_grow by done. cbn [set_threads thread_rptr_].
    rewrite length_alter. by rewrite decide_False.
  - rewrite AddBudget_grow by done. cbn [set_threads thread_rptr_].
    rewrite length_alter. by rewrite decide_False.
  - done.
Qed.

Lemma AddBudgets_cons {V} rm c bs (b : Builder V) :
  AddBudgets rm (c :: bs) b
  = AddBudget rm c.1.1 c.1.2 c.2 b ≫= AddBudgets rm bs.
Proof. by destruct c as [[k t] e]. Qed.

Lemma AddBudgets_perm {V} rm bs bs' :
  bs ≡ₚ bs' →
  ∀ b : Builder V,
    Forall (λ '(k, t, _), offset_key rm b k t + 1 < size_max) bs →
    AddBudgets rm bs b = AddBudgets rm bs' b.
Proof.
  induction 1 as [|c l l' Hp IH|c1 c2 l|l1 l2 l3 Hp1 IH1 Hp2 IH2];
    intros b Hok.
  - done.
  - rewrite !AddBudgets_cons. apply Forall_cons in Hok as [_ Hok].
    destruct (AddBudget rm c.1.1 c.1.2 c.2 b) as [b1|] eqn:E; [|done].
    simpl. apply IH. eapply Forall_impl; [exact Hok|].
    intros [[k t] e] Hkt.
    destruct (AddBudget_params _ _ _ _ _ _ E) as [Hb Hd].
    by rewrite (offset_key_params rm b b1 k t Hb Hd).
  - rewrite !AddBudgets_cons.
    apply Forall_cons in Hok as [H2 Hok].
    apply Forall_cons in Hok as [H1 _].
    destruct c1 as [[k1 t1] e1], c2 as [[k2 t2] e2]. simpl.
    pose proof (AddBudget_comm rm b k1 t1 e1 k2 t2 e2 H1 H2) as Hc.
    assert (Hassoc : ∀ ka ta ea kb tb eb,
              AddBudget rm ka ta ea b ≫= AddBudgets rm ((kb, tb, eb) :: l)
              = (AddBudget rm ka ta ea b ≫= AddBudget rm kb tb eb)
                  ≫= AddBudgets rm l).
    { intros. by destruct (AddBudget rm ka ta ea b). }
    by rewrite !Hassoc, Hc.
  - rewrite IH1 by done. apply IH2.
    by rewrite <- Hp1.
Qed.

(** X1.  [AddBudget] on thread [tid], whose buffer is [tr]: the buffer
    grows (with zeros) to hold the addressed cell when it is too short and
    keeps its length otherwise; the addressed cell gains [nelem] modulo
    2^64 (starting from 0 when it is new); every other cell keeps its
    value; the other buffers, [rptr_], [data_], [base_row_offset_] and
    [thread_displacement_] are unchanged. *)
Theorem AddBudget_cell {V} rm (b : Builder V) key tid nelem tr :
  0 ≤ tid → thread_rptr_ b !! Z.to_nat tid = Some tr →
  offset_key rm b key tid + 1 < size_max →
  ∃ b' tr',
    AddBudget rm key tid nelem b = Some b' ∧
    thread_rptr_ b' = <[Z.to_nat tid := tr']> (thread_rptr_ b) ∧
    length tr'
    = (length tr `max` (Z.to_nat (offset_key rm b key tid) + 1))%nat ∧
    (∀ j, (j < length tr')%nat →
       tr' !! j
       = Some (if decide (j = Z.to_nat (offset_key rm b key tid))
               then wadd (default 0 (tr !! j)) nelem
               else default 0 (tr !! j))) ∧
    rptr_ b' = rptr_ b ∧ data_ b' = data_ b ∧
    base_row_offset_ b' = base_row_offset_ b ∧
    thread_displacement_ b' = thread_displacement_ b.
Proof.
  intros Ht Htr Hmax. rewrite AddBudget_grow by done.
  rewrite decide_True by (split; [done|by eapply lookup_lt_Some]).
  eexists _, (budget_buffer (Z.to_nat (offset_key rm b key tid)) nelem tr).
  split; [done|]. cbn [set_threads thread_rptr_ rptr_ data_ base_row_offset_
                       thread_displacement_].
  split; [symmetry; by apply alter_as_insert|].
  rewrite length_budget_buffer.
  split; [lia|]. split; [|done].
  intros j Hj. rewrite lookup_budget_buffer. by rewrite decide_True by lia.
Qed.

(** Two threads with one cell each; thread 1 is about to budget key 2. *)
Definition example_short : Builder Z := mkBuilder [] [] [[5]; [7]] 0 0.

Lemma AddBudget_cell_witness :
  (0 ≤ 1 ∧ thread_rptr_ example_short !! Z.to_nat 1 = Some [7] ∧
   offset_key false example_short 2 1 + 1 < size_max) ∧
  ∃ b' tr',
    AddBudget false 2 1 3 example_short = Some b' ∧
    thread_rptr_ b' = <[Z.to_nat 1 := tr']> (thread_rptr_ example_short) ∧
    length tr'
    = (length [7]
       `max` (Z.to_nat (offset_key false example_short 2 1) + 1))%nat ∧
    (∀ j, (j < length tr')%nat →
       tr' !! j
       = Some (if decide (j = Z.to_nat (offset_key false example_short 2 1))
               then wadd (default 0 ([7] !! j)) 3
               else default 0 ([7] !! j))) ∧
    rptr_ b' = rptr_ example_short ∧ data_ b' = data_ example_short ∧
    base_row_offset_ b' = base_row_offset_ example_short ∧
    thread_displacement_ b' = thread_displacement_ example_short.
Proof.
  assert (H1 : 0 ≤ 1) by lia.
  assert (H2 : thread_rptr_ example_short !! Z.to_nat 1 = Some [7])
    by reflexivity.
  assert (H3 : offset_key false example_short 2 1 + 1 < size_max)
    by (rewrite size_max_eq; vm_compute; reflexivity).
  split; [exact (conj H1 (conj H2 H3))|].
  exact (AddBudget_cell false example_short 2 1 3 [7] H1 H2 H3).
Defined.

(** X2.  The budget phase does not depend on the order of its calls: a
    permutation of a sequence of [AddBudget] calls (whose translated
    indices are below 2^64 - 1) leaves the same builder, or fails
    alike.  Growth included: no call needs to stay inside the range
    hinted to [InitBudget]. *)
Theorem AddBudgets_order {V} rm (b : Builder V) bs bs' :
  bs ≡ₚ bs' →
  Forall (λ '(k, t, _), offset_key rm b k t + 1 < size_max) bs →
  AddBudgets rm bs b = AddBudgets rm bs' b.
Proof. intros Hp Hok. by apply AddBudgets_perm. Qed.

Lemma AddBudgets_order_witness :
  ([(0, 0, 1); (4, 1, 2); (0, 1, 1)] ≡ₚ [(4, 1, 2); (0, 1, 1); (0, 0, 1)] ∧
   Forall (λ '(k, t, _),
             offset_key false (mkBuilder [] ([] : list Z) [[0]; [0]] 0 0) k t
             + 1 < size_max)
          [(0, 0, 1); (4, 1, 2); (0, 1, 1)]) ∧
  AddBudgets false [(0, 0, 1); (4, 1, 2); (0, 1, 1)]
             (mkBuilder [] ([] : list Z) [[0]; [0]] 0 0)
  = AddBudgets false [(4, 1, 2); (0, 1, 1); (0, 0, 1)]
               (mkBuilder [] ([] : list Z) [[0]; [0]] 0 0).
Proof.
  assert (H1 : [(0, 0, 1); (4, 1, 2); (0, 1, 1)]
               ≡ₚ [(4, 1, 2); (0, 1, 1); (0, 0, 1)]).
  { change ([(0, 0, 1)] ++ [(4, 1, 2); (0, 1, 1)]
            ≡ₚ [(4, 1, 2); (0, 1, 1)] ++ [(0, 0, 1)]).
    apply Permutation_app_comm. }
  assert (H2 : Forall (λ '(k, t, _),
                  offset_key false (mkBuilder [] ([] : list Z) [[0]; [0]] 0 0)
                    k t + 1 < size_max)
                 [(0, 0, 1); (4, 1, 2); (0, 1, 1)]).
  { repeat constructor; rewrite size_max_eq; vm_compute; reflexivity. }
  split; [exact (conj H1 H2)|].
  exact (AddBudgets_order false (mkBuilder [] [] [[0]; [0]] 0 0) _ _ H1 H2).
Defined.


(** ** Interleavings of the push phase *)

Lemma group_ext {V} n (ps ps' : list (@push_call V)) k :
  (∀ t, pushed_for ps k t = pushed_for ps' k t) →
  group n ps k = group n ps' k.
Proof.
  intros H. unfold group. f_equal. apply list_fmap_ext. intros i t _. apply H.
Qed.

Lemma spec_rptr_ext {V} n (ps ps' : list (@push_call V)) rptr0 base W :
  (∀ k, group n ps k = group n ps' k) →
  spec_rptr n ps rptr0 base W = spec_rptr n ps' rptr0 base W.
Proof.
  intros H. unfold spec_rptr. f_equal. apply list_fmap_ext. intros i j _.
  f_equal. apply groups_before_ext. intros. apply H.
Qed.

Lemma spec_data_ext {V} (dflt : V) n ps ps' rptr0 data0 base W :
  (∀ k, group n ps k = group n ps' k) →
  spec_data dflt n ps rptr0 data0 base W
  = spec_data dflt n ps' rptr0 data0 base W.
Proof.
  intros H. unfold spec_data. do 2 f_equal.
  apply list_fmap_ext. intros i j _. apply H.
Qed.

(** X3.  The arrays a build leaves do not depend on how the calls of the
    threads are interleaved: two runs that keep the protocol and in which
    every (key, thread) pair pushes the same values in the same order end
    with the same [rptr_] and the same [data_], whatever the order of the
    budget calls and of the pushes of different pairs. *)
Theorem build_interleaving {V} (dflt : V) rm rptr0 data0 base max_key n
    bs ps bs' ps' :
  build_ok rm rptr0 base max_key n bs ps →
  build_ok rm rptr0 base max_key n bs' ps' →
  (∀ k t, pushed_for ps k t = pushed_for ps' k t) →
  ∃ b b',
    build dflt rm rptr0 data0 base max_key n bs ps = Some b ∧
    build dflt rm rptr0 data0 base max_key n bs' ps' = Some b' ∧
    rptr_ b = rptr_ b' ∧ data_ b = data_ b'.
Proof.
  intros H1 H2 Hsame.
  destruct (build_ok_spec dflt _ _ data0 _ _ _ _ _ H1) as (b & Hb & Hr & Hd).
  destruct (build_ok_spec dflt _ _ data0 _ _ _ _ _ H2)
    as (b' & Hb' & Hr' & Hd').
  assert (Hg : ∀ k, group n ps k = group n ps' k)
    by (intros k; by apply group_ext).
  exists b, b'. split; [done|]. split; [done|].
  rewrite Hr, Hr', Hd, Hd'.
  split; [by apply spec_rptr_ext|by apply spec_data_ext].
Qed.

(** The run [example_pushes] with the calls of the two threads in another
    order. *)
Lemma example_reordered_ok :
  build_ok false [] 0 2 2 [(0, 1, 1); (0, 0, 1); (1, 0, 1)]
           [(0, 12, 1); (0, 10, 0); (1, 11, 0)].
Proof.
  constructor.
  - lia.
  - lia.
  - lia.
  - rewrite size_max_eq. vm_compute. reflexivity.
  - solve_owns.
  - solve_owns.
  - solve_compliant.
  - simpl. lia.
  - vm_compute. discriminate.
  - rewrite size_max_eq. vm_compute. reflexivity.
Defined.

Lemma build_interleaving_witness :
  (build_ok false [] 0 2 2 example_budgets example_pushes ∧
   build_ok false [] 0 2 2 [(0, 1, 1); (0, 0, 1); (1, 0, 1)]
            [(0, 12, 1); (0, 10, 0); (1, 11, 0)] ∧
   ∀ k t, pushed_for example_pushes k t
          = pushed_for [(0, 12, 1); (0, 10, 0); (1, 11, 0)] k t) ∧
  ∃ b b',
    build 0 false [] [] 0 2 2 example_budgets example_pushes = Some b ∧
    build 0 false [] [] 0 2 2 [(0, 1, 1); (0, 0, 1); (1, 0, 1)]
          [(0, 12, 1); (0, 10, 0); (1, 11, 0)] = Some b' ∧
    rptr_ b = rptr_ b' ∧ data_ b = data_ b'.
Proof.
  assert (H : ∀ k t, pushed_for example_pushes k t
                     = pushed_for [(0, 12, 1); (0, 10, 0); (1, 11, 0)] k t).
  { intros k t. unfold pushed_for, example_pushes. simpl.
    repeat case_decide; try done; lia. }
  split; [exact (conj example_build_ok (conj example_reordered_ok H))|].
  exact (build_interleaving 0 false [] [] 0 2 2 _ _ _ _
           example_build_ok example_reordered_ok H).
Defined.

(** ** Cursors during the push phase *)

(** X4.  After any prefix [ps1] of the pushes of a run that keeps the
    protocol, the cell of each (key, thread) pair holds the cursor
    [InitStorage] gave it plus the number of values the pair has pushed so
    far, and the i-th of those values sits at that start cursor plus i:
    each value is written at its final place. *)
Theorem pushes_prefix {V} (dflt : V) rm rptr0 data0 base max_key n bs
    ps1 ps2 :
  build_ok rm rptr0 base max_key n bs (ps1 ++ ps2) →
  ∃ b2 b3 b',
    InitBudget rm max_key n (ParallelGroupBuilder rptr0 data0 base)
      ≫= AddBudgets rm bs = Some b2 ∧
    InitStorage dflt rm b2 = Some b3 ∧
    Pushes rm ps1 b3 = Some b' ∧
    ∀ k t, owns rm base max_key n k t →
      ∃ c, cursor rm b3 k t = Some c ∧
           cursor rm b' k t
           = Some (c + Z.of_nat (length (pushed_for ps1 k t))) ∧
           ∀ i v, pushed_for ps1 k t !! i = Some v →
                  data_ b' !! Z.to_nat (c + Z.of_nat i) = Some v.
Proof.
  intros [Hn Hbase Hmk Hsz Hbs Hps Hcomp Hprior Hfill Hov].
  pose proof (build_budget_phase rm rptr0 data0 base max_key n bs _
                Hn Hbase Hmk Hsz Hbs Hps Hov) as H2.
  destruct (cursors_run dflt rm rptr0 data0 base max_key n bs _
              Hn Hbase Hmk Hsz Hbs Hps Hcomp Hfill Hov Hprior
              ps1 ps2 eq_refl)
    as (b3 & b' & H3 & H4 & Hall).
  by exists (budget_builder rm rptr0 data0 base max_key n bs), b3, b'.
Qed.

Lemma pushes_prefix_witness :
  build_ok false [] 0 2 2 example_budgets
           ([(0, 10, 0)] ++ [(1, 11, 0); (0, 12, 1)]) ∧
  ∃ b2 b3 b',
    InitBudget false 2 2 (ParallelGroupBuilder [] [] 0)
      ≫= AddBudgets false example_budgets = Some b2 ∧
    InitStorage 0 false b2 = Some b3 ∧
    Pushes false [(0, 10, 0)] b3 = Some b' ∧
    ∀ k t, owns false 0 2 2 k t →
      ∃ c, cursor false b3 k t = Some c ∧
           cursor false b' k t
           = Some (c + Z.of_nat (length (pushed_for [(0, 10, 0)] k t))) ∧
           ∀ i v, pushed_for [(0, 10, 0)] k t !! i = Some v →
                  data_ b' !! Z.to_nat (c + Z.of_nat i) = Some v.
Proof.
  split; [exact example_build_ok|].
  exact (pushes_prefix 0 false [] [] 0 2 2 example_budgets
           [(0, 10, 0)] [(1, 11, 0); (0, 12, 1)] example_build_ok).
Defined.

(** ** A push beyond the budget *)

(** X5.  After a complete run that keeps the protocol, the cell of each
    (key, thread) pair holds the end of the pair's region.  One more push
    for the pair has no defined result when that is the end of [data_];
    otherwise it succeeds and overwrites a value that another (key, thread)
    pair had pushed, at a slot of that pair's region. *)
Theorem push_beyond_budget {V} (dflt : V) rm rptr0 data0 base max_key n
    bs ps key tid value :
  build_ok rm rptr0 base max_key n bs ps →
  owns rm base max_key n key tid →
  ∃ b2 b3 b4 c,
    InitBudget rm max_key n (ParallelGroupBuilder rptr0 data0 base)
      ≫= AddBudgets rm bs = Some b2 ∧
    InitStorage dflt rm b2 = Some b3 ∧
    Pushes rm ps b3 = Some b4 ∧
    cursor rm b3 key tid = Some c ∧
    cursor rm b4 key tid = Some (c + budget_for bs key tid) ∧
    c + budget_for bs key tid ≤ Z.of_nat (length (data_ b4)) ∧
    (c + budget_for bs key tid = Z.of_nat (length (data_ b4)) →
     Push rm key value tid b4 = None) ∧
    (c + budget_for bs key tid < Z.of_nat (length (data_ b4)) →
     ∃ b5 k' t' c' i w,
       Push rm key value tid b4 = Some b5 ∧
       owns rm base max_key n k' t' ∧ (k', t') ≠ (key, tid) ∧
       cursor rm b3 k' t' = Some c' ∧
       c + budget_for bs key tid = c' + Z.of_nat i ∧
       pushed_for ps k' t' !! i = Some w ∧
       data_ b4 !! Z.to_nat (c' + Z.of_nat i) = Some w ∧
       data_ b5 = <[Z.to_nat (c' + Z.of_nat i) := value]> (data_ b4)).
Proof.
  intros [Hn Hbase Hmk Hsz Hbs Hps Hcomp Hprior Hfill Hov] Ho.
  pose proof (build_budget_phase rm rptr0 data0 base max_key n bs ps
                Hn Hbase Hmk Hsz Hbs Hps Hov) as H2.
  destruct (overrun_run dflt rm rptr0 data0 base max_key n bs ps
              Hn Hbase Hmk Hsz Hbs Hps Hcomp Hfill Hov Hprior
              key tid value Ho)
    as (b3 & b4 & c & H3 & H4 & Hrest).
  by exists (budget_builder rm rptr0 data0 base max_key n bs), b3, b4, c.
Qed.

Lemma push_beyond_budget_witness :
  (build_ok false [] 0 2 2 example_budgets example_pushes ∧
   owns false 0 2 2 0 1) ∧
  ∃ b2 b3 b4 c,
    InitBudget false 2 2 (ParallelGroupBuilder [] [] 0)
      ≫= AddBudgets false example_budgets = Some b2 ∧
    InitStorage 0 false b2 = Some b3 ∧
    Pushes false example_pushes b3 = Some b4 ∧
    cursor false b3 0 1 = Some c ∧
    cursor false b4 0 1 = Some (c + budget_for example_budgets 0 1) ∧
    c + budget_for example_budgets 0 1 ≤ Z.of_nat (length (data_ b4)) ∧
    (c + budget_for example_budgets 0 1 = Z.of_nat (length (data_ b4)) →
     Push false 0 99 1 b4 = None) ∧
    (c + budget_for example_budgets 0 1 < Z.of_nat (length (data_ b4)) →
     ∃ b5 k' t' c' i w,
       Push false 0 99 1 b4 = Some b5 ∧
       owns false 0 2 2 k' t' ∧ (k', t') ≠ (0, 1) ∧
       cursor false b3 k' t' = Some c' ∧
       c + budget_for example_budgets 0 1 = c' + Z.of_nat i ∧
       pushed_for example_pushes k' t' !! i = Some w ∧
       data_ b4 !! Z.to_nat (c' + Z.of_nat i) = Some w ∧
       data_ b5 = <[Z.to_nat (c' + Z.of_nat i) := 99]> (data_ b4)).
Proof.
  assert (Ho : owns false 0 2 2 0 1)
    by (unfold owns, slice_lo, slice_len; simpl; lia).
  split; [exact (conj example_build_ok Ho)|].
  exact (push_beyond_budget 0 false [] [] 0 2 2 example_budgets
           example_pushes 0 1 99 example_build_ok Ho).
Defined.


(** ** Step 1 on a builder that already holds counts *)

Lemma lookup_resize_default {A} (l : list A) n x i :
  resize n x l !! i
  = if decide (i < n)%nat then Some (default x (l !! i)) else None.
Proof.
  case_decide as Hi.
  - destruct (decide (i < length l)%nat) as [Hlt|Hge].
    + rewrite lookup_resize by lia.
      by destruct (lookup_lt_is_Some_2 l i Hlt) as [y ->].
    + rewrite lookup_resize_new by lia.
      by rewrite (lookup_ge_None_2 l) by lia.
  - apply lookup_ge_None_2. rewrite length_resize. lia.
Qed.

(** X6.  [InitBudget] is not a reset.  It leaves [nthread] buffers of the
    sizes it computes, but a cell that existed before keeps its count; only
    the cells it adds are zero (and cells or buffers beyond the new sizes
    are dropped).  [rptr_], [data_] and [base_row_offset_] are untouched. *)
Theorem InitBudget_keeps_counts {V} rm max_key n (b : Builder V) :
  1 ≤ n →
  ∃ b',
    InitBudget rm max_key n b = Some b' ∧
    rptr_ b' = rptr_ b ∧ data_ b' = data_ b ∧
    base_row_offset_ b' = base_row_offset_ b ∧
    thread_displacement_ b'
    = displacement_of rm (base_row_offset_ b) max_key n ∧
    length (thread_rptr_ b') = Z.to_nat n ∧
    ∀ t j,
      cell (thread_rptr_ b') t j
      = if decide (Z.of_nat t < n ∧
                   Z.of_nat j
                   < (if decide (Z.of_nat t = n - 1)
                      then last_thread_size_of rm (base_row_offset_ b)
                             max_key n
                      else thread_size_of rm (base_row_offset_ b) max_key n))
        then Some (cnt (thread_rptr_ b) t j) else None.
Proof.
  intros Hn. rewrite InitBudget_eq by done.
  eexists. split; [done|].
  cbn [rptr_ data_ base_row_offset_ thread_displacement_ thread_rptr_].
  do 4 (split; [done|]).
  set (s1 := thread_size_of rm (base_row_offset_ b) max_key n).
  set (s2 := last_thread_size_of rm (base_row_offset_ b) max_key n).
  set (trs := vresize n [] (thread_rptr_ b)).
  assert (Hlen : length trs = Z.to_nat n)
    by (unfold trs, vresize; apply length_resize).
  assert (Htrs : ∀ t, (t < Z.to_nat n)%nat →
            trs !! t = Some (default [] (thread_rptr_ b !! t))).
  { intros t Ht. unfold trs, vresize.
    by rewrite lookup_resize_default, decide_True by done. }
  split.
  { rewrite length_app, !length_fmap, length_take, length_drop. lia. }
  intros t j. unfold cell.
  assert (Hcnt : ∀ m, (resize m 0 (default [] (thread_rptr_ b !! t)) !! j)
                 = if decide (j < m)%nat
                   then Some (cnt (thread_rptr_ b) t j) else None).
  { intros m. rewrite lookup_resize_default. case_decide; [|done].
    f_equal. unfold cnt, cell.
    by destruct (thread_rptr_ b !! t). }
  destruct (decide (t < Z.to_nat (n - 1))%nat) as [Ht|Ht].
  - rewrite lookup_app_l by (rewrite length_fmap, length_take; lia).
    rewrite list_lookup_fmap, lookup_take_lt, Htrs by lia. simpl.
    unfold vresize. rewrite Hcnt.
    rewrite (decide_False (P := Z.of_nat t = n - 1)) by lia.
    destruct (decide (j < Z.to_nat s1)%nat).
    + by rewrite decide_True by lia.
    + by rewrite decide_False by lia.
  - rewrite lookup_app_r by (rewrite length_fmap, length_take; lia).
    rewrite length_fmap, length_take, list_lookup_fmap, lookup_drop.
    destruct (decide (t = Z.to_nat (n - 1))) as [->|Hne].
    + replace (Z.to_nat (n - 1)
               + (Z.to_nat (n - 1) - Z.to_nat (n - 1) `min` length trs))%nat
        with (Z.to_nat (n - 1)) by lia.
      rewrite Htrs by lia. simpl. unfold vresize. rewrite Hcnt.
      rewrite (decide_True (P := Z.of_nat (Z.to_nat (n - 1)) = n - 1))
        by lia.
      destruct (decide (j < Z.to_nat s2)%nat).
      * by rewrite decide_True by lia.
      * by rewrite decide_False by lia.
    + rewrite lookup_ge_None_2 by lia. simpl.
      by rewrite decide_False by lia.
Qed.

(** Thread 0 budgeted 4 and 5 for its first two keys, thread 1 has not
    been used yet. *)
Definition example_reused : Builder Z :=
  mkBuilder [] [] [[4; 5; 6; 7]] 0 0.

Lemma InitBudget_keeps_counts_witness :
  1 ≤ 2 ∧
  ∃ b',
    InitBudget false 3 2 example_reused = Some b' ∧
    rptr_ b' = rptr_ example_reused ∧ data_ b' = data_ example_reused ∧
    base_row_offset_ b' = base_row_offset_ example_reused ∧
    thread_displacement_ b'
    = displacement_of false (base_row_offset_ example_reused) 3 2 ∧
    length (thread_rptr_ b') = Z.to_nat 2 ∧
    ∀ t j,
      cell (thread_rptr_ b') t j
      = if decide (Z.of_nat t < 2 ∧
                   Z.of_nat j
                   < (if decide (Z.of_nat t = 2 - 1)
                      then last_thread_size_of false
                             (base_row_offset_ example_reused) 3 2
                      else thread_size_of false
                             (base_row_offset_ example_reused) 3 2))
        then Some (cnt (thread_rptr_ example_reused) t j) else None.
Proof.
  assert (H : 1 ≤ 2) by lia.
  split; [exact H|].
  exact (InitBudget_keeps_counts false 3 2 example_reused H).
Defined.


(** ** Step 3 on any counts: what the general branch computes *)

Lemma rows_needed_bound base trs B :
  Forall (λ tr, Z.of_nat base + vsize tr + 1 < B) trs → 0 < B →
  Z.of_nat (rows_needed base trs) < B.
Proof.
  intros Hall HB. induction Hall as [|tr trs Htr _ IH].
  - unfold rows_needed. simpl. lia.
  - rewrite rows_needed_cons. unfold vsize in Htr. lia.
Qed.

Lemma rows_needed_row base trs t j :
  is_Some (cell trs t j) → (j + base + 1 < rows_needed base trs)%nat.
Proof.
  unfold cell. intros [c Hc].
  destruct (trs !! t) as [tr|] eqn:E; [|done]. simpl in Hc.
  apply lookup_lt_Some in Hc.
  assert (length tr + base + 1 ≤ rows_needed base trs)%nat; [|lia].
  apply max_list_elem_of_le, list_elem_of_fmap. exists tr.
  split; [done|]. by eapply list_elem_of_lookup_2.
Qed.

(** X7.  The general branch of [InitStorage], for buffers of any lengths
    and any counts, with all sums taken modulo 2^64.  The offset array gets
    the length of its longest need and is never shortened; an entry up to
    index [base_row_offset_] keeps its value (a new one is the prior last
    entry); an entry at [base_row_offset_ + k] is its old value (the prior
    last entry when new) plus the counts of all threads for the first [k]
    rows; the cell of thread [t] for row [j] becomes the prior last entry
    plus the counts of the rows before [j] plus the counts for row [j] of
    the threads before [t]; and [data_] is resized to the last offset. *)
Theorem InitStorage_general_sums {V} (dflt : V) (b : Builder V) :
  0 ≤ base_row_offset_ b →
  thread_rptr_ b ≠ [] →
  Z.of_nat (length (rptr_ b)) < size_max →
  Forall (λ tr, base_row_offset_ b + vsize tr + 1 < size_max)
         (thread_rptr_ b) →
  ∃ b3 back,
    InitStorage dflt false b = Some b3 ∧
    length (rptr_ b3)
    = (length (rptr_ b)
       `max` (max_list (length <$> thread_rptr_ b)
              + Z.to_nat (base_row_offset_ b) + 1))%nat ∧
    (∀ k, (k < length (rptr_ b3))%nat →
       rptr_ b3 !! k
       = Some (if decide (Z.to_nat (base_row_offset_ b) < k)%nat
               then wrap (default (rptr_fill (rptr_ b)) (rptr_ b !! k)
                          + rows_before (thread_rptr_ b)
                              (k - Z.to_nat (base_row_offset_ b)))
               else default (rptr_fill (rptr_ b)) (rptr_ b !! k))) ∧
    shape (thread_rptr_ b3) = shape (thread_rptr_ b) ∧
    (∀ t j, is_Some (cell (thread_rptr_ b) t j) →
       cell (thread_rptr_ b3) t j
       = Some (wrap (rows_before (thread_rptr_ b) j
                     + col_before (thread_rptr_ b) t j
                     + rptr_fill (rptr_ b)))) ∧
    last (rptr_ b3) = Some back ∧
    data_ b3 = resize (Z.to_nat back) dflt (data_ b).
Proof.
  intros Hbase Hthr Hlen Hrows.
  set (base := Z.to_nat (base_row_offset_ b)).
  set (trs := thread_rptr_ b). set (fill := rptr_fill (rptr_ b)).
  set (N := (length (rptr_ b) `max` rows_needed base trs)%nat).
  assert (Hneed : rows_needed base trs
                  = (max_list (length <$> trs) + base + 1)%nat)
    by (by apply rows_needed_max).
  assert (HN0 : (0 < N)%nat) by (unfold N; lia).
  assert (HN : Z.of_nat N < size_max).
  { assert (Z.of_nat (rows_needed base trs) < size_max); [|unfold N; lia].
    apply rows_needed_bound; [|apply size_max_pos].
    eapply Forall_impl; [exact Hrows|]. intros tr Htr. simpl in Htr.
    unfold base. lia. }
  rewrite (InitStorage_general dflt b Hbase HN0 HN).
  assert (Hl : length (general_rptr b) = N)
    by (unfold general_rptr; by rewrite length_imap, length_resize).
  destruct (last (general_rptr b)) as [back|] eqn:Eback.
  2:{ apply last_None in Eback. rewrite Eback in Hl. simpl in Hl. lia. }
  eexists _, back. split; [done|].
  cbn [rptr_ data_ thread_rptr_]. rewrite Hl.
  split; [unfold N; by rewrite Hneed|]. split.
  { intros k Hk. unfold general_rptr. fold base trs fill N.
    rewrite list_lookup_imap, lookup_resize_default, decide_True by done.
    simpl. f_equal. unfold gen_offset.
    destruct (decide (base < k)%nat).
    - by rewrite decide_True by lia.
    - by rewrite decide_False by lia. }
  split; [apply shape_cmap|]. split; [|done].
  intros t j Hc. unfold general_cursors. fold base trs fill N.
  rewrite cell_cmap.
  pose proof (rows_needed_row base trs t j Hc) as Hj.
  destruct Hc as [c ->]. simpl. f_equal. unfold gen_cursor.
  by rewrite decide_True by (unfold N; lia).
Qed.

Lemma InitStorage_general_sums_witness :
  (0 ≤ base_row_offset_ example_unequal ∧
   thread_rptr_ example_unequal ≠ [] ∧
   Z.of_nat (length (rptr_ example_unequal)) < size_max ∧
   Forall (λ tr, base_row_offset_ example_unequal + vsize tr + 1 < size_max)
          (thread_rptr_ example_unequal)) ∧
  ∃ b3 back,
    InitStorage 0 false example_unequal = Some b3 ∧
    length (rptr_ b3)
    = (length (rptr_ example_unequal)
       `max` (max_list (length <$> thread_rptr_ example_unequal)
              + Z.to_nat (base_row_offset_ example_unequal) + 1))%nat ∧
    (∀ k, (k < length (rptr_ b3))%nat →
       rptr_ b3 !! k
       = Some (if decide (Z.to_nat (base_row_offset_ example_unequal) < k)%nat
               then wrap (default (rptr_fill (rptr_ example_unequal))
                                  (rptr_ example_unequal !! k)
                          + rows_before (thread_rptr_ example_unequal)
                              (k - Z.to_nat (base_row_offset_ example_unequal)))
               else default (rptr_fill (rptr_ example_unequal))
                            (rptr_ example_unequal !! k))) ∧
    shape (thread_rptr_ b3) = shape (thread_rptr_ example_unequal) ∧
    (∀ t j, is_Some (cell (thread_rptr_ example_unequal) t j) →
       cell (thread_rptr_ b3) t j
       = Some (wrap (rows_before (thread_rptr_ example_unequal) j
                     + col_before (thread_rptr_ example_unequal) t j
                     + rptr_fill (rptr_ example_unequal)))) ∧
    last (rptr_ b3) = Some back ∧
    data_ b3 = resize (Z.to_nat back) 0 (data_ example_unequal).
Proof.
  assert (H1 : 0 ≤ base_row_offset_ example_unequal) by (simpl; lia).
  assert (H2 : thread_rptr_ example_unequal ≠ []) by (simpl; discriminate).
  assert (H3 : Z.of_nat (length (rptr_ example_unequal)) < size_max)
    by (rewrite size_max_eq; vm_compute; reflexivity).
  assert (H4 : Forall (λ tr, base_row_offset_ example_unequal + vsize tr + 1
                             < size_max)
                 (thread_rptr_ example_unequal)).
  { repeat constructor; rewrite size_max_eq; vm_compute; reflexivity. }
  split; [exact (conj H1 (conj H2 (conj H3 H4)))|].
  exact (InitStorage_general_sums 0 example_unequal H1 H2 H3 H4).
Defined.


(** ** Step 3 on any counts: what the row-major branch computes *)

Lemma InitStorage_row_major_any {V} (dflt : V) (b : Builder V) :
  let base := Z.to_nat (base_row_offset_ b) in
  let flat := mjoin (thread_rptr_ b) in
  let fill := rptr_fill (rptr_ b) in
  let rptr :=
    resize (base + 1) fill (rptr_ b)
    ++ zip_with (λ x s, wrap (x + s))
         (resize (length flat) fill (drop (base + 1) (rptr_ b)))
         (psums 0 flat) in
  0 ≤ base_row_offset_ b →
  Z.of_nat (base + 1 + length flat) < size_max →
  InitStorage dflt true b =
    Some (mkBuilder rptr (vresize (default 0 (last rptr)) dflt (data_ b))
            (row_major_cursors b)
            (base_row_offset_ b) (thread_displacement_ b)).
Proof.
  intros base flat fill rptr Hbase Hmax. unfold InitStorage.
  pose proof (expected_rows_eq (thread_rptr_ b) 0) as He.
  change (wrap 0) with 0 in He. rewrite He. clear He.
  fold flat fill. unfold wadd.
  rewrite (wrap_small (0 + _)) by lia.
  rewrite (wrap_small (0 + _ + _)) by lia.
  rewrite (wrap_small (0 + _ + _ + 1)) by lia.
  rewrite (wrap_small (base_row_offset_ b + 1)) by lia.
  unfold vresize.
  replace (Z.to_nat (0 + Z.of_nat (length flat) + base_row_offset_ b + 1))
    with ((base + 1) + length flat)%nat by (unfold base; lia).
  rewrite resize_add.
  set (mid := resize (length flat) fill (drop (base + 1) (rptr_ b))).
  destruct (mapAccumL_nested (rm_cell fill)
              (mkScan 0 (base_row_offset_ b + 1)
                 (resize (base + 1) fill (rptr_ b) ++ mid))
              (thread_rptr_ b)) as [Hflat Hshape].
  change (mapAccumL (rm_thread fill)) with
    (mapAccumL (λ s l, mapAccumL (rm_cell fill) s l)).
  destruct (mapAccumL (λ s l, mapAccumL (rm_cell fill) s l) _ (thread_rptr_ b))
    as [st trs'] eqn:E.
  simpl in Hflat, Hshape. fold flat in Hflat.
  pose proof (rm_scan fill flat 0 (resize (base + 1) fill (rptr_ b))
                mid []) as Hscan.
  rewrite length_resize, app_nil_r in Hscan.
  replace (Z.of_nat (base + 1)) with (base_row_offset_ b + 1) in Hscan
    by (unfold base; lia).
  change (wrap 0) with 0 in Hscan.
  rewrite Hscan in Hflat by (unfold mid; rewrite ?length_resize; lia).
  injection Hflat as Hst Htrs. subst st. simpl.
  rewrite app_nil_r. unfold mid. fold rptr.
  assert (Hc : trs' = row_major_cursors b).
  { unfold row_major_cursors. fold flat fill. rewrite Htrs.
    symmetry. apply reshape_of_shape. exact Hshape. }
  rewrite Hc. unfold vback.
  destruct (last rptr) eqn:El; [done|].
  apply last_None in El. apply (f_equal length) in El.
  unfold rptr in El. rewrite length_app, length_resize in El.
  simpl in El. lia.
Qed.

(** X8.  The row-major branch of [InitStorage], for buffers of any lengths
    and any counts, with all sums taken modulo 2^64.  The offset array gets
    exactly [base_row_offset_ + 1] entries plus one per cell of the
    buffers, also when it was longer before; an entry up to index
    [base_row_offset_] keeps its value (a new one is the prior last entry);
    the entry at [base_row_offset_ + k] is its old value (the prior last
    entry when new) plus the counts of the first [k] cells of the buffers
    laid end to end in thread order; the cell at position [p] of that
    sequence becomes the prior last entry plus the counts of the [p] cells
    before it; and [data_] is resized to the last offset. *)
Theorem InitStorage_row_major_sums {V} (dflt : V) (b : Builder V) :
  0 ≤ base_row_offset_ b →
  base_row_offset_ b + 1 + Z.of_nat (length (mjoin (thread_rptr_ b)))
    < size_max →
  ∃ b3 back,
    InitStorage dflt true b = Some b3 ∧
    length (rptr_ b3)
    = (Z.to_nat (base_row_offset_ b) + 1
       + length (mjoin (thread_rptr_ b)))%nat ∧
    (∀ k, (k < length (rptr_ b3))%nat →
       rptr_ b3 !! k
       = Some (if decide (Z.to_nat (base_row_offset_ b) < k)%nat
               then wrap (default (rptr_fill (rptr_ b)) (rptr_ b !! k)
                          + sumZ (take (k - Z.to_nat (base_row_offset_ b))
                                       (mjoin (thread_rptr_ b))))
               else default (rptr_fill (rptr_ b)) (rptr_ b !! k))) ∧
    shape (thread_rptr_ b3) = shape (thread_rptr_ b) ∧
    (∀ t j, is_Some (cell (thread_rptr_ b) t j) →
       cell (thread_rptr_ b3) t j
       = Some (wrap (sumZ (take (flat_index (shape (thread_rptr_ b)) t j)
                                (mjoin (thread_rptr_ b)))
                     + rptr_fill (rptr_ b)))) ∧
    last (rptr_ b3) = Some back ∧
    data_ b3 = resize (Z.to_nat back) dflt (data_ b).
Proof.
  intros Hbase Hmax.
  rewrite InitStorage_row_major_any by (try done; lia).
  set (base := Z.to_nat (base_row_offset_ b)).
  set (flat := mjoin (thread_rptr_ b)). set (fill := rptr_fill (rptr_ b)).
  set (rptr := resize (base + 1) fill (rptr_ b) ++ _).
  assert (Hl : length rptr = (base + 1 + length flat)%nat).
  { unfold rptr.
    rewrite length_app, length_resize, length_zip_with, length_resize,
      length_psums. lia. }
  destruct (last rptr) as [back|] eqn:Eback.
  2:{ apply last_None in Eback. rewrite Eback in Hl. simpl in Hl. lia. }
  eexists _, back. split; [done|].
  cbn [rptr_ data_ thread_rptr_]. rewrite Hl.
  split; [done|]. split.
  { intros k Hk. unfold rptr. destruct (decide (base < k)%nat) as [Hlt|Hge].
    - rewrite lookup_app_r by (rewrite length_resize; lia).
      rewrite length_resize, lookup_zip_with.
      rewrite lookup_resize_default, decide_True by lia. simpl.
      rewrite lookup_psums by lia. simpl. rewrite lookup_drop.
      do 2 f_equal.
      replace (base + 1 + (k - (base + 1)))%nat with k by lia.
      replace (S (k - (base + 1))) with (k - base)%nat by lia.
      lia.
    - rewrite lookup_app_l by (rewrite length_resize; lia).
      by rewrite lookup_resize_default, decide_True by lia. }
  assert (Hsh : shape (row_major_cursors b) = shape (thread_rptr_ b)).
  { unfold row_major_cursors. apply shape_reshape.
    rewrite length_fmap, length_esums. symmetry. apply length_mjoin_shape. }
  split; [done|]. split; [|done].
  intros t j Hc. apply valid_cell_cell in Hc.
  unfold row_major_cursors. rewrite cell_reshape by done.
  pose proof (flat_index_bound _ _ _ Hc) as Hb.
  rewrite <- length_mjoin_shape in Hb.
  rewrite list_lookup_fmap, lookup_esums by done. simpl.
  by rewrite Z.add_0_l.
Qed.

(** An offset array left too long by an earlier use, and two buffers. *)
Definition example_long : Builder Z :=
  mkBuilder [0; 2; 5; 9; 9; 9; 9] [1; 1] [[3]; [4; 0]] 1 1.

Lemma InitStorage_row_major_sums_witness :
  (0 ≤ base_row_offset_ example_long ∧
   base_row_offset_ example_long + 1
   + Z.of_nat (length (mjoin (thread_rptr_ example_long))) < size_max) ∧
  ∃ b3 back,
    InitStorage 0 true example_long = Some b3 ∧
    length (rptr_ b3)
    = (Z.to_nat (base_row_offset_ example_long) + 1
       + length (mjoin (thread_rptr_ example_long)))%nat ∧
    (∀ k, (k < length (rptr_ b3))%nat →
       rptr_ b3 !! k
       = Some (if decide (Z.to_nat (base_row_offset_ example_long) < k)%nat
               then wrap (default (rptr_fill (rptr_ example_long))
                                  (rptr_ example_long !! k)
                          + sumZ (take
                                    (k - Z.to_nat
                                           (base_row_offset_ example_long))
                                    (mjoin (thread_rptr_ example_long))))
               else default (rptr_fill (rptr_ example_long))
                            (rptr_ example_long !! k))) ∧
    shape (thread_rptr_ b3) = shape (thread_rptr_ example_long) ∧
    (∀ t j, is_Some (cell (thread_rptr_ example_long) t j) →
       cell (thread_rptr_ b3) t j
       = Some (wrap (sumZ (take (flat_index
                                   (shape (thread_rptr_ example_long)) t j)
                                (mjoin (thread_rptr_ example_long)))
                     + rptr_fill (rptr_ example_long)))) ∧
    last (rptr_ b3) = Some back ∧
    data_ b3 = resize (Z.to_nat back) 0 (data_ example_long).
Proof.
  assert (H1 : 0 ≤ base_row_offset_ example_long) by (simpl; lia).
  assert (H2 : base_row_offset_ example_long + 1
               + Z.of_nat (length (mjoin (thread_rptr_ example_long)))
               < size_max)
    by (rewrite size_max_eq; vm_compute; reflexivity).
  split; [exact (conj H1 H2)|].
  exact (InitStorage_row_major_sums 0 example_long H1 H2).
Defined.


(** ** The cells [InitBudget] allocates *)

Lemma okey_eq rm base disp key tid :
  okey rm base disp key tid
  = wrap (key - base - (if rm then tid * disp else 0)).
Proof.
  unfold okey, wsub, wmul, wrap. destruct rm.
  - by rewrite Zmult_mod_idemp_l, Zminus_mod_idemp_r, Zminus_mod_idemp_l.
  - by rewrite Z.sub_0_r.
Qed.

Lemma wrap_neg z : - size_max ≤ z < 0 → wrap z = z + size_max.
Proof.
  intros Hz. unfold wrap.
  rewrite <- (Z_mod_plus_full z 1 size_max), Z.mul_1_l.
  apply Z.mod_small. lia.
Qed.

Lemma slice_bounds rm base max_key n tid :
  1 ≤ n → 0 ≤ base → 0 ≤ max_key → 0 ≤ tid < n →
  base ≤ slice_lo rm base max_key n tid ≤ base + max_key ∧
  0 ≤ slice_len rm base max_key n tid ≤ max_key ∧
  slice_lo rm base max_key n tid
  = base + (if rm then tid * displacement_of rm base max_key n else 0).
Proof.
  intros Hn Hb Hm Ht. destruct (div_slices max_key n Hm Hn) as [Hq1 Hq2].
  unfold slice_lo, slice_len, displacement_of, full_size_of.
  destruct rm; [|lia].
  split; [nia|]. split; [|done]. case_decide; [lia|nia].
Qed.

Lemma fresh_buffer rm base max_key n (t : nat) :
  1 ≤ n → 0 ≤ base → 0 ≤ max_key → base + max_key + 1 < size_max →
  Z.of_nat t < n →
  budget_buffers0 rm base max_key n !! t
  = Some (replicate (Z.to_nat (slice_len rm base max_key n (Z.of_nat t))) 0).
Proof.
  intros Hn Hb Hm Hsz Ht.
  apply (budget_buffers0_lookup (V := Z) rm [] base max_key n [] []);
    try done.
  - unfold nkeys. destruct rm; lia.
  - rewrite groups_before_nil. change (rptr_fill []) with 0.
    pose proof size_max_pos. lia.
Qed.

Lemma fresh_cursor_owns {V} rm (r : list Z) (d : list V) base max_key n
    key tid :
  1 ≤ n → 0 ≤ base → 0 ≤ max_key → base + 2 * max_key + 1 < size_max →
  0 ≤ key < size_max →
  is_Some (cursor rm
             (mkBuilder r d (budget_buffers0 rm base max_key n) base
                        (displacement_of rm base max_key n))
             key tid)
  ↔ owns rm base max_key n key tid.
Proof.
  intros Hn Hb Hm Hsz Hkey. unfold cursor. cbn [thread_rptr_].
  change (offset_key rm (mkBuilder _ _ _ ?ba ?di) key tid)
    with (okey rm ba di key tid).
  rewrite okey_eq.
  split.
  - intros [c Hc].
    destruct (vat (budget_buffers0 rm base max_key n) tid) as [tr|] eqn:E;
      [|done].
    unfold vat in E. case_bool_decide as Ht0; [|done].
    pose proof (lookup_lt_Some _ _ _ E) as Hlt.
    rewrite (budget_buffers0_length rm [] base max_key n Hn) in Hlt.
    rewrite fresh_buffer in E by lia. injection E as <-.
    simpl in Hc. unfold vat in Hc. case_bool_decide as Hw; [|done].
    apply lookup_lt_Some in Hc. rewrite length_replicate in Hc.
    rewrite Z2Nat.id in Hc by lia.
    destruct (slice_bounds rm base max_key n tid Hn Hb Hm ltac:(lia))
      as (Hlo & Hlen & Elo).
    replace (key - base
             - (if rm then tid * displacement_of rm base max_key n else 0))
      with (key - slice_lo rm base max_key n tid) in Hc, Hw by lia.
    split; [lia|].
    destruct (decide (0 ≤ key - slice_lo rm base max_key n tid)) as [Hz|Hz].
    + rewrite wrap_small in Hc by lia. lia.
    + rewrite wrap_neg in Hc by lia. lia.
  - intros [Ht Hk].
    destruct (slice_bounds rm base max_key n tid Hn Hb Hm Ht)
      as (Hlo & Hlen & Elo).
    rewrite vat_nonneg by lia.
    rewrite (fresh_buffer rm base max_key n (Z.to_nat tid)) by lia.
    rewrite Z2Nat.id by lia. simpl.
    replace (key - base
             - (if rm then tid * displacement_of rm base max_key n else 0))
      with (key - slice_lo rm base max_key n tid) by lia.
    rewrite wrap_small by lia. rewrite vat_nonneg by lia.
    rewrite lookup_replicate_2 by lia. by eexists.
Qed.

(** X9.  The (key, thread) pairs for which [InitBudget] allocates a cell,
    so that [AddBudget] and [Push] address it without growth: the thread id
    is in [0, nthread) and the key lies in the thread's slice [owns]; in
    general mode that is every key in [base_row_offset_, max_key) for every
    thread, in row-major mode the keys from
    [base_row_offset_ + tid * thread_displacement_] on, as many as the
    thread's buffer has cells.  For any other pair the translated index
    falls outside the buffer (wrapped around when the key is below the
    slice). *)
Theorem InitBudget_cells {V} rm (r : list Z) (d : list V) base max_key n
    key tid :
  1 ≤ n → 0 ≤ base → 0 ≤ max_key → base + 2 * max_key + 1 < size_max →
  0 ≤ key < size_max →
  ∃ b1,
    InitBudget rm max_key n (ParallelGroupBuilder r d base) = Some b1 ∧
    (is_Some (cursor rm b1 key tid) ↔ owns rm base max_key n key tid).
Proof.
  intros Hn Hb Hm Hsz Hkey. rewrite InitBudget_fresh by done.
  eexists. split; [done|]. by apply fresh_cursor_owns.
Qed.

Lemma InitBudget_cells_witness :
  (1 ≤ 2 ∧ 0 ≤ 1 ∧ 0 ≤ 5 ∧ 1 + 2 * 5 + 1 < size_max ∧ 0 ≤ 4 < size_max) ∧
  ∃ b1,
    InitBudget true 5 2 (ParallelGroupBuilder [0; 7] [1; 1; 1; 1; 1; 1; 1] 1)
    = Some b1 ∧
    (is_Some (cursor true b1 4 1) ↔ owns true 1 5 2 4 1).
Proof.
  assert (H1 : 1 ≤ 2) by lia.
  assert (H2 : 0 ≤ 1) by lia.
  assert (H3 : 0 ≤ 5) by lia.
  assert (H4 : 1 + 2 * 5 + 1 < size_max) by (rewrite size_max_eq; lia).
  assert (H5 : 0 ≤ 4 < size_max) by (rewrite size_max_eq; lia).
  split; [exact (conj H1 (conj H2 (conj H3 (conj H4 H5))))|].
  exact (InitBudget_cells true [0; 7] [1; 1; 1; 1; 1; 1; 1] 1 5 2 4 1
           H1 H2 H3 H4 H5).
Defined.

(** X10.  In row-major mode every key of the batch, [base_row_offset_]
    to [base_row_offset_ + max_key - 1], has a cell in the buffer of
    exactly one thread: thread [(key - base_row_offset_) /
    thread_displacement_] for the keys below
    [base_row_offset_ + (nthread - 1) * thread_displacement_], and the last
    thread for the others ([rm_owner]). *)
Theorem InitBudget_row_major_owner {V} (r : list Z) (d : list V) base
    max_key n key :
  1 ≤ n → 0 ≤ base → 0 ≤ max_key → base + 2 * max_key + 1 < size_max →
  base ≤ key < base + max_key →
  ∃ b1,
    InitBudget true max_key n (ParallelGroupBuilder r d base) = Some b1 ∧
    ∀ tid, is_Some (cursor true b1 key tid)
           ↔ tid = Z.of_nat (rm_owner max_key n (Z.to_nat (key - base))).
Proof.
  intros Hn Hb Hm Hsz Hkey. rewrite InitBudget_fresh by done.
  eexists. split; [done|]. intros tid.
  pose proof (fresh_cursor_owns true r d base max_key n key tid
                Hn Hb Hm Hsz ltac:(lia)) as Hiff.
  set (i := Z.to_nat (key - base)).
  destruct (rm_owner_spec true [] base max_key n Hn Hm eq_refl
              ltac:(simpl; lia) i ltac:(unfold nkeys, i; lia))
    as (Ho1 & Ho2 & Ho3).
  assert (Hown : owns true base max_key n key
                   (Z.of_nat (rm_owner max_key n i))).
  { split; [lia|]. unfold slice_lo. unfold i in *. lia. }
  split.
  - intros Ho%Hiff. by apply (owns_unique base max_key n key).
  - intros ->. by apply Hiff.
Qed.

Lemma InitBudget_row_major_owner_witness :
  (1 ≤ 2 ∧ 0 ≤ 1 ∧ 0 ≤ 5 ∧ 1 + 2 * 5 + 1 < size_max ∧ 1 ≤ 4 < 1 + 5) ∧
  ∃ b1,
    InitBudget true 5 2 (ParallelGroupBuilder [0; 7] [1; 1; 1; 1; 1; 1; 1] 1)
    = Some b1 ∧
    ∀ tid, is_Some (cursor true b1 4 tid)
           ↔ tid = Z.of_nat (rm_owner 5 2 (Z.to_nat (4 - 1))).
Proof.
  assert (H1 : 1 ≤ 2) by lia.
  assert (H2 : 0 ≤ 1) by lia.
  assert (H3 : 0 ≤ 5) by lia.
  assert (H4 : 1 + 2 * 5 + 1 < size_max) by (rewrite size_max_eq; lia).
  assert (H5 : 1 ≤ 4 < 1 + 5) by lia.
  split; [exact (conj H1 (conj H2 (conj H3 (conj H4 H5))))|].
  exact (InitBudget_row_major_owner [0; 7] [1; 1; 1; 1; 1; 1; 1] 1 5 2 4
           H1 H2 H3 H4 H5).
Defined.


(** ** General mode: [max_key] is a hint *)

Lemma resize_budget_buffer M j e tr :
  (length tr ≤ M)%nat → (j < M)%nat →
  budget_buffer j e (resize M 0 tr) = resize M 0 (budget_buffer j e tr).
Proof.
  intros Hl Hj. apply list_eq; intros i.
  rewrite (lookup_budget_buffer j e (resize M 0 tr)),
    (lookup_resize_default (budget_buffer j e tr)), length_resize,
    default_budget_buffer.
  destruct (decide (i < M)%nat) as [Hi|Hi].
  - rewrite decide_True by lia. f_equal.
    by rewrite (lookup_resize_default tr), (decide_True (P := (i < M)%nat))
      by done.
  - by rewrite decide_False by lia.
Qed.

Lemma alter_fmap_comm {A} (f f' g : A → A) i (l : list A) :
  (∀ x, l !! i = Some x → f (g x) = g (f' x)) →
  alter f i (g <$> l) = g <$> alter f' i l.
Proof.
  intros H. apply list_eq; intros k.
  destruct (decide (i = k)) as [->|Hne].
  - rewrite list_lookup_alter_eq, !list_lookup_fmap, list_lookup_alter_eq.
    destruct (l !! k) as [x|] eqn:E; simpl; [|done]. f_equal. by apply H.
  - rewrite list_lookup_alter_ne, !list_lookup_fmap by done.
    by rewrite list_lookup_alter_ne.
Qed.

Lemma budget_for_pos bs key tid :
  budget_for bs key tid ≠ 0 → ∃ e, (key, tid, e) ∈ bs.
Proof.
  induction bs as [|[[k t] e] bs IH]; [done|].
  unfold budget_for. simpl. fold (budget_for bs key tid).
  case_decide as Hd.
  - destruct Hd as [-> ->]. intros _. exists e. apply list_elem_of_here.
  - intros Hne. destruct (IH Hne) as [e' He'].
    exists e'. by apply list_elem_of_further.
Qed.

(** Two builders that agree on the arrays and on the cells of the first. *)
Record push_sim {V} (b b' : Builder V) : Prop := {
  sim_rptr : rptr_ b = rptr_ b';
  sim_data : data_ b = data_ b';
  sim_base : base_row_offset_ b = base_row_offset_ b';
  sim_disp : thread_displacement_ b = thread_displacement_ b';
  sim_counts : counts_ok (thread_rptr_ b);
  sim_cells : ∀ t j c, cell (thread_rptr_ b) t j = Some c →
                       cell (thread_rptr_ b') t j = Some c;
}.

Lemma Push_sim {V} rm key (v : V) tid (b b' b1' : Builder V) :
  push_sim b b' → 0 ≤ tid →
  is_Some (cell (thread_rptr_ b) (call_cell rm b key tid).1
                (call_cell rm b key tid).2) →
  Push rm key v tid b' = Some b1' →
  ∃ b1, Push rm key v tid b = Some b1 ∧ push_sim b1 b1' ∧
        shape (thread_rptr_ b1) = shape (thread_rptr_ b).
Proof.
  intros [Hr Hd Hb Hdi Hcnt Hcells] Ht [c Hc] HP.
  assert (Hcc : call_cell rm b' key tid = call_cell rm b key tid)
    by (unfold call_cell; by rewrite Hb, Hdi).
  pose proof (Hcells _ _ _ Hc) as Hc'.
  pose proof (Hcnt _ _ _ Hc) as Hc0.
  assert (Hlt : c < vsize (data_ b')).
  { destruct (decide (c < vsize (data_ b'))) as [|Hge]; [done|].
    rewrite (Push_off_end rm key v tid b' c) in HP; [done| |done].
    by rewrite cursor_cell, Hcc. }
  pose proof (Push_bump rm b' key v tid c Ht) as HP'.
  rewrite Hcc in HP'. specialize (HP' Hc' ltac:(lia)).
  pose proof (Push_bump rm b key v tid c Ht Hc ltac:(rewrite Hd; lia))
    as HPb.
  destruct (call_cell rm b key tid) as [ct cj]. simpl in *.
  rewrite HP' in HP. injection HP as <-. rewrite HPb.
  eexists. split; [done|].
  split; [|apply shape_bump].
  split; simpl; try done.
  - by rewrite Hd.
  - intros t j x. rewrite cell_bump. case_decide.
    + rewrite Hc. simpl. intros [= <-]. unfold wadd. apply wrap_range.
    + apply Hcnt.
  - intros t j x. rewrite !cell_bump.
    case_decide; [|apply Hcells].
    by rewrite Hc, Hc'.
Qed.

Lemma Pushes_sim {V} rm (ps : list (@push_call V)) : ∀ (b b' b4' : Builder V),
  push_sim b b' →
  Forall (λ '(k, _, t),
            0 ≤ t ∧
            is_Some (cell (thread_rptr_ b) (call_cell rm b k t).1
                          (call_cell rm b k t).2)) ps →
  Pushes rm ps b' = Some b4' →
  ∃ b4, Pushes rm ps b = Some b4 ∧ push_sim b4 b4'.
Proof.
  induction ps as [|[[k v] t] ps IH]; intros b b' b4' Hsim Hok HP.
  - injection HP as <-. by exists b.
  - apply Forall_cons in Hok as [[Ht Hc] Hok].
    unfold Pushes in HP |- *. simpl in HP |- *.
    destruct (Push rm k v t b') as [b1'|] eqn:E1; [|done]. simpl in HP.
    destruct (Push_sim rm k v t b b' b1' Hsim Ht Hc E1)
      as (b1 & H1 & Hsim1 & Hsh).
    rewrite H1. simpl. apply (IH b1 b1' b4' Hsim1); [|done].
    destruct (Push_params _ _ _ _ _ _ H1) as [Hb1 Hd1].
    eapply Forall_impl; [exact Hok|]. intros [[k2 v2] t2] [Ht2 Hc2].
    split; [done|].
    assert (call_cell rm b1 k2 t2 = call_cell rm b k2 t2) as ->
      by (unfold call_cell; by rewrite Hb1, Hd1).
    eapply cell_shape_eq; [|exact Hc2]. done.
Qed.
Section GeneralHint.
Context {V : Type}.
Variables (base K n : Z).

Let Kb := Z.to_nat (K - Z.min base K).

Hypothesis Hn : 1 ≤ n.
Hypothesis Hbase : 0 ≤ base.
Hypothesis HK : 0 ≤ K.
Hypothesis Hsz : base + nkeys false base K + 1 < size_max.

(** The builder with every buffer zero-extended to the full key range. *)
Definition padded (b : Builder V) : Builder V :=
  set_threads b (resize Kb 0 <$> thread_rptr_ b).

Record hint_ok (b : Builder V) : Prop := {
  ho_base : base_row_offset_ b = base;
  ho_threads : length (thread_rptr_ b) = Z.to_nat n;
  ho_lengths : Forall (λ tr, (length tr ≤ Kb)%nat) (thread_rptr_ b);
}.

Lemma owns_general key tid :
  owns false base K n key tid →
  0 ≤ tid < n ∧ 0 ≤ key - base ∧ (Z.to_nat (key - base) < Kb)%nat ∧
  key - base + 1 < size_max.
Proof.
  intros [Ht Hk]. unfold slice_lo, slice_len, nkeys in *. unfold Kb. lia.
Qed.

Lemma AddBudget_padded (b : Builder V) key tid e :
  hint_ok b → owns false base K n key tid →
  ∃ b2,
    AddBudget false key tid e b = Some b2 ∧
    AddBudget false key tid e (padded b) = Some (padded b2) ∧
    hint_ok b2 ∧
    rptr_ b2 = rptr_ b ∧ data_ b2 = data_ b ∧
    thread_displacement_ b2 = thread_displacement_ b ∧
    (∀ t j, is_Some (cell (thread_rptr_ b) t j) →
            is_Some (cell (thread_rptr_ b2) t j)) ∧
    is_Some (cell (thread_rptr_ b2) (Z.to_nat tid) (Z.to_nat (key - base))).
Proof.
  intros [Hb Hth Hlen] Ho.
  destruct (owns_general key tid Ho) as (Ht & Hk0 & Hj & Hmax).
  assert (Hok : offset_key false b key tid = key - base).
  { unfold offset_key, wsub. rewrite Hb. apply wrap_small. lia. }
  assert (Hokp : offset_key false (padded b) key tid = key - base)
    by exact Hok.
  rewrite (AddBudget_grow false b), (AddBudget_grow false (padded b))
    by (rewrite ?Hok, ?Hokp; lia).
  rewrite Hok, Hokp. cbn [padded set_threads thread_rptr_].
  rewrite length_fmap, Hth.
  rewrite !decide_True by lia.
  set (j := Z.to_nat (key - base)) in *. set (t := Z.to_nat tid).
  eexists. split; [done|].
  assert (Hlen2 : Forall (λ tr, (length tr ≤ Kb)%nat)
                    (alter (budget_buffer j e) t (thread_rptr_ b))).
  { apply Forall_forall. intros tr Htr.
    apply list_elem_of_lookup in Htr as [i Hi].
    destruct (decide (t = i)) as [<-|Hne].
    - rewrite list_lookup_alter_eq in Hi.
      destruct (thread_rptr_ b !! t) as [tr0|] eqn:E; [|done].
      injection Hi as <-. rewrite length_budget_buffer.
      pose proof (Forall_lookup_1 _ _ _ _ Hlen E). simpl in *. lia.
    - rewrite list_lookup_alter_ne in Hi by done.
      exact (Forall_lookup_1 _ _ _ _ Hlen Hi). }
  split.
  { f_equal. unfold padded, set_threads. cbn. f_equal.
    apply alter_fmap_comm. intros tr Htr.
    apply resize_budget_buffer; [|done].
    exact (Forall_lookup_1 _ _ _ _ Hlen Htr). }
  cbn [set_threads rptr_ data_ thread_rptr_ base_row_offset_
         thread_displacement_].
  split; [split; cbn [set_threads thread_rptr_ base_row_offset_];
            [done|by rewrite length_alter|done]|].
  do 3 (split; [done|]). split.
  - intros t' j' [c Hc]. unfold cell in *.
    destruct (decide (t = t')) as [<-|Hne].
    + rewrite list_lookup_alter_eq.
      destruct (thread_rptr_ b !! t) as [tr|]; simpl in *; [|done].
      apply lookup_lt_is_Some. rewrite length_budget_buffer.
      apply lookup_lt_Some in Hc. lia.
    + rewrite list_lookup_alter_ne by done. by eexists.
  - unfold cell. rewrite list_lookup_alter_eq.
    destruct (lookup_lt_is_Some_2 (thread_rptr_ b) t) as [tr ->];
      [unfold t; lia|].
    simpl. apply lookup_lt_is_Some. rewrite length_budget_buffer. lia.
Qed.
Lemma AddBudgets_padded bs : ∀ b : Builder V,
  hint_ok b → Forall (λ '(k, t, _), owns false base K n k t) bs →
  ∃ b2,
    AddBudgets false bs b = Some b2 ∧
    AddBudgets false bs (padded b) = Some (padded b2) ∧
    hint_ok b2 ∧
    rptr_ b2 = rptr_ b ∧ data_ b2 = data_ b ∧
    thread_displacement_ b2 = thread_displacement_ b ∧
    (∀ t j, is_Some (cell (thread_rptr_ b) t j) →
            is_Some (cell (thread_rptr_ b2) t j)) ∧
    Forall (λ '(k, t, _),
              is_Some (cell (thread_rptr_ b2) (Z.to_nat t)
                            (Z.to_nat (k - base)))) bs.
Proof.
  induction bs as [|[[k t] e] bs IH]; intros b Hb Hok.
  - exists b. do 6 (split; [done|]). split; [done|constructor].
  - apply Forall_cons in Hok as [Ho Hok].
    destruct (AddBudget_padded b k t e Hb Ho)
      as (b1 & H1 & H1p & Hb1 & Hr1 & Hd1 & Hdi1 & Hc1 & Hn1).
    destruct (IH b1 Hb1 Hok)
      as (b2 & H2 & H2p & Hb2 & Hr2 & Hd2 & Hdi2 & Hc2 & Hall).
    exists b2. rewrite !AddBudgets_cons. simpl. rewrite H1, H1p. simpl.
    split; [done|]. split; [done|]. split; [done|].
    split; [congruence|]. split; [congruence|]. split; [congruence|].
    split; [by auto|].
    apply Forall_cons. split; [by apply Hc2|done].
Qed.

Lemma col_before_zero_padded trs t j :
  col_before (zero_padded trs) t j = col_before trs t j.
Proof.
  unfold col_before. apply bsum_ext. intros t' _. apply cnt_zero_padded.
Qed.

Lemma cell_zero_padded trs t j :
  is_Some (cell trs t j) → is_Some (cell (zero_padded trs) t j).
Proof.
  unfold cell, zero_padded. rewrite list_lookup_fmap.
  destruct (trs !! t) as [tr|]; simpl; [|done].
  intros Hc%lookup_lt_is_Some. apply lookup_lt_is_Some.
  rewrite length_app. lia.
Qed.

Lemma padded_zero_padded (trs : list (list Z)) :
  Forall (λ tr, (length tr ≤ Kb)%nat) trs →
  (Kb = 0%nat ∨ ∃ t, is_Some (cell trs t (Kb - 1))) → trs ≠ [] →
  resize Kb 0 <$> trs = zero_padded trs.
Proof.
  intros Hlen Hfull Hne.
  assert (Hmax : max_list (length <$> trs) = Kb).
  { assert (max_list (length <$> trs) ≤ Kb)%nat.
    { clear Hfull Hne.
      induction Hlen as [|tr trs Htr _ IH]; [simpl; lia|].
      change (max_list (length <$> tr :: trs))
        with (length tr `max` max_list (length <$> trs))%nat.
      lia. }
    destruct Hfull as [H0|[t Ht]]; [lia|].
    unfold cell in Ht. destruct (trs !! t) as [tr|] eqn:E; [|by destruct Ht].
    simpl in Ht. apply lookup_lt_is_Some in Ht.
    assert (length tr ≤ max_list (length <$> trs))%nat; [|lia].
    apply max_list_elem_of_le, list_elem_of_fmap. exists tr.
    split; [done|]. by eapply list_elem_of_lookup_2. }
  unfold zero_padded. rewrite Hmax.
  apply Forall_fmap_ext_1. eapply Forall_impl; [exact Hlen|].
  intros tr Htr. simpl. by apply resize_ge.
Qed.

Lemma InitStorage_padded (dflt : V) (b : Builder V) :
  hint_ok b → Z.of_nat (length (rptr_ b)) < size_max →
  (Kb = 0%nat ∨ ∃ t, is_Some (cell (thread_rptr_ b) t (Kb - 1))) →
  ∃ b3 b3',
    InitStorage dflt false b = Some b3 ∧
    InitStorage dflt false (padded b) = Some b3' ∧
    rptr_ b3' = rptr_ b3 ∧ data_ b3' = data_ b3 ∧
    base_row_offset_ b3' = base_row_offset_ b3 ∧
    thread_displacement_ b3' = thread_displacement_ b3 ∧
    base_row_offset_ b3 = base ∧
    counts_ok (thread_rptr_ b3) ∧
    shape (thread_rptr_ b3) = shape (thread_rptr_ b) ∧
    (∀ t j c, cell (thread_rptr_ b3) t j = Some c →
              cell (thread_rptr_ b3') t j = Some c).
Proof.
  intros [Hb Hth Hlen] Hr Hfull.
  assert (Hne : thread_rptr_ b ≠ []).
  { intros E. rewrite E in Hth. simpl in Hth. lia. }
  assert (Hpad : padded b = set_threads b (zero_padded (thread_rptr_ b))).
  { unfold padded. by rewrite padded_zero_padded. }
  set (N := (length (rptr_ b)
             `max` rows_needed (Z.to_nat (base_row_offset_ b))
                     (thread_rptr_ b))%nat).
  assert (HN0 : (0 < N)%nat).
  { unfold N. rewrite rows_needed_max by done. lia. }
  assert (HN : Z.of_nat N < size_max).
  { assert (Z.of_nat (rows_needed (Z.to_nat (base_row_offset_ b))
                        (thread_rptr_ b)) < size_max); [|unfold N; lia].
    apply rows_needed_bound; [|apply size_max_pos].
    eapply Forall_impl; [exact Hlen|]. intros tr Htr. simpl in Htr.
    unfold vsize. rewrite Hb. unfold nkeys, Kb in *. lia. }
  rewrite Hpad.
  rewrite (InitStorage_general dflt b ltac:(lia) HN0 HN).
  rewrite (InitStorage_general dflt
             (set_threads b (zero_padded (thread_rptr_ b)))).
  2:{ cbn [set_threads base_row_offset_]. lia. }
  2:{ cbn [set_threads rptr_ thread_rptr_ base_row_offset_].
      by rewrite rows_needed_zero_padded. }
  2:{ cbn [set_threads rptr_ thread_rptr_ base_row_offset_].
      by rewrite rows_needed_zero_padded. }
  eexists _, _. split; [done|]. split; [done|].
  cbn [rptr_ data_ thread_rptr_ base_row_offset_ thread_displacement_
         set_threads].
  rewrite general_rptr_zero_padded.
  do 5 (split; [done|]).
  assert (Hcell : ∀ (bb : Builder V) t j,
            is_Some (cell (thread_rptr_ bb) t j) →
            cell (general_cursors bb) t j
            = Some (wrap (rows_before (thread_rptr_ bb) j
                          + col_before (thread_rptr_ bb) t j
                          + rptr_fill (rptr_ bb)))).
  { intros bb t j Hc. unfold general_cursors. rewrite cell_cmap.
    pose proof (rows_needed_row (Z.to_nat (base_row_offset_ bb))
                  (thread_rptr_ bb) t j Hc) as Hj.
    destruct Hc as [c ->]. simpl. f_equal. unfold gen_cursor.
    by rewrite decide_True by lia. }
  split.
  { intros t j c Hc.
    assert (is_Some (cell (thread_rptr_ b) t j)) as Hs.
    { eapply cell_shape_eq; [|by eexists].
      unfold general_cursors. apply shape_cmap. }
    rewrite Hcell in Hc by done. injection Hc as <-.
    apply wrap_range. }
  split; [apply shape_cmap|].
  intros t j c Hc.
  assert (is_Some (cell (thread_rptr_ b) t j)) as Hs.
  { eapply cell_shape_eq; [|by eexists].
    unfold general_cursors. apply shape_cmap. }
  rewrite Hcell in Hc by done. injection Hc as <-.
  rewrite Hcell by (by apply cell_zero_padded).
  cbn [set_threads rptr_ thread_rptr_].
  by rewrite rows_before_zero_padded, col_before_zero_padded.
Qed.

End GeneralHint.


Lemma pushed_for_elem {V} (ps : list (@push_call V)) k v t :
  (k, v, t) ∈ ps → pushed_for ps k t ≠ [].
Proof.
  induction ps as [|[[k' v'] t'] ps IH]; [by intros ?%elem_of_nil|].
  intros Hin. unfold pushed_for. simpl. fold (pushed_for ps k t).
  case_decide as Hd; [done|].
  apply elem_of_cons in Hin as [[= -> -> ->]|Hin]; [|by apply IH].
  by destruct Hd.
Qed.

Lemma obind_some {A B} (f : A → option B) (x : A) : Some x ≫= f = f x.
Proof. done. Qed.

Lemma resize_replicate_zero (M s : nat) :
  (s ≤ M)%nat → resize M 0 (replicate s 0) = replicate M 0.
Proof.
  intros Hs. rewrite resize_ge by (rewrite length_replicate; lia).
  rewrite length_replicate, <- replicate_add. f_equal. lia.
Qed.

(** X11.  In general mode [max_key] is only a hint ("can be smaller than
    expected"): the buffers grow when a larger key is budgeted.  A run
    whose keys reach up to [K - 1], started with any [max_key ≤ K], leaves
    the same [rptr_] and the same [data_] as the run started with
    [max_key = K], provided the key [K - 1] is budgeted (or
    [max_key = K]). *)
Theorem build_general_hint {V} (dflt : V) r d base max_key K n bs ps :
  0 ≤ max_key ≤ K →
  build_ok false r base K n bs ps →
  (max_key = K ∨ ∃ t e, (K - 1, t, e) ∈ bs) →
  ∃ b b',
    build dflt false r d base max_key n bs ps = Some b ∧
    build dflt false r d base K n bs ps = Some b' ∧
    rptr_ b = rptr_ b' ∧ data_ b = data_ b'.
Proof.
  intros Hmk Hok Hlast.
  destruct (build_ok_spec dflt _ _ d _ _ _ _ _ Hok) as (b' & Hb' & _).
  destruct Hok as [Hn Hbase HK Hsz Hbs Hps Hcomp Hprior Hfill Hov].
  set (Kb := Z.to_nat (K - Z.min base K)).
  set (s := Z.to_nat (wsub max_key (Z.min base max_key))).
  assert (HsK : Z.to_nat (wsub K (Z.min base K)) = Kb).
  { unfold wsub. rewrite wrap_small; [done|]. unfold nkeys in Hsz. lia. }
  assert (Hs : (s ≤ Kb)%nat).
  { unfold s, Kb, wsub. rewrite wrap_small by (unfold nkeys in Hsz; lia).
    lia. }
  set (b1 := mkBuilder r d (replicate (Z.to_nat (n - 1)) (replicate s 0)
                            ++ [replicate s 0]) base 0).
  assert (H1 : InitBudget false max_key n (ParallelGroupBuilder r d base)
               = Some b1) by (by rewrite InitBudget_fresh).
  assert (H1K : InitBudget false K n (ParallelGroupBuilder r d base)
                = Some (padded base K b1)).
  { rewrite InitBudget_fresh by done. f_equal.
    unfold padded, b1, set_threads. cbn. f_equal.
    unfold thread_size_of, last_thread_size_of, full_size_of.
    rewrite HsK. fold Kb.
    rewrite fmap_app, fmap_replicate. simpl.
    by rewrite !resize_replicate_zero by done. }
  assert (Hh1 : hint_ok base K n b1).
  { split; [done| |].
    - unfold b1. cbn. rewrite length_app, length_replicate. simpl. lia.
    - unfold b1. cbn. apply Forall_app. split.
      + apply Forall_replicate. by rewrite length_replicate.
      + apply Forall_singleton. by rewrite length_replicate. }
  destruct (AddBudgets_padded base K n Hn Hbase HK Hsz bs b1 Hh1 Hbs)
    as (b2 & H2 & H2K & Hh2 & Hr2 & Hd2 & _ & Hkeep & Hcalls).
  assert (Hfull : Kb = 0%nat
                  ∨ ∃ t, is_Some (cell (thread_rptr_ b2) t (Kb - 1))).
  { destruct (decide (Kb = 0%nat)) as [|HKb]; [by left|right].
    destruct Hlast as [->|(t & e & Hin)].
    - exists 0%nat. apply Hkeep. unfold b1, cell. cbn.
      assert (s = Kb) as -> by (unfold s; by rewrite HsK).
      destruct (Z.to_nat (n - 1)); simpl; apply lookup_lt_is_Some;
        rewrite length_replicate; lia.
    - exists (Z.to_nat t).
      pose proof (proj1 (Forall_forall _ _) Hcalls _ Hin) as Hc.
      pose proof (proj1 (Forall_forall _ _) Hbs _ Hin) as [_ Ho].
      simpl in Hc. unfold slice_lo, slice_len in Ho.
      replace (Kb - 1)%nat with (Z.to_nat (K - 1 - base))
        by (unfold Kb; lia).
      done. }
  assert (Hlenr : Z.of_nat (length (rptr_ b2)) < size_max).
  { rewrite Hr2. unfold b1. cbn. unfold nkeys in Hsz. lia. }
  destruct (InitStorage_padded base K n Hn Hbase Hsz dflt b2 Hh2 Hlenr Hfull)
    as (b3 & b3' & H3 & H3K & Hr3 & Hd3 & Hb3 & Hdi3 & Hbase3 & Hcnt3
        & Hsh3 & Hcells3).
  rewrite build_phases, H1K, obind_some, H2K, obind_some, H3K, obind_some
    in Hb'.
  assert (Hsim : push_sim b3 b3') by (by split).
  destruct (Pushes_sim false ps b3 b3' b' Hsim) as (b4 & H4 & Hsim4).
  { apply Forall_forall. intros [[k v] t] Hin.
    pose proof (proj1 (Forall_forall _ _) Hps _ Hin) as Ho. simpl in Ho.
    destruct Ho as [Ht Hk]. unfold slice_lo, slice_len in Hk.
    split; [lia|].
    assert (call_cell false b3 k t
            = (Z.to_nat t, Z.to_nat (k - base))) as ->.
    { unfold call_cell, okey, wsub. rewrite Hbase3.
      rewrite wrap_small; [done|]. unfold nkeys in Hsz. lia. }
    simpl. eapply cell_shape_eq; [symmetry; exact Hsh3|].
    pose proof (pushed_for_elem ps k v t Hin) as Hne.
    destruct (budget_for_pos bs k t) as [e He].
    { rewrite Hcomp. destruct (pushed_for ps k t); [done|]. simpl. lia. }
    exact (proj1 (Forall_forall _ _) Hcalls _ He). }
  { done. }
  exists b4, b'. split.
  { by rewrite build_phases, H1, obind_some, H2, obind_some, H3,
      obind_some. }
  split; [by rewrite build_phases, H1K, obind_some, H2K, obind_some, H3K,
             obind_some|].
  destruct Hsim4 as [Hr4 Hd4 _ _ _ _]. done.
Qed.

Lemma build_general_hint_witness :
  (0 ≤ 1 ≤ 2 ∧
   build_ok false [] 0 2 2 example_budgets example_pushes ∧
   (1 = 2 ∨ ∃ t e, (2 - 1, t, e) ∈ example_budgets)) ∧
  ∃ b b',
    build 0 false [] [] 0 1 2 example_budgets example_pushes = Some b ∧
    build 0 false [] [] 0 2 2 example_budgets example_pushes = Some b' ∧
    rptr_ b = rptr_ b' ∧ data_ b = data_ b'.
Proof.
  assert (H0 : 0 ≤ 1 ≤ 2) by lia.
  assert (H1 : 1 = 2 ∨ ∃ t e, (2 - 1, t, e) ∈ example_budgets).
  { right. exists 0, 1. apply elem_of_cons; right.
    apply elem_of_cons; by left. }
  split; [exact (conj H0 (conj example_build_ok H1))|].
  exact (build_general_hint 0 [] [] 0 1 2 2 example_budgets example_pushes
           H0 example_build_ok H1).
Defined.
